(** * The [smart_custom] extraction strategy of osmium-tool

    A shallow embedding of [src/extract/strategy_smart_custom.cpp] and the
    properties its specification states about it.  The source file holds
    two variants of the strategy; the model follows the one with the
    [relations] and [relation-system] options, which is the one the
    specification describes.

    Conventions of the model:
    - element ids are signed 64-bit integers in the program
      ([osmium::object_id_type]); every membership test goes through
      [positive_id] or [positive_ref], the absolute value as an unsigned
      integer.  Ids are modelled as [Z], their absolute values as [N];
    - the six id sets of a region are finite sets of [N];
    - a handler that mutates a region takes the region and returns the
      new one; the output sink of a region is the list of objects written;
    - exceptions, and the one place where the program leaves defined C++,
      are results of type [Result];
    - the [while] loop of the closure takes a bound on its iterations, and
      the bound the closure passes is shown to suffice;
    - console output and the progress bar are left out. *)

From stdpp Require Import gmap sets list sorting strings.

Local Open Scope Z_scope.

(* [set_solver] clears hypotheses that may be gone already. *)
Local Set Warnings "-clear-no-such-hyp".

(** ** OSM objects *)

Definition object_id_type := Z.
Definition unsigned_object_id_type := N.

Inductive item_type := node_t | way_t | relation_t.

#[global] Instance item_type_eq_dec : EqDecision item_type.
Proof. solve_decision. Defined.

Record Tag := { tag_key : string; tag_value : string }.
Definition TagList := list Tag.

Record Location := { loc_x : Z; loc_y : Z }.

Record NodeRef := { nr_ref : object_id_type }.

Record RelationMember :=
  { member_type : item_type; member_ref : object_id_type; member_role : string }.

Record Node :=
  { node_id : object_id_type; node_location : Location; node_tags : TagList }.

Record Way :=
  { way_id : object_id_type; way_nodes : list NodeRef; way_tags : TagList }.

Record Relation :=
  { relation_id : object_id_type;
    relation_members : list RelationMember;
    relation_tags : TagList }.

Inductive OSMObject :=
| ONode (n : Node)
| OWay (w : Way)
| ORelation (r : Relation).

Definition positive (id : object_id_type) : unsigned_object_id_type := Z.abs_N id.

Definition nr_positive_ref (nr : NodeRef) := positive (nr_ref nr).
Definition member_positive_ref (m : RelationMember) := positive (member_ref m).
Definition node_positive_id (n : Node) := positive (node_id n).
Definition way_positive_id (w : Way) := positive (way_id w).
Definition relation_positive_id (r : Relation) := positive (relation_id r).

Definition object_type (o : OSMObject) : item_type :=
  match o with ONode _ => node_t | OWay _ => way_t | ORelation _ => relation_t end.

Definition object_positive_id (o : OSMObject) : unsigned_object_id_type :=
  match o with
  | ONode n => node_positive_id n
  | OWay w => way_positive_id w
  | ORelation r => relation_positive_id r
  end.

(** ** Membership index *)

(** Modelled from the spec: the id sets of a region ([osmium::index::IdSetDense]
    in the declaration of [Data], which is not part of the source file).
    Section 4.1: [set], [get], emptiness test, no removal. *)
Module IdSet.
Abbreviation t := (gset N).

Definition get (s : t) (id : N) : bool := bool_decide (id ∈ s).
Definition set (id : N) (s : t) : t := {[ id ]} ∪ s.
Definition empty (s : t) : bool := bool_decide (s = ∅).

(** Modelled from the spec: iteration over an id set visits its ids in
    ascending order. *)
Definition ids (s : t) : list N := merge_sort N.le (elements s).
End IdSet.

(** ** Regions *)

(** Modelled from the spec: the externally supplied part of a region
    (class [Extract], declared outside the source file): the boundary test
    and the two tag predicates of section 3. *)
Record Extract :=
  { contains : Location → bool;
    has_conflicting_tags : TagList → bool;
    has_matching_tags : TagList → bool }.

(** The state of one region: [Data] of the strategy together with the
    region it belongs to.  [written] is the region's output sink: the
    objects handed to [write], oldest first. *)
Record extract_data :=
  { m_extract : Extract;
    node_ids : IdSet.t;
    extra_node_ids : IdSet.t;
    way_ids : IdSet.t;
    extra_way_ids : IdSet.t;
    relation_ids : IdSet.t;
    extra_relation_ids : IdSet.t;
    written : list OSMObject }.

Definition set_node_ids (id : N) (e : extract_data) : extract_data :=
  {| m_extract := m_extract e;
     node_ids := IdSet.set id (node_ids e);
     extra_node_ids := extra_node_ids e;
     way_ids := way_ids e;
     extra_way_ids := extra_way_ids e;
     relation_ids := relation_ids e;
     extra_relation_ids := extra_relation_ids e;
     written := written e |}.

Definition set_extra_node_ids (id : N) (e : extract_data) : extract_data :=
  {| m_extract := m_extract e;
     node_ids := node_ids e;
     extra_node_ids := IdSet.set id (extra_node_ids e);
     way_ids := way_ids e;
     extra_way_ids := extra_way_ids e;
     relation_ids := relation_ids e;
     extra_relation_ids := extra_relation_ids e;
     written := written e |}.

Definition set_way_ids (id : N) (e : extract_data) : extract_data :=
  {| m_extract := m_extract e;
     node_ids := node_ids e;
     extra_node_ids := extra_node_ids e;
     way_ids := IdSet.set id (way_ids e);
     extra_way_ids := extra_way_ids e;
     relation_ids := relation_ids e;
     extra_relation_ids := extra_relation_ids e;
     written := written e |}.

Definition set_extra_way_ids (id : N) (e : extract_data) : extract_data :=
  {| m_extract := m_extract e;
     node_ids := node_ids e;
     extra_node_ids := extra_node_ids e;
     way_ids := way_ids e;
     extra_way_ids := IdSet.set id (extra_way_ids e);
     relation_ids := relation_ids e;
     extra_relation_ids := extra_relation_ids e;
     written := written e |}.

Definition set_relation_ids (id : N) (e : extract_data) : extract_data :=
  {| m_extract := m_extract e;
     node_ids := node_ids e;
     extra_node_ids := extra_node_ids e;
     way_ids := way_ids e;
     extra_way_ids := extra_way_ids e;
     relation_ids := IdSet.set id (relation_ids e);
     extra_relation_ids := extra_relation_ids e;
     written := written e |}.

Definition set_extra_relation_ids (id : N) (e : extract_data) : extract_data :=
  {| m_extract := m_extract e;
     node_ids := node_ids e;
     extra_node_ids := extra_node_ids e;
     way_ids := way_ids e;
     extra_way_ids := extra_way_ids e;
     relation_ids := relation_ids e;
     extra_relation_ids := IdSet.set id (extra_relation_ids e);
     written := written e |}.

Definition write (o : OSMObject) (e : extract_data) : extract_data :=
  {| m_extract := m_extract e;
     node_ids := node_ids e;
     extra_node_ids := extra_node_ids e;
     way_ids := way_ids e;
     extra_way_ids := extra_way_ids e;
     relation_ids := relation_ids e;
     extra_relation_ids := extra_relation_ids e;
     written := written e ++ [o] |}.

(** A region as the constructor of [Strategy] creates it: six empty sets,
    nothing written. *)
Definition new_extract_data (x : Extract) : extract_data :=
  {| m_extract := x;
     node_ids := ∅; extra_node_ids := ∅;
     way_ids := ∅; extra_way_ids := ∅;
     relation_ids := ∅; extra_relation_ids := ∅;
     written := [] |}.

(** ** [Data::add_relation_members] *)

Definition add_member (e : extract_data) (member : RelationMember) : extract_data :=
  let ref := member_positive_ref member in
  match member_type member with
  | node_t =>
      if negb (IdSet.get (node_ids e) ref) then set_extra_node_ids ref e else e
  | way_t =>
      if negb (IdSet.get (way_ids e) ref) then set_extra_way_ids ref e else e
  | relation_t => e
  end.

Definition add_relation_members (e : extract_data) (relation : Relation) : extract_data :=
  foldl add_member e (relation_members relation).

(** ** The relations map

    The Relation Graph Builder of sections 3 and 4.3 of the specification
    ([osmium::index::RelationsMapStash] and [RelationsMapIndexes], library
    code outside the source file).  A table is a list of (key, value)
    pairs. *)

Abbreviation flat_map := (list (N * N)).

Definition kv_le (a b : N * N) : Prop :=
  (a.1 < b.1)%N ∨ (a.1 = b.1 ∧ (a.2 ≤ b.2)%N).

#[global] Instance kv_le_dec a b : Decision (kv_le a b).
Proof. unfold kv_le. apply _. Defined.

Definition flip (m : flat_map) : flat_map := map (λ kv, (kv.2, kv.1)) m.

Definition sort_unique (m : flat_map) : flat_map :=
  merge_sort kv_le (remove_dups m).

Abbreviation RelationsMapStash := flat_map.

(** Modelled from the spec: [add_members] records, for each member that is
    itself a relation, an edge from the member to the relation that
    contains it. *)
Definition stash_add_members (stash : RelationsMapStash) (relation : Relation)
  : RelationsMapStash :=
  foldl (λ st member,
           match member_type member with
           | relation_t =>
               st ++ [(member_positive_ref member, relation_positive_id relation)]
           | _ => st
           end)
        stash (relation_members relation).

Record RelationsMapIndexes :=
  { member_to_parent : flat_map;
    parent_to_member : flat_map }.

(** Modelled from the spec: [build_indexes] freezes the stash into two
    lookup tables, from a member to the relations that contain it and from
    a relation to its members, each sorted and without duplicates. *)
Definition build_indexes (stash : RelationsMapStash) : RelationsMapIndexes :=
  {| member_to_parent := sort_unique stash;
     parent_to_member := sort_unique (flip stash) |}.

(** Modelled from the spec: the values stored under key [id], in table
    order: what [for_each_parent] hands to its callback one after the
    other. *)
Definition for_each_parent (m : flat_map) (id : N) : list N :=
  (filter (λ kv, kv.1 = id) m).*2.

(** ** [Data::add_relation_network] *)

(** The lambda [queue_relations]: push the parents of [id], then its
    members, at the back of the queue. *)
Definition queue_relations (indices : RelationsMapIndexes) (id : N) (q : list N)
  : list N :=
  q ++ for_each_parent (member_to_parent indices) id
    ++ for_each_parent (parent_to_member indices) id.

(** The [for] loop that seeds the queue from [relation_ids]. *)
Definition network_seed (indices : RelationsMapIndexes) (e : extract_data) : list N :=
  foldl (λ q id, queue_relations indices id q) [] (IdSet.ids (relation_ids e)).

(** The [while] loop; [fuel] bounds the number of iterations and [None]
    means the bound was reached with a non-empty queue. *)
Fixpoint network_loop (fuel : nat) (indices : RelationsMapIndexes)
  (q : list N) (e : extract_data) : option extract_data :=
  match q with
  | [] => Some e
  | id :: q' =>
      match fuel with
      | O => None
      | S fuel' =>
          if negb (IdSet.get (relation_ids e) id)
             && negb (IdSet.get (extra_relation_ids e) id)
          then network_loop fuel' indices (queue_relations indices id q')
                 (set_extra_relation_ids id e)
          else network_loop fuel' indices q' e
      end
  end.

(** A table entry whose key is neither a primary nor an extra relation. *)
Definition unmarked (e : extract_data) (kv : N * N) : Prop :=
  (fst kv ∉ relation_ids e) ∧ (fst kv ∉ extra_relation_ids e).

#[global] Instance unmarked_dec e kv : Decision (unmarked e kv).
Proof. unfold unmarked. apply _. Defined.

(** The bound the closure gives its loop: the number of pending queue
    entries plus the number of table entries with an unmarked key.  It
    drops by one in every iteration. *)
Definition network_fuel (indices : RelationsMapIndexes) (q : list N)
  (e : extract_data) : nat :=
  (length q
   + length (filter (unmarked e) (member_to_parent indices))
   + length (filter (unmarked e) (parent_to_member indices)))%nat.

(** The closure with a given bound, and with the bound that suffices. *)
Definition add_relation_network_in (fuel : nat) (indices : RelationsMapIndexes)
  (e : extract_data) : option extract_data :=
  network_loop fuel indices (network_seed indices e) e.

Definition add_relation_network (indices : RelationsMapIndexes) (e : extract_data)
  : option extract_data :=
  add_relation_network_in
    (network_fuel indices (network_seed indices e) e) indices e.

(** The same loop with a log of what it does: every id pushed on the queue
    (the seed included) and every id it marks, each in the order of the
    events. *)
Record network_log := { pushed : list N; marked : list N }.

Fixpoint network_loop_log (fuel : nat) (indices : RelationsMapIndexes)
  (q : list N) (e : extract_data) (log : network_log)
  : option (extract_data * network_log) :=
  match q with
  | [] => Some (e, log)
  | id :: q' =>
      match fuel with
      | O => None
      | S fuel' =>
          if negb (IdSet.get (relation_ids e) id)
             && negb (IdSet.get (extra_relation_ids e) id)
          then network_loop_log fuel' indices (queue_relations indices id q')
                 (set_extra_relation_ids id e)
                 {| pushed := queue_relations indices id (pushed log);
                    marked := marked log ++ [id] |}
          else network_loop_log fuel' indices q' e log
      end
  end.

Definition add_relation_network_log (indices : RelationsMapIndexes)
  (e : extract_data) : option (extract_data * network_log) :=
  let q := network_seed indices e in
  network_loop_log (network_fuel indices q e) indices q e
    {| pushed := q; marked := [] |}.

(** System edges of a stash: [a] and [b] are linked when one is recorded
    as a member of the other. *)
Definition linked (stash : RelationsMapStash) (a b : N) : Prop :=
  (a, b) ∈ stash ∨ (b, a) ∈ stash.

(** [b] is connected to [a] by a chain of system edges. *)
Definition connected (stash : RelationsMapStash) : N → N → Prop :=
  rtc (linked stash).

(** ** Tag filters *)

(** Modelled from the spec: the Tag Filter of section 4.2
    ([osmium::TagsFilter] and [osmium::tags::match_any_of], library code
    outside the source file).  A rule is a key or a key with a value; the
    first rule that matches a tag decides, the default decides otherwise;
    a tag list matches when one of its tags does. *)
Record TagMatcher := { tm_key : string; tm_value : option string }.

Definition tag_matches (m : TagMatcher) (t : Tag) : bool :=
  bool_decide (tm_key m = tag_key t)
  && match tm_value m with
     | None => true
     | Some v => bool_decide (v = tag_value t)
     end.

Record TagsFilter :=
  { m_rules : list (bool * TagMatcher); m_default_result : bool }.

Fixpoint filter_rules (rules : list (bool * TagMatcher)) (default : bool) (t : Tag)
  : bool :=
  match rules with
  | [] => default
  | rule :: rest =>
      if tag_matches rule.2 t then rule.1 else filter_rules rest default t
  end.

Definition filter_tag (f : TagsFilter) (t : Tag) : bool :=
  filter_rules (m_rules f) (m_default_result f) t.

Definition match_any_of (tags : TagList) (f : TagsFilter) : bool :=
  existsb (filter_tag f) tags.

(** ** The strategy *)

Record Strategy :=
  { m_extracts : list extract_data;
    m_relation_filter : TagsFilter;
    m_relation_system_filter : TagsFilter;
    m_by_first_node : bool }.

Definition with_extracts (s : Strategy) (es : list extract_data) : Strategy :=
  {| m_extracts := es;
     m_relation_filter := m_relation_filter s;
     m_relation_system_filter := m_relation_system_filter s;
     m_by_first_node := m_by_first_node s |}.

(** What the constructor leaves behind once the options are parsed: one
    fresh region state per extract and the three settings. *)
Definition new_strategy (extracts : list Extract) (relations system : TagsFilter)
  (by_first_node : bool) : Strategy :=
  {| m_extracts := map new_extract_data extracts;
     m_relation_filter := relations;
     m_relation_system_filter := system;
     m_by_first_node := by_first_node |}.

Definition is_relevant_relation (s : Strategy) (relation : Relation) : bool :=
  match_any_of (relation_tags relation) (m_relation_filter s).

Definition is_part_of_relevant_relation_system (s : Strategy) (relation : Relation)
  : bool :=
  match_any_of (relation_tags relation) (m_relation_system_filter s).

(** ** Failures

    [io_error] and [out_of_order_error] are the exceptions of the program.
    [undefined_behaviour] stands for an execution that leaves defined C++
    ([front()] of an empty node list); [unfinished] for a loop cut off by
    its iteration bound. *)

Inductive failure :=
| io_error
| out_of_order_error
| undefined_behaviour
| unfinished.

Inductive Result (A : Type) : Type :=
| Ok (a : A)
| Err (f : failure).
Arguments Ok {A} a.
Arguments Err {A} f.

#[global] Instance Result_ret : MRet Result := λ A a, Ok a.
#[global] Instance Result_bind : MBind Result :=
  λ A B k r, match r with Ok a => k a | Err f => Err f end.

Fixpoint for_each {A} (f : A → Result A) (l : list A) : Result (list A) :=
  match l with
  | [] => Ok []
  | a :: rest => a' ← f a ; rest' ← for_each f rest ; Ok (a' :: rest')
  end.

Definition of_option {A} (f : failure) (o : option A) : Result A :=
  match o with
  | Some a => Ok a
  | None => Err f
  end.

(** ** Order checking *)

(** Modelled from the spec: the order-checking collaborator of sections 4.4
    and 7 ([osmium::handler::CheckOrder], library code outside the source
    file).  It remembers the largest id seen of each type ([None]: none
    yet) and fails when points, ways and relations do not come in this
    order or when the ids of one type go down. *)
Record CheckOrder :=
  { m_max_node_id : option Z;
    m_max_way_id : option Z;
    m_max_relation_id : option Z }.

Definition new_check_order : CheckOrder :=
  {| m_max_node_id := None; m_max_way_id := None; m_max_relation_id := None |}.

Definition goes_down (max : option Z) (id : Z) : bool :=
  match max with
  | None => false
  | Some m => bool_decide (id < m)
  end.

Definition check_node (c : CheckOrder) (n : Node) : Result CheckOrder :=
  if bool_decide (is_Some (m_max_way_id c)) then Err out_of_order_error
  else if bool_decide (is_Some (m_max_relation_id c)) then Err out_of_order_error
  else if goes_down (m_max_node_id c) (node_id n) then Err out_of_order_error
  else Ok {| m_max_node_id := Some (node_id n);
             m_max_way_id := m_max_way_id c;
             m_max_relation_id := m_max_relation_id c |}.

Definition check_way (c : CheckOrder) (w : Way) : Result CheckOrder :=
  if bool_decide (is_Some (m_max_relation_id c)) then Err out_of_order_error
  else if goes_down (m_max_way_id c) (way_id w) then Err out_of_order_error
  else Ok {| m_max_node_id := m_max_node_id c;
             m_max_way_id := Some (way_id w);
             m_max_relation_id := m_max_relation_id c |}.

Definition check_relation (c : CheckOrder) (r : Relation) : Result CheckOrder :=
  if goes_down (m_max_relation_id c) (relation_id r) then Err out_of_order_error
  else Ok {| m_max_node_id := m_max_node_id c;
             m_max_way_id := m_max_way_id c;
             m_max_relation_id := Some (relation_id r) |}.

(** ** Passes *)

(** Modelled from the spec: the driver of a pass (class template [Pass],
    declared outside the source file).  Section 4.4: a pass reads the
    objects of its input once, in order; every object goes first to the
    pass itself and then to every region's state.  A handler a pass does
    not define does nothing. *)
Class Pass (P : Type) :=
  { node : Strategy → P → Node → Result P;
    enode : Strategy → P → extract_data → Node → Result extract_data;
    way : Strategy → P → Way → Result P;
    eway : Strategy → P → extract_data → Way → Result extract_data;
    relation : Strategy → P → Relation → Result P;
    erelation : Strategy → P → extract_data → Relation → Result extract_data }.

Definition nothing {P A} (s : Strategy) (p : P) (a : A) : Result P := Ok p.
Definition enothing {P A} (s : Strategy) (p : P) (e : extract_data) (a : A)
  : Result extract_data := Ok e.

(** Modelled from the spec: one object of a pass. *)
Definition dispatch `{Pass P} (s : Strategy) (p : P) (o : OSMObject)
  : Result (P * Strategy) :=
  match o with
  | ONode n =>
      p' ← node s p n ;
      es ← for_each (λ e, enode s p' e n) (m_extracts s) ;
      Ok (p', with_extracts s es)
  | OWay w =>
      p' ← way s p w ;
      es ← for_each (λ e, eway s p' e w) (m_extracts s) ;
      Ok (p', with_extracts s es)
  | ORelation r =>
      p' ← relation s p r ;
      es ← for_each (λ e, erelation s p' e r) (m_extracts s) ;
      Ok (p', with_extracts s es)
  end.

(** Modelled from the spec: a pass over a sequence of objects.  The
    outcome is the failure that stopped it, if any, and the pass and
    strategy as they were when it stopped. *)
Fixpoint run_impl `{Pass P} (s : Strategy) (p : P) (objects : list OSMObject)
  : option failure * P * Strategy :=
  match objects with
  | [] => (None, p, s)
  | o :: rest =>
      match dispatch s p o with
      | Err f => (Some f, p, s)
      | Ok (p', s') => run_impl s' p' rest
      end
  end.

(** The strategy after each object the pass got through, oldest first. *)
Fixpoint run_impl_states `{Pass P} (s : Strategy) (p : P) (objects : list OSMObject)
  : list Strategy :=
  match objects with
  | [] => []
  | o :: rest =>
      match dispatch s p o with
      | Err f => []
      | Ok (p', s') => s' :: run_impl_states s' p' rest
      end
  end.

(** *** Pass 1 *)

Record Pass1 :=
  { m_check_order : CheckOrder;
    m_relations_map_stash : RelationsMapStash }.

Definition new_pass1 : Pass1 :=
  {| m_check_order := new_check_order; m_relations_map_stash := [] |}.

Definition pass1_node (s : Strategy) (p : Pass1) (n : Node) : Result Pass1 :=
  c ← check_node (m_check_order p) n ;
  Ok {| m_check_order := c; m_relations_map_stash := m_relations_map_stash p |}.

Definition pass1_enode (s : Strategy) (p : Pass1) (e : extract_data) (n : Node)
  : Result extract_data :=
  if contains (m_extract e) (node_location n)
  then Ok (set_node_ids (node_positive_id n) e)
  else Ok e.

Definition pass1_way (s : Strategy) (p : Pass1) (w : Way) : Result Pass1 :=
  c ← check_way (m_check_order p) w ;
  Ok {| m_check_order := c; m_relations_map_stash := m_relations_map_stash p |}.

(** The loop shared by pass 1 and pass 3: every referenced node that is
    not in [node_ids] goes to [extra_node_ids]. *)
Definition add_way_node (e : extract_data) (nr : NodeRef) : extract_data :=
  if negb (IdSet.get (node_ids e) (nr_positive_ref nr))
  then set_extra_node_ids (nr_positive_ref nr) e
  else e.

Definition add_way_nodes (e : extract_data) (w : Way) : extract_data :=
  foldl add_way_node e (way_nodes w).

(** The outer loop of the branch without [by_first_node]: [nodes] is the
    part of the node list still to visit. *)
Fixpoint eway_scan (e : extract_data) (w : Way) (nodes : list NodeRef)
  : extract_data :=
  match nodes with
  | [] => e
  | nr :: rest =>
      if IdSet.get (node_ids e) (nr_positive_ref nr)
      then add_way_nodes (set_way_ids (way_positive_id w) e) w
      else eway_scan e w rest
  end.

Definition pass1_eway (s : Strategy) (p : Pass1) (e : extract_data) (w : Way)
  : Result extract_data :=
  if m_by_first_node s then
    match head (way_nodes w) with
    | None => Err undefined_behaviour
    | Some first_node =>
        if (IdSet.get (node_ids e) (nr_positive_ref first_node)
            && negb (has_conflicting_tags (m_extract e) (way_tags w)))
           || has_matching_tags (m_extract e) (way_tags w)
        then Ok (add_way_nodes (set_way_ids (way_positive_id w) e) w)
        else Ok e
    end
  else Ok (eway_scan e w (way_nodes w)).

Definition pass1_relation (s : Strategy) (p : Pass1) (r : Relation) : Result Pass1 :=
  c ← check_relation (m_check_order p) r ;
  Ok {| m_check_order := c;
        m_relations_map_stash :=
          if is_part_of_relevant_relation_system s r
          then stash_add_members (m_relations_map_stash p) r
          else m_relations_map_stash p |}.

(** The body of the two matching cases of [erelation]. *)
Definition accept_relation (s : Strategy) (e : extract_data) (r : Relation)
  : extract_data :=
  let e' := set_relation_ids (relation_positive_id r) e in
  if is_relevant_relation s r || is_part_of_relevant_relation_system s r
  then add_relation_members e' r
  else e'.

Fixpoint erelation_scan (s : Strategy) (e : extract_data) (r : Relation)
  (members : list RelationMember) : extract_data :=
  match members with
  | [] => e
  | member :: rest =>
      match member_type member with
      | node_t =>
          if IdSet.get (node_ids e) (member_positive_ref member)
          then accept_relation s e r
          else erelation_scan s e r rest
      | way_t =>
          if IdSet.get (way_ids e) (member_positive_ref member)
          then accept_relation s e r
          else erelation_scan s e r rest
      | relation_t => erelation_scan s e r rest
      end
  end.

Definition pass1_erelation (s : Strategy) (p : Pass1) (e : extract_data)
  (r : Relation) : Result extract_data :=
  Ok (erelation_scan s e r (relation_members r)).

#[global] Instance pass1 : Pass Pass1 :=
  {| node := pass1_node; enode := pass1_enode;
     way := pass1_way; eway := pass1_eway;
     relation := pass1_relation; erelation := pass1_erelation |}.

(** *** Pass 2 *)

Inductive Pass2 := new_pass2.

Definition pass2_erelation (s : Strategy) (p : Pass2) (e : extract_data)
  (r : Relation) : Result extract_data :=
  if IdSet.get (extra_relation_ids e) (relation_positive_id r)
     && is_part_of_relevant_relation_system s r
  then Ok (add_relation_members e r)
  else Ok e.

#[global] Instance pass2 : Pass Pass2 :=
  {| node := nothing; enode := enothing;
     way := nothing; eway := enothing;
     relation := nothing; erelation := pass2_erelation |}.

(** *** Pass 3 *)

Inductive Pass3 := new_pass3.

Definition pass3_eway (s : Strategy) (p : Pass3) (e : extract_data) (w : Way)
  : Result extract_data :=
  if IdSet.get (extra_way_ids e) (way_positive_id w)
  then Ok (add_way_nodes e w)
  else Ok e.

#[global] Instance pass3 : Pass Pass3 :=
  {| node := nothing; enode := enothing;
     way := nothing; eway := pass3_eway;
     relation := nothing; erelation := enothing |}.

(** *** Pass 4 *)

Inductive Pass4 := new_pass4.

Definition pass4_enode (s : Strategy) (p : Pass4) (e : extract_data) (n : Node)
  : Result extract_data :=
  if IdSet.get (node_ids e) (node_positive_id n)
     || IdSet.get (extra_node_ids e) (node_positive_id n)
  then Ok (write (ONode n) e)
  else Ok e.

Definition pass4_eway (s : Strategy) (p : Pass4) (e : extract_data) (w : Way)
  : Result extract_data :=
  if IdSet.get (way_ids e) (way_positive_id w)
     || IdSet.get (extra_way_ids e) (way_positive_id w)
  then Ok (write (OWay w) e)
  else Ok e.

Definition pass4_erelation (s : Strategy) (p : Pass4) (e : extract_data)
  (r : Relation) : Result extract_data :=
  if IdSet.get (relation_ids e) (relation_positive_id r)
     || IdSet.get (extra_relation_ids e) (relation_positive_id r)
  then Ok (write (ORelation r) e)
  else Ok e.

#[global] Instance pass4 : Pass Pass4 :=
  {| node := nothing; enode := pass4_enode;
     way := nothing; eway := pass4_eway;
     relation := nothing; erelation := pass4_erelation |}.

(** ** [Strategy::run] *)

(** Modelled from the spec: the input source of section 6
    ([osmium::io::File] and [osmium::io::Reader], library code outside the
    source file).  A file has a name, empty for standard input, and a
    sequence of objects; a reader opened on it delivers the objects of the
    requested types in file order, every time it is opened. *)
Record File := { filename : string; contents : list OSMObject }.

Definition osm_entity_bits := item_type → bool.
Definition bits_all : osm_entity_bits := λ _, true.
Definition bits_way : osm_entity_bits := λ t, bool_decide (t = way_t).
Definition bits_relation : osm_entity_bits := λ t, bool_decide (t = relation_t).

Definition reader (input_file : File) (bits : osm_entity_bits) : list OSMObject :=
  filter (λ o, bits (object_type o) = true) (contents input_file).

(** A whole pass over the objects a reader delivers. *)
Definition run_pass `{Pass P} (s : Strategy) (p : P) (objects : list OSMObject)
  : option failure * Strategy :=
  let '(f, _, s') := run_impl s p objects in (f, s').

(** The loop over the regions that follows pass 1. *)
Definition add_relation_networks (indices : RelationsMapIndexes) (s : Strategy)
  : Result Strategy :=
  es ← for_each (λ e, of_option unfinished (add_relation_network indices e))
        (m_extracts s) ;
  Ok (with_extracts s es).

Definition any_extract (f : extract_data → bool) (s : Strategy) : bool :=
  existsb f (m_extracts s).

(** The part of [run] that follows pass 1. *)
Definition run_after_pass1 (s1 : Strategy) (p1 : Pass1) (input_file : File)
  : option failure * Strategy :=
  let relation_indices := build_indexes (m_relations_map_stash p1) in
  match add_relation_networks relation_indices s1 with
  | Err f => (Some f, s1)
  | Ok s2 =>
      let '(f2, s3) :=
        if any_extract (λ e, negb (IdSet.empty (extra_relation_ids e))) s2
        then run_pass s2 new_pass2 (reader input_file bits_relation)
        else (None, s2) in
      match f2 with
      | Some f => (Some f, s3)
      | None =>
          let '(f3, s4) :=
            if any_extract (λ e, negb (IdSet.empty (extra_way_ids e))) s3
            then run_pass s3 new_pass3 (reader input_file bits_way)
            else (None, s3) in
          match f3 with
          | Some f => (Some f, s4)
          | None => run_pass s4 new_pass4 (reader input_file bits_all)
          end
      end
  end.

Definition run (s : Strategy) (input_file : File) : option failure * Strategy :=
  if bool_decide (filename input_file = EmptyString) then (Some io_error, s)
  else
    let '(f1, p1, s1) := run_impl s new_pass1 (reader input_file bits_all) in
    match f1 with
    | Some f => (Some f, s1)
    | None => run_after_pass1 s1 p1 input_file
    end.

(** The history of a run: the strategy after every object of every pass
    that ran and after the loop that follows pass 1, oldest first. *)
Definition run_after_pass1_states (s1 : Strategy) (p1 : Pass1) (input_file : File)
  : list Strategy :=
  let relation_indices := build_indexes (m_relations_map_stash p1) in
  match add_relation_networks relation_indices s1 with
  | Err f => []
  | Ok s2 =>
      let h2 :=
        if any_extract (λ e, negb (IdSet.empty (extra_relation_ids e))) s2
        then run_impl_states s2 new_pass2 (reader input_file bits_relation)
        else [] in
      let s3 := default s2 (last h2) in
      let h3 :=
        if any_extract (λ e, negb (IdSet.empty (extra_way_ids e))) s3
        then run_impl_states s3 new_pass3 (reader input_file bits_way)
        else [] in
      let s4 := default s3 (last h3) in
      s2 :: h2 ++ h3 ++ run_impl_states s4 new_pass4 (reader input_file bits_all)
  end.

Definition run_states (s : Strategy) (input_file : File) : list Strategy :=
  if bool_decide (filename input_file = EmptyString) then []
  else
    let h1 := run_impl_states s new_pass1 (reader input_file bits_all) in
    let '(f1, p1, s1) := run_impl s new_pass1 (reader input_file bits_all) in
    match f1 with
    | Some f => h1
    | None => h1 ++ run_after_pass1_states s1 p1 input_file
    end.

(** ** Predicates used in the statements *)

(** No id is both primary and extra, for each of the three types. *)
Definition disjoint_sets (e : extract_data) : Prop :=
  node_ids e ## extra_node_ids e
  ∧ way_ids e ## extra_way_ids e
  ∧ relation_ids e ## extra_relation_ids e.

(** The three primary sets of a region. *)
Definition primary_sets (e : extract_data) : IdSet.t * IdSet.t * IdSet.t :=
  (node_ids e, way_ids e, relation_ids e).

(** The id of an object is in the primary or in the extra set of its type. *)
Definition selected (e : extract_data) (o : OSMObject) : Prop :=
  match o with
  | ONode n => node_positive_id n ∈ node_ids e ∪ extra_node_ids e
  | OWay w => way_positive_id w ∈ way_ids e ∪ extra_way_ids e
  | ORelation r => relation_positive_id r ∈ relation_ids e ∪ extra_relation_ids e
  end.

#[global] Instance selected_dec e o : Decision (selected e o).
Proof. destruct o; simpl; apply _. Defined.

(** The ids a relation refers to through members of type [t], and the ids
    a way refers to. *)
Definition member_refs (t : item_type) (r : Relation) : IdSet.t :=
  list_to_set
    (member_positive_ref <$> filter (λ m, member_type m = t) (relation_members r)).

Definition way_refs (w : Way) : IdSet.t :=
  list_to_set (nr_positive_ref <$> way_nodes w).

(** A region whose sets of extra points and extra ways have grown by the
    given ids. *)
Definition with_extras (e : extract_data) (nodes ways : IdSet.t) : extract_data :=
  {| m_extract := m_extract e;
     node_ids := node_ids e;
     extra_node_ids := extra_node_ids e ∪ nodes;
     way_ids := way_ids e;
     extra_way_ids := extra_way_ids e ∪ ways;
     relation_ids := relation_ids e;
     extra_relation_ids := extra_relation_ids e;
     written := written e |}.

(** A region in which only the set of extra relations has been replaced. *)
Definition with_extra_relations (e : extract_data) (ids : IdSet.t) : extract_data :=
  {| m_extract := m_extract e;
     node_ids := node_ids e;
     extra_node_ids := extra_node_ids e;
     way_ids := way_ids e;
     extra_way_ids := extra_way_ids e;
     relation_ids := relation_ids e;
     extra_relation_ids := ids;
     written := written e |}.

(** A region in which only the output has been replaced. *)
Definition with_written (e : extract_data) (out : list OSMObject) : extract_data :=
  {| m_extract := m_extract e;
     node_ids := node_ids e;
     extra_node_ids := extra_node_ids e;
     way_ids := way_ids e;
     extra_way_ids := extra_way_ids e;
     relation_ids := relation_ids e;
     extra_relation_ids := extra_relation_ids e;
     written := out |}.

(** A way taken into a region: its id is a primary way and the points it
    refers to that are not primary points are extra points. *)
Definition include_way (e : extract_data) (w : Way) : extract_data :=
  with_extras (set_way_ids (way_positive_id w) e) (way_refs w ∖ node_ids e) ∅.

(** A point reference that lies in the primary points. *)
Definition primary_ref (e : extract_data) (nr : NodeRef) : Prop :=
  nr_positive_ref nr ∈ node_ids e.

#[global] Instance primary_ref_dec e nr : Decision (primary_ref e nr).
Proof. unfold primary_ref. apply _. Defined.

(** A member that makes its relation primary: a point member in the
    primary points or a way member in the primary ways. *)
Definition primary_member (e : extract_data) (m : RelationMember) : Prop :=
  match member_type m with
  | node_t => member_positive_ref m ∈ node_ids e
  | way_t => member_positive_ref m ∈ way_ids e
  | relation_t => False
  end.

#[global] Instance primary_member_dec e m : Decision (primary_member e m).
Proof. unfold primary_member. destruct (member_type m); apply _. Defined.

(** A relation taken into a region as primary, with its members pulled in
    or not. *)
Definition include_relation (pull : bool) (e : extract_data) (r : Relation)
  : extract_data :=
  let e' := set_relation_ids (relation_positive_id r) e in
  if pull
  then with_extras e' (member_refs node_t r ∖ node_ids e)
                      (member_refs way_t r ∖ way_ids e)
  else e'.

(** What the specification asks of a region [e] once a way has been
    included, written out set by set: the id of the way is a primary way
    and every point the way refers to that is not a primary point is an
    extra point; everything else is as in [e]. *)
Definition way_included (e : extract_data) (w : Way) : extract_data :=
  {| m_extract := m_extract e;
     node_ids := node_ids e;
     extra_node_ids := extra_node_ids e ∪ (way_refs w ∖ node_ids e);
     way_ids := {[ way_positive_id w ]} ∪ way_ids e;
     extra_way_ids := extra_way_ids e;
     relation_ids := relation_ids e;
     extra_relation_ids := extra_relation_ids e;
     written := written e |}.

(** What the specification asks of a region [e] once a relation has been
    made primary, written out set by set: the id of the relation is a
    primary relation; where its members are pulled in, its point members
    that are not primary points are extra points and its way members that
    are not primary ways are extra ways; everything else is as in [e]. *)
Definition relation_included (pull : bool) (e : extract_data) (r : Relation)
  : extract_data :=
  {| m_extract := m_extract e;
     node_ids := node_ids e;
     extra_node_ids :=
       if pull then extra_node_ids e ∪ (member_refs node_t r ∖ node_ids e)
       else extra_node_ids e;
     way_ids := way_ids e;
     extra_way_ids :=
       if pull then extra_way_ids e ∪ (member_refs way_t r ∖ way_ids e)
       else extra_way_ids e;
     relation_ids := {[ relation_positive_id r ]} ∪ relation_ids e;
     extra_relation_ids := extra_relation_ids e;
     written := written e |}.

(** The ids [queue_relations] pushes for [id], and the edge relation of a
    pair of lookup tables. *)
Definition neighbours (indices : RelationsMapIndexes) (id : N) : list N :=
  for_each_parent (member_to_parent indices) id
  ++ for_each_parent (parent_to_member indices) id.

Definition adjacent (indices : RelationsMapIndexes) (a b : N) : Prop :=
  b ∈ neighbours indices a.

(** [r] can be reached from an id in [ps] along edges of the tables. *)
Definition reachable (indices : RelationsMapIndexes) (ps : IdSet.t) (r : N) : Prop :=
  ∃ p, p ∈ ps ∧ rtc (adjacent indices) p r.

(** What holds between the region [e0] the loop of the closure starts from
    and the region [e] it has reached with queue [q]: only the extra
    relations have changed, and they have grown; every new extra relation
    and every queued id is reachable from a primary relation; every
    neighbour of a primary or new extra relation is primary, extra or
    queued. *)
Definition network_inv (indices : RelationsMapIndexes) (e0 : extract_data)
  (q : list N) (e : extract_data) : Prop :=
  e = with_extra_relations e0 (extra_relation_ids e)
  ∧ extra_relation_ids e0 ⊆ extra_relation_ids e
  ∧ (∀ x, x ∈ extra_relation_ids e →
       x ∈ extra_relation_ids e0
       ∨ ((x ∉ relation_ids e0) ∧ reachable indices (relation_ids e0) x))
  ∧ (∀ x, x ∈ q → reachable indices (relation_ids e0) x)
  ∧ (∀ a b,
       a ∈ relation_ids e0
       ∨ (a ∈ extra_relation_ids e ∧ (a ∉ extra_relation_ids e0)) →
       adjacent indices a b →
       b ∈ relation_ids e0 ∨ b ∈ extra_relation_ids e ∨ b ∈ q).

(** [a] is a member of type relation of a relation [b] of [objects] that is
    part of a relevant relation system. *)
Definition system_edge (s : Strategy) (objects : list OSMObject) (a b : N) : Prop :=
  ∃ r m,
    ORelation r ∈ objects
    ∧ is_part_of_relevant_relation_system s r = true
    ∧ m ∈ relation_members r
    ∧ member_type m = relation_t
    ∧ a = member_positive_ref m
    ∧ b = relation_positive_id r.

(** One object offered to a region in pass 4. *)
Definition write_if_selected (o : OSMObject) (e : extract_data) : extract_data :=
  if decide (selected e o) then write o e else e.

(** A region after the selected objects of a sequence have been written to
    its output, in the order of the sequence. *)
Definition write_selected (objects : list OSMObject) (e : extract_data)
  : extract_data :=
  with_written e (written e ++ filter (selected e) objects).

(** What pass 1 keeps true of a region, given what the order check has
    seen: no id is both primary and extra; there are no extra relations;
    there are no extra points before the first way or relation and no
    extra ways before the first relation. *)
Definition pass1_inv (c : CheckOrder) (e : extract_data) : Prop :=
  disjoint_sets e
  ∧ extra_relation_ids e = ∅
  ∧ (m_max_way_id c = None → m_max_relation_id c = None → extra_node_ids e = ∅)
  ∧ (m_max_relation_id c = None → extra_way_ids e = ∅).

(** What every step after pass 1 does to a region: the primary sets stay
    as they are, and primary and extra sets stay disjoint if they were. *)
Definition later_step (e e' : extract_data) : Prop :=
  primary_sets e' = primary_sets e ∧ (disjoint_sets e → disjoint_sets e').

(** Every region of [s'] comes from the region of [s] at the same place by
    steps that leave the primary sets alone and keep primary and extra
    sets apart. *)
Definition later_state (s s' : Strategy) : Prop :=
  Forall2 later_step (m_extracts s) (m_extracts s').

(** ** Sample inputs *)

(** A region that contains the square from (0, 0) to (10, 10) and whose
    tag predicates never hold. *)
Definition sample_extract : Extract :=
  {| contains := λ l, bool_decide (0 ≤ loc_x l ≤ 10 ∧ 0 ≤ loc_y l ≤ 10);
     has_conflicting_tags := λ _, false;
     has_matching_tags := λ _, false |}.

(** A filter without rules and a strategy with the sample region only. *)
Definition no_rules : TagsFilter := {| m_rules := []; m_default_result := false |}.

Definition sample_strategy (by_first_node : bool) : Strategy :=
  new_strategy [sample_extract] no_rules no_rules by_first_node.

(** The objects of the sample file: point 1 inside the sample region,
    point 2 outside, way 7 from point 2 to point 1, relation 9 with way 7
    as its only member. *)
Definition sample_objects : list OSMObject :=
  [ ONode {| node_id := 1; node_location := {| loc_x := 1; loc_y := 1 |};
             node_tags := [] |};
    ONode {| node_id := 2; node_location := {| loc_x := 20; loc_y := 1 |};
             node_tags := [] |};
    OWay {| way_id := 7; way_nodes := [ {| nr_ref := 2 |}; {| nr_ref := 1 |} ];
            way_tags := [] |};
    ORelation {| relation_id := 9;
                 relation_members :=
                   [ {| member_type := way_t; member_ref := 7;
                        member_role := EmptyString |} ];
                 relation_tags := [] |} ].

(** The sample objects in a file with a name and on standard input. *)
Definition named_file : File :=
  {| filename := "planet.osm"; contents := sample_objects |}.

Definition stdin_file : File :=
  {| filename := EmptyString; contents := sample_objects |}.

(** Way 7 of the sample: its first point lies outside the sample region,
    its second point inside. *)
Definition sample_way : Way :=
  {| way_id := 7; way_nodes := [ {| nr_ref := 2 |}; {| nr_ref := 1 |} ];
     way_tags := [] |}.




(** The sample region once point 1 is primary. *)
Definition region_with_node_1 : extract_data :=
  set_node_ids 1%N (new_extract_data sample_extract).

(** A region whose only primary relation is relation 1. *)
Definition region_with_relation_1 : extract_data :=
  set_relation_ids 1%N (new_extract_data sample_extract).

(** Relation 1 has the member 2, relation 2 has the member 3. *)
Definition chain_stash : RelationsMapStash := [(2, 1); (3, 2)]%N.

(** Relation 1 has the members 2 and 3, relation 2 has the member 3. *)
Definition triangle_stash : RelationsMapStash := [(2, 1); (3, 1); (3, 2)]%N.

(** What a run leaves in each region: the six sets as sorted lists and the
    ids of the objects written. *)
Definition summary (s : Strategy) : list (list (list N)) :=
  (λ e, [ IdSet.ids (node_ids e); IdSet.ids (extra_node_ids e);
          IdSet.ids (way_ids e); IdSet.ids (extra_way_ids e);
          IdSet.ids (relation_ids e); IdSet.ids (extra_relation_ids e);
          object_positive_id <$> written e ]) <$> m_extracts s.

(** ** One region at a time *)

(** What a pass does to one region with one object: the handler of the
    object's type, the region staying as it is where the handler fails. *)
Definition region_step `{Pass P} (p : P) (s : Strategy) (o : OSMObject)
  (e : extract_data) : extract_data :=
  let r :=
    match o with
    | ONode n => enode s p e n
    | OWay w => eway s p e w
    | ORelation r => erelation s p e r
    end in
  match r with
  | Ok e' => e'
  | Err _ => e
  end.

(** What a pass does to one region with a sequence of objects. *)
Definition region_pass `{Pass P} (p : P) (s : Strategy) (objects : list OSMObject)
  (e : extract_data) : extract_data :=
  foldl (λ e o, region_step p s o e) e objects.

(** The relations among [objects] whose members pass 2 pulls into region
    [e], and the ways whose points pass 3 pulls in. *)
Definition pulled_relations (s : Strategy) (e : extract_data)
  (objects : list OSMObject) : list Relation :=
  omap (λ o, match o with
             | ORelation r =>
                 if IdSet.get (extra_relation_ids e) (relation_positive_id r)
                    && is_part_of_relevant_relation_system s r
                 then Some r else None
             | _ => None
             end) objects.

Definition pulled_ways (e : extract_data) (objects : list OSMObject) : list Way :=
  omap (λ o, match o with
             | OWay w =>
                 if IdSet.get (extra_way_ids e) (way_positive_id w)
                 then Some w else None
             | _ => None
             end) objects.

(** The stash pass 1 has built when it has read [objects]: the members of
    the relations that are part of a relevant relation system. *)
Definition pass1_stash (s : Strategy) (objects : list OSMObject) : RelationsMapStash :=
  foldl (λ st o,
           match o with
           | ORelation r =>
               if is_part_of_relevant_relation_system s r
               then stash_add_members st r else st
           | _ => st
           end) [] objects.

(** What [run] does to one region when nothing fails: pass 1, the closure
    on the graph of pass 1, pass 2 over the relations, pass 3 over the
    ways, pass 4. *)
Definition region_run (s : Strategy) (input_file : File) (e : extract_data)
  : extract_data :=
  let objects := reader input_file bits_all in
  let e1 := region_pass new_pass1 s objects e in
  let e2 :=
    default e1 (add_relation_network (build_indexes (pass1_stash s objects)) e1) in
  let e3 := region_pass new_pass2 s (reader input_file bits_relation) e2 in
  let e4 := region_pass new_pass3 s (reader input_file bits_way) e3 in
  region_pass new_pass4 s objects e4.

(** ** What a run selects *)

(** Points come first, then ways, then relations. *)
Definition type_ordered (objects : list OSMObject) : Prop :=
  ∃ ns ws rs,
    objects = (ONode <$> ns) ++ (OWay <$> ws) ++ (ORelation <$> rs).

(** A region whose primary sets have grown by the given ids. *)
Definition with_primaries (e : extract_data) (nodes ways relations : IdSet.t)
  : extract_data :=
  {| m_extract := m_extract e;
     node_ids := node_ids e ∪ nodes;
     extra_node_ids := extra_node_ids e;
     way_ids := way_ids e ∪ ways;
     extra_way_ids := extra_way_ids e;
     relation_ids := relation_ids e ∪ relations;
     extra_relation_ids := extra_relation_ids e;
     written := written e |}.

(** The point lies in the region. *)
Definition node_taken (e : extract_data) (n : Node) : Prop :=
  contains (m_extract e) (node_location n) = true.

#[global] Instance node_taken_dec e n : Decision (node_taken e n).
Proof. unfold node_taken. apply _. Defined.

(** The way is taken into the region by pass 1: with [by_first_node], its
    first point is a primary point and its tags are not conflicting, or
    its tags are matching; without, one of its points is a primary point. *)
Definition way_taken (s : Strategy) (e : extract_data) (w : Way) : Prop :=
  if m_by_first_node s then
    match head (way_nodes w) with
    | Some first_node =>
        (primary_ref e first_node
         ∧ has_conflicting_tags (m_extract e) (way_tags w) = false)
        ∨ has_matching_tags (m_extract e) (way_tags w) = true
    | None => False
    end
  else Exists (primary_ref e) (way_nodes w).

#[global] Instance way_taken_dec s e w : Decision (way_taken s e w).
Proof.
  unfold way_taken. destruct (m_by_first_node s); [|apply _].
  destruct (head (way_nodes w)); apply _.
Defined.

(** The relation is taken into the region by pass 1: one of its members is
    a primary point or a primary way. *)
Definition relation_taken (e : extract_data) (r : Relation) : Prop :=
  Exists (primary_member e) (relation_members r).

#[global] Instance relation_taken_dec e r : Decision (relation_taken e r).
Proof. unfold relation_taken. apply _. Defined.

(** The members of the relation are pulled in when pass 1 takes it. *)
Definition relation_pulled (s : Strategy) (e : extract_data) (r : Relation) : Prop :=
  relation_taken e r
  ∧ is_relevant_relation s r || is_part_of_relevant_relation_system s r = true.

#[global] Instance relation_pulled_dec s e r : Decision (relation_pulled s e r).
Proof. unfold relation_pulled. apply _. Defined.

(** Two relations are linked when one is a member of the other and the
    containing one is part of a relevant relation system. *)
Definition system_linked (s : Strategy) (objects : list OSMObject) (a b : N) : Prop :=
  system_edge s objects a b ∨ system_edge s objects b a.

(** The members of the relation are pulled into the region, by pass 1 or
    by pass 2. *)
Definition members_pulled (s : Strategy) (e : extract_data) (r : Relation) : Prop :=
  relation_pulled s e r
  ∨ (relation_positive_id r ∈ extra_relation_ids e
     ∧ is_part_of_relevant_relation_system s r = true).

(** ** A sample with a relation system *)

(** A system filter with the one rule [type:route]. *)
Definition route_rules : TagsFilter :=
  {| m_rules := [ (true, {| tm_key := "type"; tm_value := Some "route" |}) ];
     m_default_result := false |}.

Definition route_strategy : Strategy :=
  new_strategy [sample_extract] no_rules route_rules false.

(** Point 1 lies inside the sample region, points 2 and 3 outside; way 7
    runs from point 2 to point 1, way 8 has point 3 only; relation 9 has
    way 7 as its member, relation 10 has relation 9 and way 8; both
    relations carry the tag [type=route]. *)
Definition route_objects : list OSMObject :=
  [ ONode {| node_id := 1; node_location := {| loc_x := 1; loc_y := 1 |};
             node_tags := [] |};
    ONode {| node_id := 2; node_location := {| loc_x := 20; loc_y := 1 |};
             node_tags := [] |};
    ONode {| node_id := 3; node_location := {| loc_x := 30; loc_y := 1 |};
             node_tags := [] |};
    OWay {| way_id := 7; way_nodes := [ {| nr_ref := 2 |}; {| nr_ref := 1 |} ];
            way_tags := [] |};
    OWay {| way_id := 8; way_nodes := [ {| nr_ref := 3 |} ]; way_tags := [] |};
    ORelation {| relation_id := 9;
                 relation_members :=
                   [ {| member_type := way_t; member_ref := 7;
                        member_role := EmptyString |} ];
                 relation_tags :=
                   [ {| tag_key := "type"; tag_value := "route" |} ] |};
    ORelation {| relation_id := 10;
                 relation_members :=
                   [ {| member_type := relation_t; member_ref := 9;
                        member_role := EmptyString |};
                     {| member_type := way_t; member_ref := 8;
                        member_role := EmptyString |} ];
                 relation_tags :=
                   [ {| tag_key := "type"; tag_value := "route" |} ] |} ].

Definition route_file : File :=
  {| filename := "routes.osm"; contents := route_objects |}.

(** The sample objects in the opposite order: the relation first. *)
Definition unsorted_file : File :=
  {| filename := "planet.osm"; contents := rev sample_objects |}.

(** ** Input that pass 1 accepts *)

(** The check pass 1 runs on an object before the regions see it:
    [node], [way] and [relation] of pass 1 hand it to [m_check_order]. *)
Definition check_object (c : CheckOrder) (o : OSMObject) : Result CheckOrder :=
  match o with
  | ONode n => check_node c n
  | OWay w => check_way c w
  | ORelation r => check_relation c r
  end.

(** The ids do not go down, starting from the last id seen, if any. *)
Fixpoint ascending_from (max : option Z) (ids : list Z) : Prop :=
  match ids with
  | [] => True
  | id :: rest =>
      match max with Some m => m ≤ id | None => True end
      ∧ ascending_from (Some id) rest
  end.

(** The objects can follow what the order check has seen: points, then
    ways, then relations, the ids of each type not going down; no point
    after a way or a relation, no way after a relation. *)
Definition ordered_after (c : CheckOrder) (objects : list OSMObject) : Prop :=
  ∃ ns ws rs,
    objects = (ONode <$> ns) ++ (OWay <$> ws) ++ (ORelation <$> rs)
    ∧ ascending_from (m_max_node_id c) (node_id <$> ns)
    ∧ ascending_from (m_max_way_id c) (way_id <$> ws)
    ∧ ascending_from (m_max_relation_id c) (relation_id <$> rs)
    ∧ (ns ≠ [] → m_max_way_id c = None ∧ m_max_relation_id c = None)
    ∧ (ws ≠ [] → m_max_relation_id c = None).

(** Input in the order pass 1 asks for. *)
Definition sorted_input (objects : list OSMObject) : Prop :=
  ∃ ns ws rs,
    objects = (ONode <$> ns) ++ (OWay <$> ws) ++ (ORelation <$> rs)
    ∧ ascending_from None (node_id <$> ns)
    ∧ ascending_from None (way_id <$> ws)
    ∧ ascending_from None (relation_id <$> rs).

(** Every way of the input has a point. *)
Definition ways_have_nodes (objects : list OSMObject) : Prop :=
  ∀ w, OWay w ∈ objects → way_nodes w ≠ [].

(** ** The constructor and its options *)

(** The characters [':'] and [','], by their bits, lowest first. *)
Definition colon : Ascii.ascii :=
  Ascii.Ascii false true false true true true false false.

Definition comma : Ascii.ascii :=
  Ascii.Ascii false false true true false true false false.

(** [std::string::find] for a character: the place of its first
    occurrence, [None] for [npos]. *)
Fixpoint find (c : Ascii.ascii) (s : string) : option nat :=
  match s with
  | EmptyString => None
  | String a rest => if decide (a = c) then Some 0%nat else S <$> find c rest
  end.

(** [std::string::substr] for a start inside the string: [count]
    characters from [pos], or all that follow [pos] without a count. *)
Definition substr (s : string) (pos : nat) (count : option nat) : string :=
  match count with
  | Some n => String.substring pos n s
  | None => String.substring pos (String.length s - pos) s
  end.

(** Modelled from the spec: [set_default_result] and [add_rule] of the Tag
    Filter of section 4.2 ([osmium::TagsFilter], library code outside the
    source file); a rule is added after the rules there are. *)
Definition set_default_result (f : TagsFilter) (result : bool) : TagsFilter :=
  {| m_rules := m_rules f; m_default_result := result |}.

Definition add_rule (f : TagsFilter) (result : bool) (m : TagMatcher) : TagsFilter :=
  {| m_rules := m_rules f ++ [(result, m)];
     m_default_result := m_default_result f |}.

(** The body of the loop of [add_filter_rules]: the matcher of one rule of
    an option value, a key or a key and a value with a colon between. *)
Definition tag_rule (tag : string) : TagMatcher :=
  match find colon tag with
  | None => {| tm_key := tag; tm_value := None |}
  | Some pos =>
      {| tm_key := substr tag 0 (Some pos);
         tm_value := Some (substr tag (pos + 1) None) |}
  end.

(** [Strategy::add_filter_rules].  [split_string] stands for
    [osmium::split_string], library code outside the source file: the
    pieces of the option value between commas; nothing is assumed of it. *)
Definition add_filter_rules (split_string : string → Ascii.ascii → bool → list string)
  (filter : TagsFilter) (option_value : string) : TagsFilter :=
  let tags := split_string option_value comma true in
  foldl (λ f tag, add_rule f true (tag_rule tag))
    (set_default_result filter false) tags.

(** A rule as it is written in an option value. *)
Definition rule_text (m : TagMatcher) : string :=
  match tm_value m with
  | None => tm_key m
  | Some v => tm_key m +:+ ":" +:+ v
  end.

Definition with_relation_filter (s : Strategy) (f : TagsFilter) : Strategy :=
  {| m_extracts := m_extracts s;
     m_relation_filter := f;
     m_relation_system_filter := m_relation_system_filter s;
     m_by_first_node := m_by_first_node s |}.

Definition with_relation_system_filter (s : Strategy) (f : TagsFilter) : Strategy :=
  {| m_extracts := m_extracts s;
     m_relation_filter := m_relation_filter s;
     m_relation_system_filter := f;
     m_by_first_node := m_by_first_node s |}.

Definition with_by_first_node (s : Strategy) (b : bool) : Strategy :=
  {| m_extracts := m_extracts s;
     m_relation_filter := m_relation_filter s;
     m_relation_system_filter := m_relation_system_filter s;
     m_by_first_node := b |}.

(** The options of a strategy ([osmium::Options]): keys with their values,
    in the order the constructor meets them. *)
Abbreviation Options := (list (string * string)).

(** What the constructor has when an option has been read: the strategy
    and the keys it has warned about, oldest first.  The texts
    [m_relation_tags] and [m_relation_system_tags], kept for
    [show_arguments] only, are left out. *)
Definition read_option (split_string : string → Ascii.ascii → bool → list string)
  (acc : Strategy * list string) (option : string * string)
  : Strategy * list string :=
  let '(s, warned) := acc in
  if decide (option.1 = "relations") then
    (with_relation_filter s
       (add_filter_rules split_string (m_relation_filter s) option.2), warned)
  else if decide (option.1 = "relation-system") then
    (with_relation_system_filter s
       (add_filter_rules split_string (m_relation_system_filter s) option.2),
     warned)
  else if decide (option.1 = "by-first-node") then
    (with_by_first_node s
       (bool_decide (option.2 = EmptyString)
        || bool_decide (option.2 = "true")
        || bool_decide (option.2 = "yes")), warned)
  else (s, warned ++ [option.1]).

(** [Strategy::Strategy].  Modelled from the spec: a strategy starts with
    two filters without rules and without [by_first_node] (sections 4.2
    and 6; the members are declared outside the source file). *)
Definition new_strategy_of_options
  (split_string : string → Ascii.ascii → bool → list string)
  (extracts : list Extract) (options : Options) : Strategy * list string :=
  foldl (read_option split_string)
    (new_strategy extracts no_rules no_rules false, []) options.

(** The options the constructor knows. *)
Definition known_option (option : string * string) : Prop :=
  option.1 = "relations" ∨ option.1 = "relation-system"
  ∨ option.1 = "by-first-node".

#[global] Instance known_option_dec option : Decision (known_option option).
Proof. unfold known_option. apply _. Defined.

(** The rules of the values of the options with the given key. *)
Definition option_rules (split_string : string → Ascii.ascii → bool → list string)
  (key : string) (options : Options) : list string :=
  mjoin ((λ option, split_string option.2 comma true)
           <$> filter (λ option, option.1 = key) options).

(** ** The first variant of the file *)

(** The source file holds the strategy twice.  In the first variant
    [erelation] of pass 1 leaves the loop over the members only where the
    relation passes its check, with the [return] inside the [if]; the
    second variant leaves it at the first primary member.  [check] stands
    for [check_type(relation) || check_tags(relation)] of the first
    variant. *)
Fixpoint erelation_scan_first (check : Relation → bool) (e : extract_data)
  (r : Relation) (members : list RelationMember) : extract_data :=
  match members with
  | [] => e
  | member :: rest =>
      match member_type member with
      | node_t =>
          if IdSet.get (node_ids e) (member_positive_ref member)
          then
            let e' := set_relation_ids (relation_positive_id r) e in
            if check r then add_relation_members e' r
            else erelation_scan_first check e' r rest
          else erelation_scan_first check e r rest
      | way_t =>
          if IdSet.get (way_ids e) (member_positive_ref member)
          then
            let e' := set_relation_ids (relation_positive_id r) e in
            if check r then add_relation_members e' r
            else erelation_scan_first check e' r rest
          else erelation_scan_first check e r rest
      | relation_t => erelation_scan_first check e r rest
      end
  end.

(** ** What a run never takes back *)

(** The region [e'] holds what the region [e] holds and possibly more: the
    same boundary and tag predicates, every id of each of the six sets,
    and the output with further objects after it. *)
Definition grows (e e' : extract_data) : Prop :=
  m_extract e' = m_extract e
  ∧ node_ids e ⊆ node_ids e'
  ∧ extra_node_ids e ⊆ extra_node_ids e'
  ∧ way_ids e ⊆ way_ids e'
  ∧ extra_way_ids e ⊆ extra_way_ids e'
  ∧ relation_ids e ⊆ relation_ids e'
  ∧ extra_relation_ids e ⊆ extra_relation_ids e'
  ∧ written e `prefix_of` written e'.

(** Each element of the sequence that starts with [a] and goes on with
    [l] is related to the next. *)
Fixpoint chain {A} (R : A → A → Prop) (a : A) (l : list A) : Prop :=
  match l with
  | [] => True
  | b :: rest => R a b ∧ chain R b rest
  end.

(** * Properties *)

(** ** Id sets and region states *)

Lemma IdSet_get_true (s : IdSet.t) id : IdSet.get s id = true ↔ id ∈ s.
Proof. unfold IdSet.get. apply bool_decide_eq_true. Qed.

Lemma IdSet_get_false (s : IdSet.t) id : IdSet.get s id = false ↔ id ∉ s.
Proof. unfold IdSet.get. apply bool_decide_eq_false. Qed.

Lemma IdSet_elem_of_set (s : IdSet.t) i j : j ∈ IdSet.set i s ↔ j = i ∨ j ∈ s.
Proof. unfold IdSet.set. set_solver. Qed.

Lemma IdSet_elem_of_ids (s : IdSet.t) id : id ∈ IdSet.ids s ↔ id ∈ s.
Proof.
  unfold IdSet.ids. rewrite merge_sort_Permutation. apply elem_of_elements.
Qed.

Lemma IdSet_NoDup_ids (s : IdSet.t) : NoDup (IdSet.ids s).
Proof.
  unfold IdSet.ids. rewrite merge_sort_Permutation. apply NoDup_elements.
Qed.

Lemma extract_data_eq (a b : extract_data) :
  m_extract a = m_extract b →
  node_ids a = node_ids b →
  extra_node_ids a = extra_node_ids b →
  way_ids a = way_ids b →
  extra_way_ids a = extra_way_ids b →
  relation_ids a = relation_ids b →
  extra_relation_ids a = extra_relation_ids b →
  written a = written b →
  a = b.
Proof. destruct a, b; simpl; intros; subst; reflexivity. Qed.

(** ** Member pull-in *)

Lemma add_member_with_extras e m :
  add_member e m
  = with_extras e
      (match member_type m with
       | node_t => {[ member_positive_ref m ]} ∖ node_ids e
       | _ => ∅
       end)
      (match member_type m with
       | way_t => {[ member_positive_ref m ]} ∖ way_ids e
       | _ => ∅
       end).
Proof.
  unfold add_member.
  destruct (member_type m); simpl.
  - destruct (IdSet.get (node_ids e) (member_positive_ref m)) eqn:Hget; simpl.
    + apply IdSet_get_true in Hget.
      apply extract_data_eq; simpl; try done; set_solver.
    + apply IdSet_get_false in Hget.
      apply extract_data_eq; simpl; try done; unfold IdSet.set; set_solver.
  - destruct (IdSet.get (way_ids e) (member_positive_ref m)) eqn:Hget; simpl.
    + apply IdSet_get_true in Hget.
      apply extract_data_eq; simpl; try done; set_solver.
    + apply IdSet_get_false in Hget.
      apply extract_data_eq; simpl; try done; unfold IdSet.set; set_solver.
  - apply extract_data_eq; simpl; try done; set_solver.
Qed.

Lemma with_extras_twice e n1 w1 n2 w2 :
  with_extras (with_extras e n1 w1) n2 w2 = with_extras e (n1 ∪ n2) (w1 ∪ w2).
Proof. apply extract_data_eq; simpl; try done; set_solver. Qed.

Lemma foldl_add_member e ms :
  foldl add_member e ms
  = with_extras e
      (list_to_set (member_positive_ref <$> filter (λ m, member_type m = node_t) ms)
         ∖ node_ids e)
      (list_to_set (member_positive_ref <$> filter (λ m, member_type m = way_t) ms)
         ∖ way_ids e).
Proof.
  revert e. induction ms as [|m ms IH]; intros e.
  - apply extract_data_eq; simpl; try done; set_solver.
  - simpl foldl. rewrite IH, add_member_with_extras, with_extras_twice.
    rewrite !filter_cons. simpl.
    destruct (member_type m); simpl;
      apply extract_data_eq; simpl; try done; set_solver.
Qed.

(** What the pull-in does, in one step: the point members that are not
    primary points become extra points, the way members that are not
    primary ways become extra ways, nothing else changes. *)
Lemma add_relation_members_with_extras e r :
  add_relation_members e r
  = with_extras e (member_refs node_t r ∖ node_ids e)
                  (member_refs way_t r ∖ way_ids e).
Proof. unfold add_relation_members, member_refs. apply foldl_add_member. Qed.

(** C6: the member pull-in is idempotent: pulling in the members of the
    same relation a second time gives exactly the region state the first
    call gave. *)
Theorem add_relation_members_idempotent (e : extract_data) (r : Relation) :
  add_relation_members (add_relation_members e r) r = add_relation_members e r.
Proof.
  rewrite !add_relation_members_with_extras, with_extras_twice.
  apply extract_data_eq; simpl; try done; set_solver.
Qed.

(** ** Ways in pass 1 *)

Lemma add_way_node_with_extras e nr :
  add_way_node e nr = with_extras e ({[ nr_positive_ref nr ]} ∖ node_ids e) ∅.
Proof.
  unfold add_way_node.
  destruct (IdSet.get (node_ids e) (nr_positive_ref nr)) eqn:Hget; simpl.
  - apply IdSet_get_true in Hget.
    apply extract_data_eq; simpl; try done; set_solver.
  - apply IdSet_get_false in Hget.
    apply extract_data_eq; simpl; try done; unfold IdSet.set; set_solver.
Qed.

Lemma foldl_add_way_node e nodes :
  foldl add_way_node e nodes
  = with_extras e (list_to_set (nr_positive_ref <$> nodes) ∖ node_ids e) ∅.
Proof.
  revert e. induction nodes as [|nr nodes IH]; intros e.
  - apply extract_data_eq; simpl; try done; set_solver.
  - simpl foldl. rewrite IH, add_way_node_with_extras, with_extras_twice.
    apply extract_data_eq; simpl; try done; set_solver.
Qed.

Lemma add_way_nodes_with_extras e w :
  add_way_nodes e w = with_extras e (way_refs w ∖ node_ids e) ∅.
Proof. apply foldl_add_way_node. Qed.

Lemma add_way_nodes_include_way e w :
  add_way_nodes (set_way_ids (way_positive_id w) e) w = include_way e w.
Proof. rewrite add_way_nodes_with_extras. reflexivity. Qed.

Lemma eway_scan_primary e w nodes :
  Exists (primary_ref e) nodes → eway_scan e w nodes = include_way e w.
Proof.
  induction nodes as [|nr nodes IH]; intros Hex.
  - inversion Hex.
  - simpl. destruct (IdSet.get (node_ids e) (nr_positive_ref nr)) eqn:Hget.
    + apply add_way_nodes_include_way.
    + apply IdSet_get_false in Hget.
      apply IH. inversion Hex; subst; [contradiction | assumption].
Qed.

Lemma eway_scan_no_primary e w nodes :
  ¬ Exists (primary_ref e) nodes → eway_scan e w nodes = e.
Proof.
  induction nodes as [|nr nodes IH]; intros Hex; [reflexivity|].
  simpl. destruct (IdSet.get (node_ids e) (nr_positive_ref nr)) eqn:Hget.
  - apply IdSet_get_true in Hget. exfalso. apply Hex. by left.
  - apply IH. intros H. apply Hex. by right.
Qed.

Lemma include_way_included e w : include_way e w = way_included e w.
Proof.
  apply extract_data_eq; simpl; try done; unfold IdSet.set; set_solver.
Qed.

(** C3: without [by_first_node], pass 1 on a way, for one region.  When
    one of the points the way refers to is a primary point of the region,
    the id of the way is added to the primary ways and the points the way
    refers to that are not primary points are added to the extra points;
    when none is, the region stays as it is.  Nothing else changes.  The
    scan of the references ends at the first primary one: what follows it
    has no part in the outcome. *)
Theorem pass1_eway_any_node (s : Strategy) (p : Pass1) (e : extract_data) (w : Way) :
  m_by_first_node s = false →
  pass1_eway s p e w
  = Ok (if decide (Exists (primary_ref e) (way_nodes w))
        then way_included e w else e)
  ∧ ∀ before nr after,
      way_nodes w = before ++ nr :: after →
      primary_ref e nr →
      eway_scan e w (way_nodes w) = eway_scan e w (before ++ [nr]).
Proof.
  intros Hflag. split.
  - unfold pass1_eway. rewrite Hflag. f_equal.
    destruct (decide (Exists (primary_ref e) (way_nodes w))) as [Hex|Hex].
    + rewrite <- include_way_included. by apply eway_scan_primary.
    + by apply eway_scan_no_primary.
  - intros before nr after Hsplit Hnr.
    rewrite !eway_scan_primary; [done | |].
    + apply Exists_app. right. by left.
    + rewrite Hsplit. apply Exists_app. right. by left.
Qed.

(** Way 7 in the sample region: the second reference is primary, so the
    way is taken: 7 is a primary way and point 2 an extra point. *)
Lemma pass1_eway_any_node_witness :
  pass1_eway (sample_strategy false) new_pass1 region_with_node_1 sample_way
  = Ok (way_included region_with_node_1 sample_way)
  ∧ way_ids (way_included region_with_node_1 sample_way) = {[ 7%N ]}
  ∧ extra_node_ids (way_included region_with_node_1 sample_way) = {[ 2%N ]}.
Proof.
  destruct (pass1_eway_any_node (sample_strategy false) new_pass1
              region_with_node_1 sample_way eq_refl) as [Hrun _].
  rewrite Hrun. split; [reflexivity|]. split; vm_compute; reflexivity.
Defined.




(** ** Relations in pass 1 *)

Lemma accept_relation_include s e r :
  accept_relation s e r
  = include_relation
      (is_relevant_relation s r || is_part_of_relevant_relation_system s r) e r.
Proof.
  unfold accept_relation, include_relation.
  destruct (is_relevant_relation s r || is_part_of_relevant_relation_system s r);
    [|reflexivity].
  rewrite add_relation_members_with_extras. reflexivity.
Qed.

Lemma erelation_scan_primary s e r members :
  Exists (primary_member e) members →
  erelation_scan s e r members = accept_relation s e r.
Proof.
  induction members as [|m members IH]; intros Hex.
  - inversion Hex.
  - assert (¬ primary_member e m → erelation_scan s e r members = accept_relation s e r)
      as Hrest.
    { intros Hm. apply IH. inversion Hex; subst; [contradiction | assumption]. }
    simpl. unfold primary_member in Hrest.
    destruct (member_type m).
    + destruct (IdSet.get (node_ids e) (member_positive_ref m)) eqn:Hget; [done|].
      apply IdSet_get_false in Hget. by apply Hrest.
    + destruct (IdSet.get (way_ids e) (member_positive_ref m)) eqn:Hget; [done|].
      apply IdSet_get_false in Hget. by apply Hrest.
    + apply Hrest. tauto.
Qed.

Lemma erelation_scan_no_primary s e r members :
  ¬ Exists (primary_member e) members → erelation_scan s e r members = e.
Proof.
  induction members as [|m members IH]; intros Hex; [reflexivity|].
  assert (¬ primary_member e m) as Hm by (intros H; apply Hex; by left).
  assert (erelation_scan s e r members = e) as Hrest
    by (apply IH; intros H; apply Hex; by right).
  simpl. unfold primary_member in Hm.
  destruct (member_type m); [| |done].
  - destruct (IdSet.get (node_ids e) (member_positive_ref m)) eqn:Hget; [|done].
    apply IdSet_get_true in Hget. contradiction.
  - destruct (IdSet.get (way_ids e) (member_positive_ref m)) eqn:Hget; [|done].
    apply IdSet_get_true in Hget. contradiction.
Qed.

Lemma include_relation_included pull e r :
  include_relation pull e r = relation_included pull e r.
Proof.
  unfold include_relation.
  destruct pull; apply extract_data_eq; simpl; try done; unfold IdSet.set;
    set_solver.
Qed.

(** C2: pass 1 on a relation, for one region.  If some member is a point
    in the primary points or a way in the primary ways, the id of the
    relation is added to the primary relations, and exactly when the
    relation is relevant or part of a relevant system its point members
    that are not primary points are added to the extra points and its
    way members that are not primary ways to the extra ways; nothing else
    changes.  The scan of the members ends at the first such member, so
    what follows it has no part in the outcome.  Without such a member
    the region stays as it is. *)
Theorem pass1_erelation_first_primary_member (s : Strategy) (p : Pass1)
  (e : extract_data) (r : Relation) :
  pass1_erelation s p e r
  = Ok (if decide (Exists (primary_member e) (relation_members r))
        then relation_included
               (is_relevant_relation s r || is_part_of_relevant_relation_system s r)
               e r
        else e)
  ∧ ∀ before m after,
      relation_members r = before ++ m :: after →
      primary_member e m →
      erelation_scan s e r (relation_members r)
      = erelation_scan s e r (before ++ [m]).
Proof.
  split.
  - unfold pass1_erelation. f_equal.
    destruct (decide (Exists (primary_member e) (relation_members r))) as [Hex|Hex].
    + rewrite <- include_relation_included, <- accept_relation_include.
      by apply erelation_scan_primary.
    + by apply erelation_scan_no_primary.
  - intros before m after Hsplit Hm.
    rewrite !erelation_scan_primary; [done | |].
    + apply Exists_app. right. by left.
    + rewrite Hsplit. apply Exists_app. right. by left.
Qed.

(** ** The relation network: termination *)

Section network.
Variable indices : RelationsMapIndexes.

Lemma queue_relations_neighbours id q :
  queue_relations indices id q = q ++ neighbours indices id.
Proof. reflexivity. Qed.

Lemma length_for_each_parent (m : flat_map) id :
  length (for_each_parent m id) = length (filter (λ kv, kv.1 = id) m).
Proof. unfold for_each_parent. apply length_fmap. Qed.

Lemma length_filter_unmarked (m : flat_map) e id :
  id ∉ relation_ids e →
  id ∉ extra_relation_ids e →
  length (filter (unmarked e) m)
  = (length (filter (unmarked (set_extra_relation_ids id e)) m)
     + length (for_each_parent m id))%nat.
Proof.
  intros Hp He. rewrite length_for_each_parent.
  induction m as [|kv m IH]; [reflexivity|].
  rewrite !filter_cons.
  destruct (decide (kv.1 = id)) as [Hk|Hk].
  - rewrite decide_True; [|unfold unmarked; rewrite Hk; done].
    rewrite decide_False; [simpl; lia|].
    unfold unmarked. simpl. rewrite Hk, IdSet_elem_of_set. tauto.
  - destruct (decide (unmarked e kv)) as [Hu|Hu].
    + rewrite decide_True; [simpl; lia|].
      destruct Hu as [Hu1 Hu2]. split; [done|].
      simpl. rewrite IdSet_elem_of_set. tauto.
    + rewrite decide_False; [simpl; lia|].
      intros [Hu1 Hu2]. apply Hu. split; [done|].
      simpl in Hu2. rewrite IdSet_elem_of_set in Hu2. tauto.
Qed.

Lemma network_fuel_marked id q e :
  network_fuel indices (id :: q) e = S (network_fuel indices q e).
Proof. reflexivity. Qed.

Lemma network_fuel_unmarked id q e :
  id ∉ relation_ids e →
  id ∉ extra_relation_ids e →
  network_fuel indices (id :: q) e
  = S (network_fuel indices (queue_relations indices id q)
         (set_extra_relation_ids id e)).
Proof.
  intros Hp He. unfold network_fuel, queue_relations.
  rewrite (length_filter_unmarked (member_to_parent indices) e id Hp He).
  rewrite (length_filter_unmarked (parent_to_member indices) e id Hp He).
  rewrite !length_app. simpl. lia.
Qed.

Lemma network_test_true e id :
  negb (IdSet.get (relation_ids e) id) && negb (IdSet.get (extra_relation_ids e) id)
  = true
  ↔ (id ∉ relation_ids e) ∧ (id ∉ extra_relation_ids e).
Proof.
  rewrite andb_true_iff, !negb_true_iff, !IdSet_get_false. reflexivity.
Qed.

Lemma network_test_false e id :
  negb (IdSet.get (relation_ids e) id) && negb (IdSet.get (extra_relation_ids e) id)
  = false
  ↔ id ∈ relation_ids e ∨ id ∈ extra_relation_ids e.
Proof.
  rewrite andb_false_iff, !negb_false_iff, !IdSet_get_true. reflexivity.
Qed.

(** The loop ends within [network_fuel] iterations. *)
Lemma network_loop_enough fuel q e :
  (network_fuel indices q e ≤ fuel)%nat →
  is_Some (network_loop fuel indices q e).
Proof.
  revert q e. induction fuel as [|fuel IH]; intros q e Hfuel.
  - destruct q as [|id q]; [by eexists|].
    rewrite network_fuel_marked in Hfuel. lia.
  - destruct q as [|id q]; [by eexists|]. simpl.
    destruct (negb (IdSet.get (relation_ids e) id)
              && negb (IdSet.get (extra_relation_ids e) id)) eqn:Htest.
    + apply network_test_true in Htest as [Hp He].
      apply IH. rewrite (network_fuel_unmarked id q e Hp He) in Hfuel. lia.
    + apply IH. rewrite network_fuel_marked in Hfuel. lia.
Qed.

(** The rule of the loop: a property of queue and region that every
    iteration keeps holds when the loop ends. *)
Lemma network_loop_rule (I : list N → extract_data → Prop) :
  (∀ id q e, I (id :: q) e →
     id ∈ relation_ids e ∨ id ∈ extra_relation_ids e → I q e) →
  (∀ id q e, I (id :: q) e →
     id ∉ relation_ids e → id ∉ extra_relation_ids e →
     I (queue_relations indices id q) (set_extra_relation_ids id e)) →
  ∀ fuel q e e', I q e → network_loop fuel indices q e = Some e' → I [] e'.
Proof.
  intros Hskip Hmark fuel. induction fuel as [|fuel IH]; intros q e e' HI Hrun.
  - destruct q; simpl in Hrun; [by simplify_eq | done].
  - destruct q as [|id q]; simpl in Hrun; [by simplify_eq|].
    destruct (negb (IdSet.get (relation_ids e) id)
              && negb (IdSet.get (extra_relation_ids e) id)) eqn:Htest.
    + apply network_test_true in Htest as [Hp He].
      eapply IH; [|exact Hrun]. by apply Hmark.
    + apply network_test_false in Htest.
      eapply IH; [|exact Hrun]. by eapply Hskip.
Qed.

(** A queue of marked ids is emptied without any change. *)
Lemma network_loop_all_marked fuel q e :
  (length q ≤ fuel)%nat →
  (∀ x, x ∈ q → x ∈ relation_ids e ∨ x ∈ extra_relation_ids e) →
  network_loop fuel indices q e = Some e.
Proof.
  revert q. induction fuel as [|fuel IH]; intros q Hlen Hq.
  - destruct q; [done | simpl in Hlen; lia].
  - destruct q as [|id q]; [done|]. simpl.
    assert (id ∈ relation_ids e ∨ id ∈ extra_relation_ids e) as Hid
      by (apply Hq; left).
    apply network_test_false in Hid. rewrite Hid.
    apply IH; [simpl in Hlen; lia|].
    intros x Hx. apply Hq. by right.
Qed.

(** The seed of the queue. *)
Lemma foldl_queue_relations q ids :
  foldl (λ q id, queue_relations indices id q) q ids
  = q ++ mjoin (neighbours indices <$> ids).
Proof.
  revert q. induction ids as [|id ids IH]; intros q; simpl.
  - by rewrite app_nil_r.
  - rewrite IH, queue_relations_neighbours. by rewrite <- app_assoc.
Qed.

Lemma network_seed_concat e :
  network_seed indices e
  = mjoin (neighbours indices <$> IdSet.ids (relation_ids e)).
Proof. unfold network_seed. by rewrite foldl_queue_relations. Qed.

Lemma elem_of_network_seed e x :
  x ∈ network_seed indices e ↔ ∃ p, p ∈ relation_ids e ∧ adjacent indices p x.
Proof.
  rewrite network_seed_concat. unfold adjacent. split.
  - intros Hx. apply list_elem_of_join in Hx as (l & Hx & Hl).
    apply list_elem_of_fmap in Hl as (p & -> & Hp).
    exists p. split; [by apply IdSet_elem_of_ids | done].
  - intros (p & Hp & Hx). apply list_elem_of_join.
    exists (neighbours indices p). split; [done|].
    apply list_elem_of_fmap. exists p. split; [done|].
    by apply IdSet_elem_of_ids.
Qed.

End network.

(** ** The relation network: result *)

Section network_result.
Variable indices : RelationsMapIndexes.

Lemma set_extra_relation_ids_with e0 e id :
  e = with_extra_relations e0 (extra_relation_ids e) →
  set_extra_relation_ids id e
  = with_extra_relations e0 (extra_relation_ids (set_extra_relation_ids id e)).
Proof. intros ->. reflexivity. Qed.

Lemma network_inv_seed e0 : network_inv indices e0 (network_seed indices e0) e0.
Proof.
  repeat split.
  - by destruct e0.
  - done.
  - intros x Hx. by left.
  - intros x Hx. apply elem_of_network_seed in Hx as (p & Hp & Hx).
    exists p. split; [done|]. by apply rtc_once.
  - intros a b [Ha|[Ha Hna]] Hab; [|done].
    right. right. apply elem_of_network_seed. by exists a.
Qed.

Lemma network_inv_skip e0 id q e :
  network_inv indices e0 (id :: q) e →
  id ∈ relation_ids e ∨ id ∈ extra_relation_ids e →
  network_inv indices e0 q e.
Proof.
  intros (Hframe & Hsub & Hsound & Hq & Hclosed) Hid.
  assert (relation_ids e = relation_ids e0) as HP by (rewrite Hframe; done).
  rewrite HP in Hid.
  repeat split; [done | done | done | |].
  - intros x Hx. apply Hq. by right.
  - intros a b Ha Hab.
    destruct (Hclosed a b Ha Hab) as [Hb|[Hb|Hb]]; [by left | by right; left |].
    apply elem_of_cons in Hb as [->|Hb]; [tauto | by right; right].
Qed.

Lemma network_inv_mark e0 id q e :
  network_inv indices e0 (id :: q) e →
  id ∉ relation_ids e →
  id ∉ extra_relation_ids e →
  network_inv indices e0 (queue_relations indices id q) (set_extra_relation_ids id e).
Proof.
  intros (Hframe & Hsub & Hsound & Hq & Hclosed) Hp He.
  assert (relation_ids e = relation_ids e0) as HP by (rewrite Hframe; done).
  rewrite HP in Hp.
  assert (reachable indices (relation_ids e0) id) as Hid by (apply Hq; left).
  rewrite queue_relations_neighbours.
  repeat split.
  - by apply set_extra_relation_ids_with.
  - simpl. intros x Hx. apply IdSet_elem_of_set. right. by apply Hsub.
  - simpl. intros x Hx. apply IdSet_elem_of_set in Hx as [->|Hx].
    + by right.
    + by apply Hsound.
  - intros x Hx. apply elem_of_app in Hx as [Hx|Hx].
    + apply Hq. by right.
    + destruct Hid as (p & Hpp & Hpid).
      exists p. split; [done|]. by eapply rtc_r.
  - simpl. intros a b Ha Hab.
    assert (a = id ∨ a ≠ id) as [->|Hne] by (destruct (decide (a = id)); tauto).
    + right. right. apply elem_of_app. by right.
    + assert (a ∈ relation_ids e0
              ∨ (a ∈ extra_relation_ids e ∧ (a ∉ extra_relation_ids e0))) as Ha'.
      { destruct Ha as [Ha|[Ha Hna]]; [by left|].
        apply IdSet_elem_of_set in Ha as [->|Ha]; [done | by right]. }
      destruct (Hclosed a b Ha' Hab) as [Hb|[Hb|Hb]].
      * by left.
      * right. left. apply IdSet_elem_of_set. by right.
      * apply elem_of_cons in Hb as [->|Hb].
        -- right. left. apply IdSet_elem_of_set. by left.
        -- right. right. apply elem_of_app. by left.
Qed.

Lemma network_loop_inv e0 fuel e' :
  add_relation_network_in fuel indices e0 = Some e' → network_inv indices e0 [] e'.
Proof.
  unfold add_relation_network_in. intros Hrun.
  eapply (network_loop_rule indices (network_inv indices e0));
    [ | | apply network_inv_seed | exact Hrun].
  - apply network_inv_skip.
  - apply network_inv_mark.
Qed.

(** The closure ends, for every pair of tables and every region. *)
Lemma add_relation_network_is_Some e : is_Some (add_relation_network indices e).
Proof. unfold add_relation_network. by apply network_loop_enough. Qed.

(** Every id reachable from a primary relation is primary or extra when
    the closure ends, provided no id was extra at the start. *)
Lemma network_inv_reachable e0 e' r :
  extra_relation_ids e0 = ∅ →
  network_inv indices e0 [] e' →
  reachable indices (relation_ids e0) r →
  r ∈ relation_ids e0 ∨ r ∈ extra_relation_ids e'.
Proof.
  intros Hempty (Hframe & Hsub & Hsound & Hq & Hclosed) (p & Hp & Hpr).
  revert r Hpr.
  apply (rtc_ind_r (λ r, r ∈ relation_ids e0 ∨ r ∈ extra_relation_ids e'));
    [by left|].
  intros y z Hpy Hyz IH.
  assert (y ∈ relation_ids e0
          ∨ (y ∈ extra_relation_ids e' ∧ (y ∉ extra_relation_ids e0))) as Hy.
  { destruct IH as [Hy|Hy]; [by left|]. right. split; [done|].
    rewrite Hempty. set_solver. }
  destruct (Hclosed y z Hy Hyz) as [Hz|[Hz|Hz]]; [by left | by right |].
  by apply elem_of_nil in Hz.
Qed.

(** From a region without extra relations the closure gives the region in
    which the extra relations are the ids reachable from a primary
    relation that are not primary themselves; nothing else changes. *)
Lemma add_relation_network_reachable e :
  extra_relation_ids e = ∅ →
  ∃ e', add_relation_network indices e = Some e'
        ∧ e' = with_extra_relations e (extra_relation_ids e')
        ∧ ∀ r, r ∈ extra_relation_ids e'
               ↔ (r ∉ relation_ids e) ∧ reachable indices (relation_ids e) r.
Proof.
  intros Hempty.
  destruct (add_relation_network_is_Some e) as [e' Hrun].
  exists e'. split; [done|].
  pose proof (network_loop_inv _ _ _ Hrun) as Hinv.
  split; [apply Hinv|].
  intros r. split.
  - intros Hr. destruct Hinv as (_ & _ & Hsound & _).
    destruct (Hsound r Hr) as [Hr0|Hr0]; [|done].
    rewrite Hempty in Hr0. set_solver.
  - intros [Hnp Hreach].
    destruct (network_inv_reachable e e' r Hempty Hinv Hreach); done.
Qed.

(** Running the closure again changes nothing. *)
Lemma add_relation_network_again e e' :
  add_relation_network indices e = Some e' →
  add_relation_network indices e' = Some e'.
Proof.
  intros Hrun.
  destruct (network_loop_inv _ _ _ Hrun) as (Hframe & _ & _ & _ & Hclosed).
  unfold add_relation_network, add_relation_network_in.
  apply network_loop_all_marked.
  - unfold network_fuel. lia.
  - intros x Hx. apply elem_of_network_seed in Hx as (p & Hp & Hpx).
    assert (relation_ids e' = relation_ids e) as HP by (rewrite Hframe; done).
    rewrite HP in *.
    destruct (Hclosed p x (or_introl Hp) Hpx) as [Hx|[Hx|Hx]];
      [by left | by right |].
    by apply elem_of_nil in Hx.
Qed.

End network_result.

(** ** The relation network built by pass 1 *)

Lemma elem_of_for_each_parent (m : flat_map) id v :
  v ∈ for_each_parent m id ↔ (id, v) ∈ m.
Proof.
  unfold for_each_parent. rewrite list_elem_of_fmap. split.
  - intros ([k v'] & -> & Hkv). apply list_elem_of_filter in Hkv as [Hk Hkv].
    simpl in *. by subst.
  - intros Hkv. exists (id, v). split; [done|].
    apply list_elem_of_filter. by split.
Qed.

Lemma elem_of_sort_unique (m : flat_map) kv : kv ∈ sort_unique m ↔ kv ∈ m.
Proof.
  unfold sort_unique. rewrite merge_sort_Permutation. apply elem_of_remove_dups.
Qed.

Lemma elem_of_flip (m : flat_map) a b : (a, b) ∈ flip m ↔ (b, a) ∈ m.
Proof.
  unfold flip. rewrite list_elem_of_In, in_map_iff. split.
  - intros ([k v] & Heq & Hin). simpl in Heq. simplify_eq.
    by apply list_elem_of_In.
  - intros Hin. exists (b, a). split; [done|]. by apply list_elem_of_In.
Qed.

(** The frozen tables link two relations exactly when one was recorded as
    a member of the other. *)
Lemma adjacent_build_indexes stash a b :
  adjacent (build_indexes stash) a b ↔ linked stash a b.
Proof.
  unfold adjacent, neighbours, linked. simpl.
  rewrite elem_of_app, !elem_of_for_each_parent, !elem_of_sort_unique, elem_of_flip.
  reflexivity.
Qed.

Lemma reachable_same_edges i1 i2 ps r :
  (∀ a b, adjacent i1 a b ↔ adjacent i2 a b) →
  reachable i1 ps r ↔ reachable i2 ps r.
Proof.
  intros Hedges. split; intros (p & Hp & Hpr); exists p; (split; [done|]);
    eapply rtc_subrel; try exact Hpr; intros x y Hxy; by apply Hedges.
Qed.

Lemma reachable_connected stash ps r :
  reachable (build_indexes stash) ps r ↔ ∃ p, p ∈ ps ∧ connected stash p r.
Proof.
  unfold reachable, connected.
  split; intros (p & Hp & Hpr); exists p; (split; [done|]);
    eapply rtc_subrel; try exact Hpr; intros x y Hxy;
    by apply adjacent_build_indexes.
Qed.

(** C1: the closure of a region, run on the frozen relation graph of pass
    1 in a region that has no extra relations yet (as every region is when
    pass 1 ends).  It ends; it changes nothing but the extra relations; the
    primary and extra relations together are then exactly the relations
    connected to a primary relation by a chain of system edges, taken in
    either direction; tables that present the same edges in any other
    order give the same region; and a second run changes nothing. *)
Theorem network_component (stash : RelationsMapStash) (e : extract_data) :
  extra_relation_ids e = ∅ →
  ∃ e',
    add_relation_network (build_indexes stash) e = Some e'
    ∧ e' = with_extra_relations e (extra_relation_ids e')
    ∧ (∀ r, r ∈ relation_ids e' ∪ extra_relation_ids e'
            ↔ ∃ p, p ∈ relation_ids e ∧ connected stash p r)
    ∧ (∀ indices',
         (∀ a b, adjacent indices' a b ↔ linked stash a b) →
         add_relation_network indices' e = Some e')
    ∧ add_relation_network (build_indexes stash) e' = Some e'.
Proof.
  intros Hempty.
  destruct (add_relation_network_reachable (build_indexes stash) e Hempty)
    as (e' & Hrun & Hframe & Hextra).
  exists e'. split; [done|]. split; [done|].
  assert (relation_ids e' = relation_ids e) as HP by (rewrite Hframe; done).
  split; [|split].
  - intros r. rewrite HP, elem_of_union, Hextra, reachable_connected. split.
    + intros [Hr|[_ Hr]]; [|done]. exists r. split; [done | apply rtc_refl].
    + intros Hr. destruct (decide (r ∈ relation_ids e)); [by left | by right].
  - intros indices' Hedges.
    destruct (add_relation_network_reachable indices' e Hempty)
      as (e'' & Hrun' & Hframe' & Hextra').
    rewrite Hrun'. f_equal. rewrite Hframe, Hframe'. f_equal.
    apply set_eq. intros r. rewrite Hextra, Hextra'.
    rewrite (reachable_same_edges indices' (build_indexes stash)); [done|].
    intros a b. rewrite Hedges. symmetry. apply adjacent_build_indexes.
  - eapply add_relation_network_again. exact Hrun.
Qed.

(** The closure on the chain 1 - 2 - 3 with relation 1 primary: relations
    2 and 3 become extra. *)
Lemma network_component_witness :
  ∃ e',
    add_relation_network (build_indexes chain_stash) region_with_relation_1 = Some e'
    ∧ 2%N ∈ extra_relation_ids e' ∧ 3%N ∈ extra_relation_ids e'.
Proof.
  destruct (network_component chain_stash region_with_relation_1 eq_refl)
    as (e' & Hrun & Hframe & Hcomp & _).
  exists e'. split; [exact Hrun|].
  assert (∀ r, r ≠ 1%N → connected chain_stash 1%N r → r ∈ extra_relation_ids e')
    as Hin.
  { intros r Hne Hr.
    assert (r ∈ relation_ids e' ∪ extra_relation_ids e') as Hr'.
    { apply Hcomp. exists 1%N. split; [|exact Hr]. vm_compute. set_solver. }
    apply elem_of_union in Hr' as [Hr'|Hr']; [|exact Hr'].
    rewrite Hframe in Hr'. simpl in Hr'.
    apply IdSet_elem_of_set in Hr' as [->|Hr']; [done | set_solver]. }
  assert (linked chain_stash 1%N 2%N) as H12 by (right; left).
  assert (linked chain_stash 2%N 3%N) as H23 by (right; right; left).
  split; apply Hin; try done.
  - by apply rtc_once.
  - eapply rtc_l; [exact H12 | by apply rtc_once].
Defined.

Example network_chain :
  (elements ∘ extra_relation_ids)
    <$> add_relation_network (build_indexes chain_stash) region_with_relation_1
  = Some [2; 3]%N.
Proof. vm_compute. reflexivity. Qed.

(** ** The relation network: what is queued and what is marked *)

Section network_log.
Variable indices : RelationsMapIndexes.

(** The log does not change what the loop computes. *)
Lemma network_loop_log_erase fuel q e log :
  fst <$> network_loop_log fuel indices q e log = network_loop fuel indices q e.
Proof.
  revert q e log. induction fuel as [|fuel IH]; intros q e log.
  - by destruct q.
  - destruct q as [|id q]; [done|]. simpl.
    destruct (negb (IdSet.get (relation_ids e) id)
              && negb (IdSet.get (extra_relation_ids e) id)); apply IH.
Qed.

(** What a run of the loop adds to the log: the ids it marks are distinct
    and were neither primary nor extra, they are the ids that become extra,
    and the pushes are the neighbours of the marked ids, in order. *)
Lemma network_loop_log_new fuel q e log e' log' :
  network_loop_log fuel indices q e log = Some (e', log') →
  ∃ new,
    marked log' = marked log ++ new
    ∧ pushed log' = pushed log ++ mjoin (neighbours indices <$> new)
    ∧ NoDup new
    ∧ (∀ x, x ∈ new → (x ∉ relation_ids e) ∧ (x ∉ extra_relation_ids e))
    ∧ relation_ids e' = relation_ids e
    ∧ extra_relation_ids e' = extra_relation_ids e ∪ list_to_set new.
Proof.
  revert q e log. induction fuel as [|fuel IH]; intros q e log Hrun.
  - destruct q; simpl in Hrun; [|done]. simplify_eq.
    exists []. simpl. rewrite !app_nil_r.
    repeat split; [constructor | set_solver | set_solver | set_solver].
  - destruct q as [|id q]; simpl in Hrun.
    { simplify_eq. exists []. simpl. rewrite !app_nil_r.
      repeat split; [constructor | set_solver | set_solver | set_solver]. }
    destruct (negb (IdSet.get (relation_ids e) id)
              && negb (IdSet.get (extra_relation_ids e) id)) eqn:Htest.
    + apply network_test_true in Htest as [Hp He].
      apply IH in Hrun as (new & Hmarked & Hpushed & Hnodup & Hnew & HP & HE).
      simpl in *.
      exists (id :: new).
      split; [|split; [|split; [|split; [|split]]]].
      * by rewrite Hmarked, <- app_assoc.
      * rewrite Hpushed, queue_relations_neighbours. simpl.
        by rewrite <- !app_assoc.
      * constructor; [|done]. intros Hin.
        destruct (Hnew id Hin) as [_ Hid]. apply Hid.
        apply IdSet_elem_of_set. by left.
      * intros x Hx. apply elem_of_cons in Hx as [->|Hx]; [done|].
        destruct (Hnew x Hx) as [Hx1 Hx2]. split; [done|].
        intros Hin. apply Hx2. apply IdSet_elem_of_set. by right.
      * done.
      * rewrite HE. unfold IdSet.set. set_solver.
    + by apply IH in Hrun.
Qed.

(** Distinct keys share no table entry. *)
Lemma length_for_each_parent_split (m : flat_map) id :
  (length (for_each_parent m id) + length (filter (λ kv, kv.1 ≠ id) m))%nat
  = length m.
Proof.
  rewrite length_for_each_parent.
  induction m as [|kv m IH]; [reflexivity|].
  rewrite !filter_cons.
  destruct (decide (kv.1 = id)); destruct (decide (kv.1 ≠ id));
    simpl; try lia; contradiction.
Qed.

Lemma for_each_parent_other (m : flat_map) id x :
  x ≠ id →
  for_each_parent (filter (λ kv, kv.1 ≠ id) m) x = for_each_parent m x.
Proof.
  intros Hne. unfold for_each_parent. f_equal.
  induction m as [|kv m IH]; [reflexivity|].
  rewrite !filter_cons.
  destruct (decide (kv.1 ≠ id)) as [Hk|Hk].
  - rewrite filter_cons. destruct (decide (kv.1 = x)); by rewrite IH.
  - rewrite IH. destruct (decide (kv.1 = x)) as [Hx|Hx]; [|done].
    exfalso. apply Hk. congruence.
Qed.

Lemma length_for_each_parent_NoDup (m : flat_map) ids :
  NoDup ids →
  (length (mjoin (for_each_parent m <$> ids)) ≤ length m)%nat.
Proof.
  intros Hnodup. revert m.
  induction Hnodup as [|id ids Hid Hnodup IH]; intros m; simpl; [lia|].
  rewrite length_app, <- (length_for_each_parent_split m id).
  apply Nat.add_le_mono_l.
  etransitivity; [|apply (IH (filter (λ kv, kv.1 ≠ id) m))].
  apply Nat.eq_le_incl. f_equal. f_equal.
  apply Forall_fmap_ext, Forall_forall. intros x Hx. symmetry.
  apply for_each_parent_other. intros ->. by apply Hid.
Qed.

Lemma length_neighbours ids :
  length (mjoin (neighbours indices <$> ids))
  = (length (mjoin (for_each_parent (member_to_parent indices) <$> ids))
     + length (mjoin (for_each_parent (parent_to_member indices) <$> ids)))%nat.
Proof.
  induction ids as [|id ids IH]; [reflexivity|].
  rewrite !fmap_cons. simpl mjoin. rewrite !length_app, IH.
  unfold neighbours. rewrite length_app. lia.
Qed.

Lemma length_neighbours_NoDup ids :
  NoDup ids →
  (length (mjoin (neighbours indices <$> ids))
   ≤ length (member_to_parent indices) + length (parent_to_member indices))%nat.
Proof.
  intros Hnodup. rewrite length_neighbours.
  apply Nat.add_le_mono; by apply length_for_each_parent_NoDup.
Qed.

End network_log.

(** C5, as the program has it: the traversal of the closure ends, for every
    pair of tables and every region.  In one run every relation is marked
    (put into the extra relations, its neighbours pushed on the queue) at
    most once, and only if it was neither primary nor extra: the test made
    when an id leaves the queue prevents a second marking.  What is pushed
    are the neighbours of the primary and of the marked relations, once for
    each; so the number of pushes is at most the number of entries of the
    two tables. *)
Theorem network_terminates_marks_once (indices : RelationsMapIndexes)
  (e : extract_data) :
  ∃ e' log,
    add_relation_network_log indices e = Some (e', log)
    ∧ add_relation_network indices e = Some e'
    ∧ NoDup (marked log)
    ∧ (∀ x, x ∈ marked log → (x ∉ relation_ids e) ∧ (x ∉ extra_relation_ids e))
    ∧ extra_relation_ids e' = extra_relation_ids e ∪ list_to_set (marked log)
    ∧ pushed log
      = mjoin (neighbours indices <$> (IdSet.ids (relation_ids e) ++ marked log))
    ∧ (length (pushed log)
       ≤ length (member_to_parent indices) + length (parent_to_member indices))%nat.
Proof.
  destruct (add_relation_network_is_Some indices e) as [e' Hrun].
  pose proof Hrun as Hlog.
  unfold add_relation_network, add_relation_network_in in Hlog.
  rewrite <- (network_loop_log_erase _ _ _ _
                {| pushed := network_seed indices e; marked := [] |}) in Hlog.
  destruct (network_loop_log _ _ _ _ _) as [[e'' log]|] eqn:Hlog'; [|done].
  simpl in Hlog. simplify_eq.
  exists e', log. split; [exact Hlog'|]. split; [exact Hrun|].
  apply network_loop_log_new in Hlog'
    as (new & Hmarked & Hpushed & Hnodup & Hnew & HP & HE).
  simpl in Hmarked, Hpushed. subst new.
  assert (pushed log
          = mjoin (neighbours indices
                     <$> (IdSet.ids (relation_ids e) ++ marked log))) as Hall.
  { rewrite Hpushed, network_seed_concat, fmap_app.
    by rewrite join_app. }
  repeat split; try done.
  - by apply Hnew.
  - by apply Hnew.
  - rewrite Hall. apply length_neighbours_NoDup.
    apply NoDup_app. split; [apply IdSet_NoDup_ids|]. split; [|done].
    intros x Hx Hx'. apply IdSet_elem_of_ids in Hx.
    by destruct (Hnew x Hx').
Qed.

(** C5 as stated does not hold: in the triangle of relations 1, 2 and 3
    with relation 1 primary, each of the three ids is pushed on the queue
    twice; relation 2 is pushed a second time when it is already extra. *)
Lemma network_enqueues_twice :
  snd <$> add_relation_network_log (build_indexes triangle_stash)
            region_with_relation_1
  = Some {| pushed := [2; 3; 1; 3; 1; 2]%N; marked := [2; 3]%N |}
  ∧ ¬ NoDup [2; 3; 1; 3; 1; 2]%N.
Proof.
  split; [vm_compute; reflexivity|].
  intros Hnodup. apply NoDup_cons in Hnodup as [Hnotin _].
  apply Hnotin. repeat constructor.
Qed.

(** ** Passes in general *)

Lemma for_each_total {A} (f : A → Result A) (g : A → A) l :
  (∀ a, f a = Ok (g a)) → for_each f l = Ok (g <$> l).
Proof.
  intros Hf. induction l as [|a l IH]; [reflexivity|].
  simpl. rewrite Hf, IH. reflexivity.
Qed.

Lemma for_each_Forall2 {A} (f : A → Result A) l l' :
  for_each f l = Ok l' → Forall2 (λ a a', f a = Ok a') l l'.
Proof.
  revert l'. induction l as [|a l IH]; intros l' Hrun; simpl in Hrun.
  - simplify_eq. constructor.
  - destruct (f a) as [a'|] eqn:Ha; [|done]. simpl in Hrun.
    destruct (for_each f l) as [l''|] eqn:Hl; [|done]. simpl in Hrun.
    simplify_eq. constructor; [done | by apply IH].
Qed.

Section pass.
Context `{Pass P}.

Lemma dispatch_node s p n p' s' :
  dispatch s p (ONode n) = Ok (p', s') →
  node s p n = Ok p'
  ∧ Forall2 (λ e e', enode s p' e n = Ok e') (m_extracts s) (m_extracts s')
  ∧ s' = with_extracts s (m_extracts s').
Proof.
  simpl. intros Hrun.
  destruct (node s p n) as [p1|] eqn:Hp; [|done]. simpl in Hrun.
  destruct (for_each _ _) as [es|] eqn:Hes; [|done]. simpl in Hrun.
  simplify_eq. split; [done|]. split; [|done]. by apply for_each_Forall2.
Qed.

Lemma dispatch_way s p w p' s' :
  dispatch s p (OWay w) = Ok (p', s') →
  way s p w = Ok p'
  ∧ Forall2 (λ e e', eway s p' e w = Ok e') (m_extracts s) (m_extracts s')
  ∧ s' = with_extracts s (m_extracts s').
Proof.
  simpl. intros Hrun.
  destruct (way s p w) as [p1|] eqn:Hp; [|done]. simpl in Hrun.
  destruct (for_each _ _) as [es|] eqn:Hes; [|done]. simpl in Hrun.
  simplify_eq. split; [done|]. split; [|done]. by apply for_each_Forall2.
Qed.

Lemma dispatch_relation s p r p' s' :
  dispatch s p (ORelation r) = Ok (p', s') →
  relation s p r = Ok p'
  ∧ Forall2 (λ e e', erelation s p' e r = Ok e') (m_extracts s) (m_extracts s')
  ∧ s' = with_extracts s (m_extracts s').
Proof.
  simpl. intros Hrun.
  destruct (relation s p r) as [p1|] eqn:Hp; [|done]. simpl in Hrun.
  destruct (for_each _ _) as [es|] eqn:Hes; [|done]. simpl in Hrun.
  simplify_eq. split; [done|]. split; [|done]. by apply for_each_Forall2.
Qed.

(** A property of pass and strategy that every dispatched object keeps
    holds after every object of the pass and when the pass stops. *)
Lemma run_impl_keeps (K : P → Strategy → Prop) :
  (∀ s p o p' s', K p s → dispatch s p o = Ok (p', s') → K p' s') →
  ∀ objects s p,
    K p s →
    Forall (λ s', ∃ p', K p' s') (run_impl_states s p objects)
    ∧ K (run_impl s p objects).1.2 (run_impl s p objects).2.
Proof.
  intros Hstep objects. induction objects as [|o objects IH]; intros s p HK; simpl.
  - split; [constructor | done].
  - destruct (dispatch s p o) as [[p' s']|] eqn:Hd; simpl.
    + pose proof (Hstep _ _ _ _ _ HK Hd) as HK'.
      destruct (IH s' p' HK') as [Hall Hend].
      split; [|done]. constructor; [by exists p' | done].
    + split; [constructor | done].
Qed.

(** The history of a pass ends with the strategy the pass ends with. *)
Lemma run_impl_last objects s p :
  (run_impl s p objects).2 = default s (last (run_impl_states s p objects)).
Proof.
  revert s p. induction objects as [|o objects IH]; intros s p; simpl; [done|].
  destruct (dispatch s p o) as [[p' s']|] eqn:Hd; simpl; [|done].
  rewrite IH. rewrite last_cons. by destruct (last _).
Qed.

(** A pass none of whose objects fails does not fail. *)
Lemma run_impl_no_failure objects s p :
  (∀ s p o, ∃ ps, dispatch s p o = Ok ps) →
  (run_impl s p objects).1.1 = None.
Proof.
  intros Hok. revert s p.
  induction objects as [|o objects IH]; intros s p; simpl; [done|].
  destruct (Hok s p o) as [[p' s'] ->]. apply IH.
Qed.

End pass.

Lemma run_pass_eq `{Pass P} s (p : P) objects :
  run_pass s p objects
  = ((run_impl s p objects).1.1, (run_impl s p objects).2).
Proof. unfold run_pass. by destruct (run_impl s p objects) as [[f p'] s']. Qed.

Lemma reader_all input_file : reader input_file bits_all = contents input_file.
Proof.
  unfold reader. induction (contents input_file) as [|o l IH]; [done|].
  rewrite filter_cons_True by done. by rewrite IH.
Qed.

(** ** Pass 4 *)

Lemma with_extracts_same s : with_extracts s (m_extracts s) = s.
Proof. by destruct s. Qed.

Lemma with_extracts_twice s es es' :
  with_extracts (with_extracts s es) es' = with_extracts s es'.
Proof. reflexivity. Qed.

Lemma orb_get_union (a b : IdSet.t) id :
  IdSet.get a id || IdSet.get b id = bool_decide (id ∈ a ∪ b).
Proof.
  unfold IdSet.get.
  destruct (bool_decide_reflect (id ∈ a)), (bool_decide_reflect (id ∈ b)),
    (bool_decide_reflect (id ∈ a ∪ b)); simpl; try done; set_solver.
Qed.

Lemma pass4_enode_write s p e n :
  pass4_enode s p e n = Ok (write_if_selected (ONode n) e).
Proof.
  unfold pass4_enode, write_if_selected. rewrite orb_get_union. simpl.
  by destruct (decide _) as [Hs|Hs];
    [rewrite bool_decide_eq_true_2 | rewrite bool_decide_eq_false_2].
Qed.

Lemma pass4_eway_write s p e w :
  pass4_eway s p e w = Ok (write_if_selected (OWay w) e).
Proof.
  unfold pass4_eway, write_if_selected. rewrite orb_get_union. simpl.
  by destruct (decide _) as [Hs|Hs];
    [rewrite bool_decide_eq_true_2 | rewrite bool_decide_eq_false_2].
Qed.

Lemma pass4_erelation_write s p e r :
  pass4_erelation s p e r = Ok (write_if_selected (ORelation r) e).
Proof.
  unfold pass4_erelation, write_if_selected. rewrite orb_get_union. simpl.
  by destruct (decide _) as [Hs|Hs];
    [rewrite bool_decide_eq_true_2 | rewrite bool_decide_eq_false_2].
Qed.

Lemma dispatch_pass4 s (p : Pass4) o :
  dispatch s p o
  = Ok (new_pass4, with_extracts s (write_if_selected o <$> m_extracts s)).
Proof.
  destruct p. destruct o as [n|w|r]; simpl.
  - rewrite (for_each_total _ (write_if_selected (ONode n)));
      [done | intros e; apply pass4_enode_write].
  - rewrite (for_each_total _ (write_if_selected (OWay w)));
      [done | intros e; apply pass4_eway_write].
  - rewrite (for_each_total _ (write_if_selected (ORelation r)));
      [done | intros e; apply pass4_erelation_write].
Qed.

Lemma selected_write_if_selected o e o' :
  selected (write_if_selected o e) o' ↔ selected e o'.
Proof. unfold write_if_selected. by destruct (decide _), o'. Qed.

Lemma write_selected_nil e : write_selected [] e = e.
Proof.
  unfold write_selected. rewrite filter_nil, app_nil_r. by destruct e.
Qed.

Lemma write_selected_cons o objects e :
  write_selected objects (write_if_selected o e) = write_selected (o :: objects) e.
Proof.
  unfold write_selected.
  rewrite (list_filter_iff _ (selected e))
    by (intros o'; apply selected_write_if_selected).
  rewrite filter_cons. unfold write_if_selected.
  destruct (decide (selected e o)); [|done].
  unfold with_written. simpl. by rewrite <- app_assoc.
Qed.

Lemma run_impl_pass4 objects s :
  run_impl s new_pass4 objects
  = (None, new_pass4, with_extracts s (write_selected objects <$> m_extracts s)).
Proof.
  revert s. induction objects as [|o objects IH]; intros s.
  - simpl. rewrite (list_fmap_ext _ id), list_fmap_id, with_extracts_same; [done|].
    intros i e _. apply write_selected_nil.
  - simpl run_impl. rewrite dispatch_pass4, IH. simpl.
    rewrite with_extracts_twice, <- list_fmap_compose.
    do 2 f_equal. apply list_fmap_ext. intros i e _. apply write_selected_cons.
Qed.

(** C7: pass 4 never fails; for every region it appends to the output
    exactly the objects of the input whose id is in the primary or in the
    extra set of their type, in input order, and changes nothing else in
    the region. *)
Theorem pass4_writes_selected (s : Strategy) (input_file : File) :
  run_pass s new_pass4 (reader input_file bits_all)
  = (None, with_extracts s (write_selected (contents input_file) <$> m_extracts s)).
Proof. by rewrite run_pass_eq, reader_all, run_impl_pass4. Qed.

(** ** The start of [run] *)

(** C8: on an input file without a name (standard input) [run] fails with
    an [io_error] before pass 1: the strategy, with every region's sets and
    output, is as it was, and the run has no history. *)
Theorem run_rejects_stdin (s : Strategy) (input_file : File) :
  filename input_file = EmptyString →
  run s input_file = (Some io_error, s) ∧ run_states s input_file = [].
Proof.
  intros Hname. unfold run, run_states.
  rewrite !bool_decide_eq_true_2 by done. done.
Qed.

Lemma run_rejects_stdin_witness :
  run (sample_strategy false) stdin_file = (Some io_error, sample_strategy false)
  ∧ run_states (sample_strategy false) stdin_file = [].
Proof. apply (run_rejects_stdin (sample_strategy false) stdin_file). reflexivity. Defined.

(** ** Steps that keep primary and extra sets apart *)

Lemma later_step_refl e : later_step e e.
Proof. by split. Qed.

Lemma later_step_trans e1 e2 e3 :
  later_step e1 e2 → later_step e2 e3 → later_step e1 e3.
Proof.
  intros [Hp1 Hd1] [Hp2 Hd2]. split; [congruence | auto].
Qed.

Lemma later_step_with_extras e ns ws :
  later_step e (with_extras e (ns ∖ node_ids e) (ws ∖ way_ids e)).
Proof.
  split; [done|]. unfold disjoint_sets. simpl. set_solver.
Qed.

Lemma later_step_add_relation_members e r :
  later_step e (add_relation_members e r).
Proof.
  rewrite add_relation_members_with_extras. apply later_step_with_extras.
Qed.

Lemma later_step_add_way_nodes e w : later_step e (add_way_nodes e w).
Proof.
  rewrite add_way_nodes_with_extras.
  replace (∅ : IdSet.t) with ((∅ : IdSet.t) ∖ way_ids e) by set_solver.
  apply later_step_with_extras.
Qed.

Lemma later_step_network indices e e' :
  add_relation_network indices e = Some e' → later_step e e'.
Proof.
  intros Hrun.
  destruct (network_loop_inv _ _ _ _ Hrun) as (Hframe & _ & Hsound & _).
  split; [by rewrite Hframe|].
  unfold disjoint_sets. rewrite Hframe. simpl.
  intros (Hn & Hw & Hr). split; [done|]. split; [done|].
  apply elem_of_disjoint. intros x Hx Hx'.
  destruct (Hsound x Hx') as [Hx0|[Hx0 _]]; [|done].
  set_solver.
Qed.

Lemma later_step_write_if_selected o e : later_step e (write_if_selected o e).
Proof.
  unfold write_if_selected. destruct (decide _); [|apply later_step_refl].
  by split.
Qed.

(** ** After pass 1 *)

Lemma later_state_refl s : later_state s s.
Proof. apply Forall_Forall2_diag, Forall_forall. intros e _. apply later_step_refl. Qed.

Lemma later_state_trans s1 s2 s3 :
  later_state s1 s2 → later_state s2 s3 → later_state s1 s3.
Proof. apply Forall2_trans, later_step_trans. Qed.

Lemma for_each_is_Ok {A} (f : A → Result A) l :
  (∀ a, ∃ a', f a = Ok a') → ∃ l', for_each f l = Ok l'.
Proof.
  intros Hf. induction l as [|a l [l' IH]]; [by eexists|].
  destruct (Hf a) as [a' Ha]. simpl. rewrite Ha, IH. by eexists.
Qed.

Section later_pass.
Context `{Pass P}.
Hypothesis node_total : ∀ s (p : P) n, ∃ p', node s p n = Ok p'.
Hypothesis way_total : ∀ s (p : P) w, ∃ p', way s p w = Ok p'.
Hypothesis relation_total : ∀ s (p : P) r, ∃ p', relation s p r = Ok p'.
Hypothesis enode_later :
  ∀ s (p : P) e n, ∃ e', enode s p e n = Ok e' ∧ later_step e e'.
Hypothesis eway_later :
  ∀ s (p : P) e w, ∃ e', eway s p e w = Ok e' ∧ later_step e e'.
Hypothesis erelation_later :
  ∀ s (p : P) e r, ∃ e', erelation s p e r = Ok e' ∧ later_step e e'.

Lemma dispatch_is_Ok s (p : P) o : ∃ ps, dispatch s p o = Ok ps.
Proof.
  destruct o as [n|w|r]; simpl.
  - destruct (node_total s p n) as [p' ->]. simpl.
    destruct (for_each_is_Ok (λ e, enode s p' e n) (m_extracts s)) as [es ->];
      [|by eexists].
    intros e. destruct (enode_later s p' e n) as (e' & He & _). by exists e'.
  - destruct (way_total s p w) as [p' ->]. simpl.
    destruct (for_each_is_Ok (λ e, eway s p' e w) (m_extracts s)) as [es ->];
      [|by eexists].
    intros e. destruct (eway_later s p' e w) as (e' & He & _). by exists e'.
  - destruct (relation_total s p r) as [p' ->]. simpl.
    destruct (for_each_is_Ok (λ e, erelation s p' e r) (m_extracts s)) as [es ->];
      [|by eexists].
    intros e. destruct (erelation_later s p' e r) as (e' & He & _). by exists e'.
Qed.

Lemma dispatch_later s (p : P) o p' s' :
  dispatch s p o = Ok (p', s') → later_state s s'.
Proof.
  unfold later_state. destruct o as [n|w|r]; intros Hd.
  - apply dispatch_node in Hd as (_ & Hall & _).
    eapply Forall2_impl; [exact Hall|]. intros e e' He. simpl in He.
    destruct (enode_later s p' e n) as (e'' & He' & Hl). congruence.
  - apply dispatch_way in Hd as (_ & Hall & _).
    eapply Forall2_impl; [exact Hall|]. intros e e' He. simpl in He.
    destruct (eway_later s p' e w) as (e'' & He' & Hl). congruence.
  - apply dispatch_relation in Hd as (_ & Hall & _).
    eapply Forall2_impl; [exact Hall|]. intros e e' He. simpl in He.
    destruct (erelation_later s p' e r) as (e'' & He' & Hl). congruence.
Qed.

Lemma run_impl_later s0 s (p : P) objects :
  later_state s0 s →
  Forall (later_state s0) (run_impl_states s p objects)
  ∧ later_state s0 (run_impl s p objects).2
  ∧ (run_impl s p objects).1.1 = None.
Proof.
  intros Hs.
  destruct (run_impl_keeps (λ _ s', later_state s0 s')) with objects s p
    as [Hall Hend]; [|done|].
  { intros s1 p1 o p2 s2 H1 Hd. eapply later_state_trans; [exact H1|].
    by eapply dispatch_later. }
  split; [|split; [done|]].
  - eapply Forall_impl; [exact Hall|]. by intros s' [_ Hs'].
  - apply run_impl_no_failure. intros. apply dispatch_is_Ok.
Qed.

End later_pass.

Lemma nothing_total {P A} s (p : P) (a : A) : ∃ p', nothing s p a = Ok p'.
Proof. by eexists. Qed.

Lemma enothing_later {P A} s (p : P) e (a : A) :
  ∃ e', enothing s p e a = Ok e' ∧ later_step e e'.
Proof. exists e. split; [done | apply later_step_refl]. Qed.

Lemma pass2_erelation_later s p e r :
  ∃ e', pass2_erelation s p e r = Ok e' ∧ later_step e e'.
Proof.
  unfold pass2_erelation. destruct (_ && _); eexists; (split; [done|]).
  - apply later_step_add_relation_members.
  - apply later_step_refl.
Qed.

Lemma pass3_eway_later s p e w :
  ∃ e', pass3_eway s p e w = Ok e' ∧ later_step e e'.
Proof.
  unfold pass3_eway. destruct (IdSet.get _ _); eexists; (split; [done|]).
  - apply later_step_add_way_nodes.
  - apply later_step_refl.
Qed.

Lemma pass4_enode_later s p e n :
  ∃ e', pass4_enode s p e n = Ok e' ∧ later_step e e'.
Proof.
  eexists. split; [apply pass4_enode_write | apply later_step_write_if_selected].
Qed.

Lemma pass4_eway_later s p e w :
  ∃ e', pass4_eway s p e w = Ok e' ∧ later_step e e'.
Proof.
  eexists. split; [apply pass4_eway_write | apply later_step_write_if_selected].
Qed.

Lemma pass4_erelation_later s p e r :
  ∃ e', pass4_erelation s p e r = Ok e' ∧ later_step e e'.
Proof.
  eexists. split; [apply pass4_erelation_write | apply later_step_write_if_selected].
Qed.

Lemma run_impl_pass2_later s0 s (p : Pass2) objects :
  later_state s0 s →
  Forall (later_state s0) (run_impl_states s p objects)
  ∧ later_state s0 (run_impl s p objects).2
  ∧ (run_impl s p objects).1.1 = None.
Proof.
  apply run_impl_later; intros;
    first [apply nothing_total | apply enothing_later | apply pass2_erelation_later].
Qed.

Lemma run_impl_pass3_later s0 s (p : Pass3) objects :
  later_state s0 s →
  Forall (later_state s0) (run_impl_states s p objects)
  ∧ later_state s0 (run_impl s p objects).2
  ∧ (run_impl s p objects).1.1 = None.
Proof.
  apply run_impl_later; intros;
    first [apply nothing_total | apply enothing_later | apply pass3_eway_later].
Qed.

Lemma run_impl_pass4_later s0 s (p : Pass4) objects :
  later_state s0 s →
  Forall (later_state s0) (run_impl_states s p objects)
  ∧ later_state s0 (run_impl s p objects).2
  ∧ (run_impl s p objects).1.1 = None.
Proof.
  apply run_impl_later; intros;
    first [apply nothing_total | apply pass4_enode_later
          | apply pass4_eway_later | apply pass4_erelation_later].
Qed.

(** The loop that follows pass 1 never fails. *)
Lemma add_relation_networks_later indices s :
  ∃ s', add_relation_networks indices s = Ok s'
        ∧ Forall2 (λ e e', add_relation_network indices e = Some e')
            (m_extracts s) (m_extracts s')
        ∧ later_state s s'.
Proof.
  unfold add_relation_networks.
  destruct (for_each_is_Ok
              (λ e, of_option unfinished (add_relation_network indices e))
              (m_extracts s)) as [es Hes].
  { intros e. destruct (add_relation_network_is_Some indices e) as [e' ->].
    by exists e'. }
  rewrite Hes. simpl. eexists. split; [done|].
  apply for_each_Forall2 in Hes. simpl.
  assert (Forall2 (λ e e', add_relation_network indices e = Some e')
            (m_extracts s) es) as Hall.
  { eapply Forall2_impl; [exact Hes|]. intros e e' He. simpl in He.
    destruct (add_relation_network indices e); simpl in He; by simplify_eq. }
  split; [done|].
  unfold later_state. simpl.
  eapply Forall2_impl; [exact Hall|]. intros e e'. apply later_step_network.
Qed.

Lemma default_last_app {A} (d : A) l1 l2 :
  default d (last (l1 ++ l2)) = default (default d (last l1)) (last l2).
Proof. rewrite last_app. by destruct (last l2). Qed.

Lemma later_state_default_last s0 s h :
  later_state s0 s → Forall (later_state s0) h →
  later_state s0 (default s (last h)).
Proof.
  intros Hs Hh. destruct (last h) as [s'|] eqn:Hlast; [|done]. simpl.
  eapply Forall_forall; [exact Hh|]. by apply last_Some_elem_of.
Qed.

(** After pass 1 nothing fails, and the history ends with the strategy the
    run ends with. *)
Lemma run_after_pass1_final s1 p1 input_file :
  run_after_pass1 s1 p1 input_file
  = (None, default s1 (last (run_after_pass1_states s1 p1 input_file))).
Proof.
  unfold run_after_pass1, run_after_pass1_states.
  destruct (add_relation_networks_later
              (build_indexes (m_relations_map_stash p1)) s1)
    as (s2 & -> & _ & _).
  set (h2 := if any_extract _ s2 then _ else []).
  assert ((if any_extract (λ e, negb (IdSet.empty (extra_relation_ids e))) s2
           then run_pass s2 new_pass2 (reader input_file bits_relation)
           else (None, s2))
          = (None, default s2 (last h2))) as ->.
  { subst h2. destruct (any_extract _ s2); [|done].
    rewrite run_pass_eq, run_impl_last.
    destruct (run_impl_pass2_later s2 s2 new_pass2 (reader input_file bits_relation)
                (later_state_refl s2)) as (_ & _ & ->).
    done. }
  set (s3 := default s2 (last h2)).
  set (h3 := if any_extract _ s3 then _ else []).
  assert ((if any_extract (λ e, negb (IdSet.empty (extra_way_ids e))) s3
           then run_pass s3 new_pass3 (reader input_file bits_way)
           else (None, s3))
          = (None, default s3 (last h3))) as ->.
  { subst h3. destruct (any_extract _ s3); [|done].
    rewrite run_pass_eq, run_impl_last.
    destruct (run_impl_pass3_later s3 s3 new_pass3 (reader input_file bits_way)
                (later_state_refl s3)) as (_ & _ & ->).
    done. }
  set (s4 := default s3 (last h3)).
  rewrite run_pass_eq, run_impl_last.
  destruct (run_impl_pass4_later s4 s4 new_pass4 (reader input_file bits_all)
              (later_state_refl s4)) as (_ & _ & ->).
  f_equal.
  change (s2 :: h2 ++ h3 ++ run_impl_states s4 new_pass4 (reader input_file bits_all))
    with ([s2] ++ h2 ++ h3 ++ run_impl_states s4 new_pass4 (reader input_file bits_all)).
  by rewrite !default_last_app.
Qed.

(** Every strategy in the history after pass 1 comes from the strategy
    pass 1 ended with by steps that leave the primary sets alone. *)
Lemma run_after_pass1_later s1 p1 input_file :
  Forall (later_state s1) (run_after_pass1_states s1 p1 input_file).
Proof.
  unfold run_after_pass1_states.
  destruct (add_relation_networks_later
              (build_indexes (m_relations_map_stash p1)) s1)
    as (s2 & -> & _ & H2).
  set (h2 := if any_extract _ s2 then _ else []).
  assert (Forall (later_state s1) h2) as Hh2.
  { subst h2. destruct (any_extract _ s2); [|constructor].
    by apply run_impl_pass2_later. }
  set (s3 := default s2 (last h2)).
  assert (later_state s1 s3) as H3 by by apply later_state_default_last.
  set (h3 := if any_extract _ s3 then _ else []).
  assert (Forall (later_state s1) h3) as Hh3.
  { subst h3. destruct (any_extract _ s3); [|constructor].
    by apply run_impl_pass3_later. }
  set (s4 := default s3 (last h3)).
  assert (later_state s1 s4) as H4 by by apply later_state_default_last.
  constructor; [done|].
  apply Forall_app. split; [done|]. apply Forall_app. split; [done|].
  by apply run_impl_pass4_later.
Qed.

(** The history of a run ends with the strategy the run ends with. *)
Lemma run_final s input_file :
  (run s input_file).2 = default s (last (run_states s input_file)).
Proof.
  unfold run, run_states.
  destruct (bool_decide (filename input_file = EmptyString)); [done|].
  pose proof (run_impl_last (reader input_file bits_all) s new_pass1) as Hlast.
  destruct (run_impl s new_pass1 (reader input_file bits_all)) as [[f1 p1] s1].
  simpl in Hlast. destruct f1 as [f|]; [done|].
  rewrite run_after_pass1_final, default_last_app. simpl. by rewrite <- Hlast.
Qed.

Lemma later_state_primary_sets s s' :
  later_state s s' →
  primary_sets <$> m_extracts s' = primary_sets <$> m_extracts s.
Proof.
  unfold later_state. induction 1 as [|e e' es es' [Hp _] _ IH]; [done|].
  rewrite !fmap_cons. by rewrite Hp, IH.
Qed.

Lemma later_state_disjoint s s' :
  later_state s s' →
  Forall disjoint_sets (m_extracts s) → Forall disjoint_sets (m_extracts s').
Proof.
  unfold later_state. induction 1 as [|e e' es es' [_ Hd] _ IH]; [done|].
  intros Hall. apply Forall_cons in Hall as [He Hes].
  constructor; auto.
Qed.

(** C10: once pass 1 has ended the primary sets of every region stay as
    they are.  In the history of a run, every strategy that follows the
    part of pass 1 has, region by region, the primary sets pass 1 ended
    with, and the run ends with the last strategy of its history.  The
    closure replaces only the extra relations; pass 2 only adds to the
    extra points and the extra ways; pass 3 only adds to the extra points;
    pass 4 only replaces the output. *)
Theorem primary_sets_frozen_after_pass1 :
  (∀ s input_file,
     let objects := reader input_file bits_all in
     Forall (λ s', primary_sets <$> m_extracts s'
                   = primary_sets <$> m_extracts (run_impl s new_pass1 objects).2)
       (drop (length (run_impl_states s new_pass1 objects))
          (run_states s input_file))
     ∧ (run s input_file).2 = default s (last (run_states s input_file)))
  ∧ (∀ indices e,
       ∃ ids, add_relation_network indices e = Some (with_extra_relations e ids))
  ∧ (∀ s p e r, ∃ ns ws, pass2_erelation s p e r = Ok (with_extras e ns ws))
  ∧ (∀ s p e w, ∃ ns, pass3_eway s p e w = Ok (with_extras e ns ∅))
  ∧ (∀ s p e n, ∃ out, pass4_enode s p e n = Ok (with_written e out))
  ∧ (∀ s p e w, ∃ out, pass4_eway s p e w = Ok (with_written e out))
  ∧ (∀ s p e r, ∃ out, pass4_erelation s p e r = Ok (with_written e out)).
Proof.
  assert (∀ e, with_extras e ∅ ∅ = e) as Hsame.
  { intros e. apply extract_data_eq; simpl; try done; set_solver. }
  assert (∀ o e, ∃ out, write_if_selected o e = with_written e out) as Hwrite.
  { intros o e. unfold write_if_selected.
    destruct (decide _); eexists; [reflexivity|].
    instantiate (1 := written e). by destruct e. }
  split; [|split; [|split; [|split; [|split; [|split]]]]].
  - intros s input_file objects. split; [|apply run_final].
    unfold run_states.
    destruct (bool_decide (filename input_file = EmptyString)).
    { rewrite drop_nil. constructor. }
    fold objects.
    destruct (run_impl s new_pass1 objects) as [[f1 p1] s1] eqn:Hrun. simpl.
    destruct f1 as [f|].
    + rewrite drop_all. constructor.
    + rewrite drop_app_length.
      eapply Forall_impl; [apply run_after_pass1_later|].
      intros s'. apply later_state_primary_sets.
  - intros indices e.
    destruct (add_relation_network_is_Some indices e) as [e' Hrun].
    exists (extra_relation_ids e'). rewrite Hrun. f_equal.
    apply (network_loop_inv _ _ _ _ Hrun).
  - intros s p e r. unfold pass2_erelation. destruct (_ && _).
    + rewrite add_relation_members_with_extras. by do 2 eexists.
    + exists ∅, ∅. by rewrite Hsame.
  - intros s p e w. unfold pass3_eway. destruct (IdSet.get _ _).
    + rewrite add_way_nodes_with_extras. by eexists.
    + exists ∅. by rewrite Hsame.
  - intros s p e n. rewrite pass4_enode_write.
    destruct (Hwrite (ONode n) e) as [out ->]. by exists out.
  - intros s p e w. rewrite pass4_eway_write.
    destruct (Hwrite (OWay w) e) as [out ->]. by exists out.
  - intros s p e r. rewrite pass4_erelation_write.
    destruct (Hwrite (ORelation r) e) as [out ->]. by exists out.
Qed.

(** ** Pass 1 keeps primary and extra sets apart *)

Lemma check_node_Ok c n c' :
  check_node c n = Ok c' →
  m_max_way_id c = None ∧ m_max_relation_id c = None
  ∧ m_max_way_id c' = None ∧ m_max_relation_id c' = None.
Proof.
  unfold check_node. repeat case_bool_decide; try done.
  destruct (goes_down _ _); [done|]. intros. simplify_eq. simpl.
  rewrite <- !eq_None_not_Some in *. done.
Qed.

Lemma check_way_Ok c w c' :
  check_way c w = Ok c' →
  m_max_relation_id c = None ∧ m_max_relation_id c' = None
  ∧ is_Some (m_max_way_id c').
Proof.
  unfold check_way. case_bool_decide; try done.
  destruct (goes_down _ _); [done|]. intros. simplify_eq. simpl.
  rewrite <- !eq_None_not_Some in *. done.
Qed.

Lemma check_relation_Ok c r c' :
  check_relation c r = Ok c' → is_Some (m_max_relation_id c').
Proof.
  unfold check_relation. destruct (goes_down _ _); [done|].
  intros. simplify_eq. simpl. done.
Qed.

Lemma pass1_eway_cases s p e w e' :
  pass1_eway s p e w = Ok e' → e' = e ∨ e' = include_way e w.
Proof.
  unfold pass1_eway. destruct (m_by_first_node s).
  - destruct (head (way_nodes w)); [|done].
    destruct (_ || _); intros; simplify_eq; [right | by left].
    apply add_way_nodes_include_way.
  - intros. simplify_eq.
    destruct (decide (Exists (primary_ref e) (way_nodes w))).
    + right. by apply eway_scan_primary.
    + left. by apply eway_scan_no_primary.
Qed.

Lemma pass1_erelation_cases s p e r e' :
  pass1_erelation s p e r = Ok e' → e' = e ∨ ∃ pull, e' = include_relation pull e r.
Proof.
  unfold pass1_erelation. intros. simplify_eq.
  destruct (decide (Exists (primary_member e) (relation_members r))).
  - right. eexists. rewrite erelation_scan_primary by done.
    apply accept_relation_include.
  - left. by apply erelation_scan_no_primary.
Qed.

Lemma pass1_inv_enode c c' s p e n e' :
  check_node c n = Ok c' →
  pass1_inv c e →
  pass1_enode s p e n = Ok e' →
  pass1_inv c' e'.
Proof.
  intros Hc (Hd & Hr & Hn & Hw) He.
  apply check_node_Ok in Hc as (Hcw & Hcr & Hcw' & Hcr').
  specialize (Hn Hcw Hcr). specialize (Hw Hcr).
  destruct Hd as (_ & _ & Hdr).
  unfold pass1_enode in He.
  destruct (contains _ _); simplify_eq; unfold pass1_inv, disjoint_sets; simpl;
    rewrite ?Hn, ?Hw, ?Hr; set_solver.
Qed.

Lemma pass1_inv_eway c c' s p e w e' :
  check_way c w = Ok c' →
  pass1_inv c e →
  pass1_eway s p e w = Ok e' →
  pass1_inv c' e'.
Proof.
  intros Hc (Hd & Hr & Hn & Hw) He.
  apply check_way_Ok in Hc as (Hcr & Hcr' & [id Hcw']).
  specialize (Hw Hcr).
  destruct Hd as (Hdn & _ & Hdr).
  apply pass1_eway_cases in He as [->| ->];
    unfold pass1_inv, disjoint_sets; simpl; rewrite ?Hw, ?Hr, Hcw';
    (split; [set_solver|]); (split; [done|]); (split; [done|]);
    intros _; set_solver.
Qed.

Lemma pass1_inv_erelation c c' s p e r e' :
  check_relation c r = Ok c' →
  pass1_inv c e →
  pass1_erelation s p e r = Ok e' →
  pass1_inv c' e'.
Proof.
  intros Hc (Hd & Hr & Hn & Hw) He.
  apply check_relation_Ok in Hc as [id Hcr'].
  destruct Hd as (Hdn & Hdw & Hdr).
  apply pass1_erelation_cases in He as [->|[pull ->]].
  - unfold pass1_inv, disjoint_sets. rewrite Hcr'. done.
  - unfold pass1_inv, disjoint_sets, include_relation. rewrite Hcr'.
    destruct pull; simpl; rewrite ?Hr;
      (split; [set_solver|]); (split; [done|]); done.
Qed.

Lemma dispatch_pass1_inv s (p : Pass1) o p' s' :
  Forall (pass1_inv (m_check_order p)) (m_extracts s) →
  dispatch s p o = Ok (p', s') →
  Forall (pass1_inv (m_check_order p')) (m_extracts s').
Proof.
  intros Hinv Hd. destruct o as [n|w|r].
  - apply dispatch_node in Hd as (Hp & Hall & _). simpl in Hp, Hall.
    unfold pass1_node in Hp.
    destruct (check_node (m_check_order p) n) as [c|] eqn:Hc; [|done].
    simpl in Hp. simplify_eq. simpl.
    eapply Forall2_Forall_r; [exact Hall|].
    eapply Forall_impl; [exact Hinv|]. intros e He e' He'.
    by eapply pass1_inv_enode.
  - apply dispatch_way in Hd as (Hp & Hall & _). simpl in Hp, Hall.
    unfold pass1_way in Hp.
    destruct (check_way (m_check_order p) w) as [c|] eqn:Hc; [|done].
    simpl in Hp. simplify_eq. simpl.
    eapply Forall2_Forall_r; [exact Hall|].
    eapply Forall_impl; [exact Hinv|]. intros e He e' He'.
    by eapply pass1_inv_eway.
  - apply dispatch_relation in Hd as (Hp & Hall & _). simpl in Hp, Hall.
    unfold pass1_relation in Hp.
    destruct (check_relation (m_check_order p) r) as [c|] eqn:Hc; [|done].
    simpl in Hp. simplify_eq. simpl.
    eapply Forall2_Forall_r; [exact Hall|].
    eapply Forall_impl; [exact Hinv|]. intros e He e' He'.
    by eapply pass1_inv_erelation.
Qed.

Lemma pass1_inv_new c x : pass1_inv c (new_extract_data x).
Proof. unfold pass1_inv, disjoint_sets. simpl. set_solver. Qed.

(** Pass 1, started on fresh regions, keeps [pass1_inv] at every object. *)
Lemma run_impl_pass1_inv extracts relations system by_first_node objects :
  let s := new_strategy extracts relations system by_first_node in
  Forall (λ s', Forall (λ e, disjoint_sets e ∧ extra_relation_ids e = ∅)
                  (m_extracts s'))
    (s :: (run_impl s new_pass1 objects).2 :: run_impl_states s new_pass1 objects).
Proof.
  intros s.
  assert (∀ c s', Forall (pass1_inv c) (m_extracts s') →
            Forall (λ e, disjoint_sets e ∧ extra_relation_ids e = ∅) (m_extracts s'))
    as Hweak.
  { intros c s' Hs'. eapply Forall_impl; [exact Hs'|].
    intros e (Hd & Hr & _). done. }
  assert (Forall (pass1_inv (m_check_order new_pass1)) (m_extracts s)) as Hstart.
  { subst s. simpl. apply Forall_fmap, Forall_forall. intros x _.
    apply pass1_inv_new. }
  destruct (run_impl_keeps
              (λ (p : Pass1) s', Forall (pass1_inv (m_check_order p)) (m_extracts s')))
    with objects s new_pass1 as [Hall Hend]; [|done|].
  { intros s1 p1 o p2 s2. apply dispatch_pass1_inv. }
  constructor; [by eapply Hweak|]. constructor; [by eapply Hweak|].
  eapply Forall_impl; [exact Hall|]. intros s' [p' Hs']. by eapply Hweak.
Qed.

(** When pass 1 ends no region has an extra relation: the closure starts
    from regions without extra relations. *)
Lemma pass1_leaves_no_extra_relations extracts relations system by_first_node objects :
  Forall (λ e, extra_relation_ids e = ∅)
    (m_extracts
       (run_impl (new_strategy extracts relations system by_first_node)
          new_pass1 objects).2).
Proof.
  pose proof (run_impl_pass1_inv extracts relations system by_first_node objects)
    as Hall.
  simpl in Hall. apply Forall_cons in Hall as [_ Hall].
  apply Forall_cons in Hall as [Hend _].
  eapply Forall_impl; [exact Hend|]. by intros e [_ He].
Qed.

(** C9: in a run that starts on fresh regions, at every point of the
    history (after every object of every pass and after the closure), and
    so when the run ends, no id of any region is both in the primary and in
    the extra set of its type; this holds from the start, hence from the
    moment each primary set is final. *)
Theorem primary_and_extra_disjoint (extracts : list Extract)
  (relations system : TagsFilter) (by_first_node : bool) (input_file : File) :
  let s := new_strategy extracts relations system by_first_node in
  Forall (λ s', Forall disjoint_sets (m_extracts s')) (s :: run_states s input_file)
  ∧ (run s input_file).2 = default s (last (run_states s input_file)).
Proof.
  intros s. split; [|apply run_final].
  pose proof (run_impl_pass1_inv extracts relations system by_first_node
                (reader input_file bits_all)) as Hpass1.
  fold s in Hpass1. simpl in Hpass1.
  assert (∀ s', Forall (λ e, disjoint_sets e ∧ extra_relation_ids e = ∅)
                  (m_extracts s') →
                Forall disjoint_sets (m_extracts s')) as Hweak.
  { intros s' Hs'. eapply Forall_impl; [exact Hs'|]. by intros e [Hd _]. }
  apply Forall_cons in Hpass1 as [Hstart Hpass1].
  apply Forall_cons in Hpass1 as [Hend Hpass1].
  constructor; [by apply Hweak|].
  unfold run_states.
  destruct (bool_decide (filename input_file = EmptyString)); [constructor|].
  destruct (run_impl s new_pass1 (reader input_file bits_all)) as [[f1 p1] s1].
  simpl in Hend.
  assert (Forall (λ s', Forall disjoint_sets (m_extracts s'))
            (run_impl_states s new_pass1 (reader input_file bits_all))) as Hh1.
  { eapply Forall_impl; [exact Hpass1|]. exact Hweak. }
  destruct f1 as [f|]; [done|].
  apply Forall_app. split; [done|].
  eapply Forall_impl; [apply run_after_pass1_later|].
  intros s' Hs'. eapply later_state_disjoint; [exact Hs'|]. by apply Hweak.
Qed.

(** ** The relation graph of pass 1 *)

(** The edges pass 1 records. *)
Lemma elem_of_stash_add_members stash r a b :
  (a, b) ∈ stash_add_members stash r
  ↔ (a, b) ∈ stash
    ∨ (b = relation_positive_id r
       ∧ ∃ m, m ∈ relation_members r ∧ member_type m = relation_t
              ∧ a = member_positive_ref m).
Proof.
  unfold stash_add_members. revert stash.
  induction (relation_members r) as [|m ms IH]; intros stash; simpl.
  - split; [by left|]. intros [H|(_ & m & Hm & _)]; [done|].
    by apply elem_of_nil in Hm.
  - rewrite IH. clear IH. split.
    + intros [Hin|(Hb & m' & Hm' & Ht & Ha)].
      * destruct (member_type m) eqn:Ht; try by left.
        apply elem_of_app in Hin as [Hin|Hin]; [by left|].
        apply list_elem_of_singleton in Hin. simplify_eq.
        right. split; [done|]. exists m. split; [left|done].
      * right. split; [done|]. exists m'. split; [by right | done].
    + intros [Hin|(Hb & m' & Hm' & Ht & Ha)].
      * left. destruct (member_type m); try done.
        apply elem_of_app. by left.
      * apply elem_of_cons in Hm' as [->|Hm'].
        -- left. rewrite Ht. apply elem_of_app. right.
           apply list_elem_of_singleton. by subst.
        -- right. split; [done|]. by exists m'.
Qed.

Lemma dispatch_filters `{Pass P} s (p : P) o p' s' :
  dispatch s p o = Ok (p', s') → ∃ es, s' = with_extracts s es.
Proof.
  destruct o as [n|w|r]; intros Hd.
  - apply dispatch_node in Hd as (_ & _ & Hs). by eexists.
  - apply dispatch_way in Hd as (_ & _ & Hs). by eexists.
  - apply dispatch_relation in Hd as (_ & _ & Hs). by eexists.
Qed.

Lemma system_edge_cons s o objects a b :
  system_edge s (o :: objects) a b
  ↔ system_edge s [o] a b ∨ system_edge s objects a b.
Proof.
  unfold system_edge. split.
  - intros (r & m & Hr & Hrest). apply elem_of_cons in Hr as [Hr|Hr].
    + left. exists r, m. split; [rewrite <- Hr; left | done].
    + right. by exists r, m.
  - intros [(r & m & Hr & Hrest)|(r & m & Hr & Hrest)]; exists r, m.
    + apply list_elem_of_singleton in Hr. split; [rewrite Hr; left | done].
    + split; [by right | done].
Qed.

(** When pass 1 has gone through all objects, its stash holds, besides
    what it held before, exactly the membership edges of the relations
    that are part of a relevant relation system. *)
Lemma run_impl_pass1_stash objects s p p' s' :
  run_impl s p objects = (None, p', s') →
  ∀ a b, (a, b) ∈ m_relations_map_stash p'
         ↔ (a, b) ∈ m_relations_map_stash p ∨ system_edge s objects a b.
Proof.
  revert s p. induction objects as [|o objects IH]; intros s p Hrun a b.
  - simpl in Hrun. simplify_eq. split; [by left|].
    intros [H|(r & m & Hr & _)]; [done|]. by apply elem_of_nil in Hr.
  - simpl in Hrun.
    destruct (dispatch s p o) as [[p1 s1]|] eqn:Hd; [|done].
    rewrite (IH s1 p1 Hrun a b), system_edge_cons.
    destruct (dispatch_filters _ _ _ _ _ Hd) as [es ->].
    assert ((a, b) ∈ m_relations_map_stash p1
            ↔ (a, b) ∈ m_relations_map_stash p ∨ system_edge s [o] a b) as ->.
    { destruct o as [n|w|r].
      - apply dispatch_node in Hd as (Hp & _). simpl in Hp.
        unfold pass1_node in Hp. destruct (check_node _ _); [|done].
        simpl in Hp. simplify_eq. simpl. split; [by left|].
        intros [H|(r & m & Hr & _)]; [done|].
        apply list_elem_of_singleton in Hr. done.
      - apply dispatch_way in Hd as (Hp & _). simpl in Hp.
        unfold pass1_way in Hp. destruct (check_way _ _); [|done].
        simpl in Hp. simplify_eq. simpl. split; [by left|].
        intros [H|(r & m & Hr & _)]; [done|].
        apply list_elem_of_singleton in Hr. done.
      - apply dispatch_relation in Hd as (Hp & _). simpl in Hp.
        unfold pass1_relation in Hp. destruct (check_relation _ _); [|done].
        simpl in Hp. simplify_eq. simpl.
        destruct (is_part_of_relevant_relation_system s r) eqn:Hsys.
        + rewrite elem_of_stash_add_members. unfold system_edge. split.
          * intros [H|(Hb & m & Hm & Ht & Ha)]; [by left|].
            right. exists r, m. split; [left|done].
          * intros [H|(r' & m & Hr & Hs & Hm & Ht & Ha & Hb)]; [by left|].
            apply list_elem_of_singleton in Hr. simplify_eq.
            right. split; [done|]. by exists m.
        + split; [by left|].
          intros [H|(r' & m & Hr & Hs & _)]; [done|].
          apply list_elem_of_singleton in Hr. simplify_eq. congruence. }
    unfold system_edge, is_part_of_relevant_relation_system. simpl. tauto.
Qed.

(** ** The sample run *)

(** Without [by_first_node]: point 1 is primary, way 7 is taken through its
    second point, point 2 becomes extra, relation 9 is taken through way 7;
    all four objects are written, in input order. *)
Example run_sample_any_node :
  (run (sample_strategy false) named_file).1 = None
  ∧ summary (run (sample_strategy false) named_file).2
    = [ [ [1]; [2]; [7]; []; [9]; []; [1; 2; 7; 9] ] ]%N.
Proof. split; vm_compute; reflexivity. Qed.

(** With [by_first_node] the same way is not taken: its first point lies
    outside the region. *)
Example run_sample_first_node :
  (run (sample_strategy true) named_file).1 = None
  ∧ summary (run (sample_strategy true) named_file).2
    = [ [ [1]; []; []; []; []; []; [1] ] ]%N.
Proof. split; vm_compute; reflexivity. Qed.

(** With [by_first_node] a way without point references takes the run out
    of defined behaviour: [front()] has nothing to return. *)
Example run_empty_way :
  (run (sample_strategy true)
     {| filename := "planet.osm";
        contents := [ OWay {| way_id := 7; way_nodes := []; way_tags := [] |} ] |}).1
  = Some undefined_behaviour.
Proof. vm_compute. reflexivity. Qed.

(** Objects out of order stop pass 1. *)
Example run_out_of_order :
  (run (sample_strategy false)
     {| filename := "planet.osm"; contents := rev sample_objects |}).1
  = Some out_of_order_error.
Proof. vm_compute. reflexivity. Qed.

(** * Further properties *)

(** ** One region at a time *)

Lemma Forall2_eq_fmap {A B} (f : A → B) l l' :
  Forall2 (λ a b, b = f a) l l' → l' = f <$> l.
Proof.
  induction 1 as [|a b l l' Hab _ IH]; [done|].
  rewrite fmap_cons. by rewrite Hab, IH.
Qed.

Section region_pass.
Context `{Pass P}.
Variable p0 : P.
Hypothesis enode_any_pass : ∀ s (p : P) e n, enode s p e n = enode s p0 e n.
Hypothesis eway_any_pass : ∀ s (p : P) e w, eway s p e w = eway s p0 e w.
Hypothesis erelation_any_pass : ∀ s (p : P) e r, erelation s p e r = erelation s p0 e r.
Hypothesis region_step_settings :
  ∀ s es o e, region_step p0 (with_extracts s es) o e = region_step p0 s o e.

Lemma dispatch_regions s (p : P) o p' s' :
  dispatch s p o = Ok (p', s') →
  s' = with_extracts s (region_step p0 s o <$> m_extracts s).
Proof.
  intros Hd. destruct o as [n|w|r].
  - apply dispatch_node in Hd as (_ & Hall & ->). f_equal.
    apply Forall2_eq_fmap. eapply Forall2_impl; [exact Hall|].
    intros e e' He. unfold region_step. by rewrite <- (enode_any_pass s p'), He.
  - apply dispatch_way in Hd as (_ & Hall & ->). f_equal.
    apply Forall2_eq_fmap. eapply Forall2_impl; [exact Hall|].
    intros e e' He. unfold region_step. by rewrite <- (eway_any_pass s p'), He.
  - apply dispatch_relation in Hd as (_ & Hall & ->). f_equal.
    apply Forall2_eq_fmap. eapply Forall2_impl; [exact Hall|].
    intros e e' He. unfold region_step. by rewrite <- (erelation_any_pass s p'), He.
Qed.

Lemma region_pass_settings s es objects e :
  region_pass p0 (with_extracts s es) objects e = region_pass p0 s objects e.
Proof.
  unfold region_pass. revert e.
  induction objects as [|o objects IH]; intros e; [done|].
  simpl. by rewrite region_step_settings, IH.
Qed.

(** A pass that gets through all its objects has treated every region on
    its own. *)
Lemma run_impl_regions objects s (p : P) p' s' :
  run_impl s p objects = (None, p', s') →
  s' = with_extracts s (region_pass p0 s objects <$> m_extracts s).
Proof.
  revert s p. induction objects as [|o objects IH]; intros s p Hrun.
  - simpl in Hrun. simplify_eq. unfold region_pass. simpl.
    by rewrite list_fmap_id, with_extracts_same.
  - simpl in Hrun. destruct (dispatch s p o) as [[p1 s1]|] eqn:Hd; [|done].
    apply IH in Hrun. apply dispatch_regions in Hd. subst s1.
    rewrite Hrun. simpl. rewrite with_extracts_twice, <- list_fmap_compose.
    f_equal. apply list_fmap_ext. intros i e _. simpl.
    by rewrite region_pass_settings.
Qed.

End region_pass.

Lemma run_pass2_regions s objects :
  run_pass s new_pass2 objects
  = (None, with_extracts s (region_pass new_pass2 s objects <$> m_extracts s)).
Proof.
  rewrite run_pass_eq.
  destruct (run_impl_pass2_later s s new_pass2 objects (later_state_refl s))
    as (_ & _ & Hok).
  destruct (run_impl s new_pass2 objects) as [[f p'] s'] eqn:Hrun.
  simpl in *. subst f. f_equal.
  by eapply (run_impl_regions new_pass2); [..|exact Hrun].
Qed.

Lemma run_pass3_regions s objects :
  run_pass s new_pass3 objects
  = (None, with_extracts s (region_pass new_pass3 s objects <$> m_extracts s)).
Proof.
  rewrite run_pass_eq.
  destruct (run_impl_pass3_later s s new_pass3 objects (later_state_refl s))
    as (_ & _ & Hok).
  destruct (run_impl s new_pass3 objects) as [[f p'] s'] eqn:Hrun.
  simpl in *. subst f. f_equal.
  by eapply (run_impl_regions new_pass3); [..|exact Hrun].
Qed.

Lemma run_pass4_regions s objects :
  run_pass s new_pass4 objects
  = (None, with_extracts s (region_pass new_pass4 s objects <$> m_extracts s)).
Proof.
  rewrite run_pass_eq.
  destruct (run_impl_pass4_later s s new_pass4 objects (later_state_refl s))
    as (_ & _ & Hok).
  destruct (run_impl s new_pass4 objects) as [[f p'] s'] eqn:Hrun.
  simpl in *. subst f. f_equal.
  by eapply (run_impl_regions new_pass4); [..|exact Hrun].
Qed.

(** ** Pass 2 and pass 3 *)

Lemma with_extras_empty e : with_extras e ∅ ∅ = e.
Proof. apply extract_data_eq; simpl; try done; set_solver. Qed.

Lemma region_pass_cons `{Pass P} (p : P) s o objects e :
  region_pass p s (o :: objects) e = region_pass p s objects (region_step p s o e).
Proof. reflexivity. Qed.

Lemma pulled_relations_with_extras s e ns ws objects :
  pulled_relations s (with_extras e ns ws) objects = pulled_relations s e objects.
Proof. reflexivity. Qed.

Lemma region_pass2_with_extras s objects e :
  region_pass new_pass2 s objects e
  = with_extras e
      (⋃ (member_refs node_t <$> pulled_relations s e objects) ∖ node_ids e)
      (⋃ (member_refs way_t <$> pulled_relations s e objects) ∖ way_ids e).
Proof.
  revert e. induction objects as [|o objects IH]; intros e.
  - unfold region_pass. simpl. symmetry.
    apply extract_data_eq; simpl; try done; set_solver.
  - rewrite region_pass_cons, IH. clear IH.
    destruct o as [n|w|r]; try done.
    unfold region_step, pulled_relations. simpl. unfold pass2_erelation.
    destruct (IdSet.get (extra_relation_ids e) (relation_positive_id r)
              && is_part_of_relevant_relation_system s r) eqn:Hc; [|done].
    rewrite add_relation_members_with_extras, with_extras_twice.
    simpl. fold (pulled_relations s e objects).
    apply extract_data_eq; simpl; try done; set_solver.
Qed.

Lemma pulled_ways_with_extras e ns objects :
  pulled_ways (with_extras e ns ∅) objects = pulled_ways e objects.
Proof.
  unfold pulled_ways. simpl. by rewrite (right_id_L ∅ (∪)).
Qed.

Lemma region_pass3_with_extras s objects e :
  region_pass new_pass3 s objects e
  = with_extras e (⋃ (way_refs <$> pulled_ways e objects) ∖ node_ids e) ∅.
Proof.
  revert e. induction objects as [|o objects IH]; intros e.
  - unfold region_pass. simpl. symmetry.
    apply extract_data_eq; simpl; try done; set_solver.
  - rewrite region_pass_cons, IH. clear IH.
    destruct o as [n|w|r]; try done.
    unfold region_step. simpl. unfold pass3_eway.
    unfold pulled_ways at 2. simpl.
    destruct (IdSet.get (extra_way_ids e) (way_positive_id w)) eqn:Hc.
    + rewrite add_way_nodes_with_extras, pulled_ways_with_extras, with_extras_twice.
      fold (pulled_ways e objects).
      apply extract_data_eq; simpl; try done; set_solver.
    + by fold (pulled_ways e objects).
Qed.

(** X1: pass 2 never fails and, for every region, adds to the extra points
    and to the extra ways exactly the point members and the way members,
    not primary already, of the relations it reads whose id is an extra
    relation of the region and which are part of a relevant relation
    system; it changes nothing else.  The order of the relations has no
    part in the outcome. *)
Theorem pass2_pulls_members (s : Strategy) (objects : list OSMObject) :
  run_pass s new_pass2 objects
  = (None,
     with_extracts s
       ((λ e, with_extras e
                (⋃ (member_refs node_t <$> pulled_relations s e objects)
                   ∖ node_ids e)
                (⋃ (member_refs way_t <$> pulled_relations s e objects)
                   ∖ way_ids e))
          <$> m_extracts s)).
Proof.
  rewrite run_pass2_regions. do 2 f_equal.
  apply list_fmap_ext. intros i e _. apply region_pass2_with_extras.
Qed.

(** X2: pass 3 never fails and, for every region, adds to the extra points
    exactly the points, not primary already, of the ways it reads whose id
    is an extra way of the region; it changes nothing else. *)
Theorem pass3_pulls_way_nodes (s : Strategy) (objects : list OSMObject) :
  run_pass s new_pass3 objects
  = (None,
     with_extracts s
       ((λ e, with_extras e
                (⋃ (way_refs <$> pulled_ways e objects) ∖ node_ids e) ∅)
          <$> m_extracts s)).
Proof.
  rewrite run_pass3_regions. do 2 f_equal.
  apply list_fmap_ext. intros i e _. apply region_pass3_with_extras.
Qed.

Lemma omap_none {A B} (f : A → option B) l : (∀ x, f x = None) → omap f l = [].
Proof.
  intros Hf. induction l as [|x l IH]; [done|].
  change (omap f (x :: l)) with (match f x with Some y => y :: omap f l | None => omap f l end).
  by rewrite Hf.
Qed.

Lemma pulled_relations_none s e objects :
  extra_relation_ids e = ∅ → pulled_relations s e objects = [].
Proof.
  intros Hempty. apply omap_none. intros [n|w|r]; try done.
  by rewrite Hempty.
Qed.

Lemma pulled_ways_none e objects :
  extra_way_ids e = ∅ → pulled_ways e objects = [].
Proof.
  intros Hempty. apply omap_none. intros [n|w|r]; try done.
  by rewrite Hempty.
Qed.

Lemma any_extract_false f s :
  any_extract f s = false → Forall (λ e, f e = false) (m_extracts s).
Proof.
  unfold any_extract. induction (m_extracts s) as [|e es IH]; [constructor|].
  simpl. intros Hany. apply orb_false_iff in Hany as [He Hes].
  constructor; auto.
Qed.

Lemma fmap_same {A} (f : A → A) l : Forall (λ a, f a = a) l → f <$> l = l.
Proof.
  induction 1 as [|a l Ha _ IH]; [done|]. rewrite fmap_cons. by rewrite Ha, IH.
Qed.

Lemma fmap_same_extracts (f : extract_data → extract_data) s :
  Forall (λ e, f e = e) (m_extracts s) →
  with_extracts s (f <$> m_extracts s) = s.
Proof. intros Hall. rewrite fmap_same by done. apply with_extracts_same. Qed.

(** X3: leaving out pass 2 when no region has an extra relation, and pass 3
    when no region has an extra way, as [run] does, gives the same strategy
    as running them: a pass that is left out would have changed nothing. *)
Theorem skipped_passes_change_nothing (s : Strategy) (objects : list OSMObject) :
  (if any_extract (λ e, negb (IdSet.empty (extra_relation_ids e))) s
   then run_pass s new_pass2 objects else (None, s))
  = run_pass s new_pass2 objects
  ∧ (if any_extract (λ e, negb (IdSet.empty (extra_way_ids e))) s
     then run_pass s new_pass3 objects else (None, s))
    = run_pass s new_pass3 objects.
Proof.
  split.
  - destruct (any_extract _ s) eqn:Hany; [done|].
    rewrite run_pass2_regions. f_equal. symmetry.
    apply fmap_same_extracts.
    eapply Forall_impl; [apply any_extract_false, Hany|].
    intros e He. simpl in He. apply negb_false_iff in He.
    apply bool_decide_eq_true in He.
    rewrite region_pass2_with_extras, pulled_relations_none by done.
    apply extract_data_eq; simpl; try done; set_solver.
  - destruct (any_extract _ s) eqn:Hany; [done|].
    rewrite run_pass3_regions. f_equal. symmetry.
    apply fmap_same_extracts.
    eapply Forall_impl; [apply any_extract_false, Hany|].
    intros e He. simpl in He. apply negb_false_iff in He.
    apply bool_decide_eq_true in He.
    rewrite region_pass3_with_extras, pulled_ways_none by done.
    apply extract_data_eq; simpl; try done; set_solver.
Qed.

(** ** A run, one region at a time *)

Lemma erelation_scan_settings s es e r members :
  erelation_scan (with_extracts s es) e r members = erelation_scan s e r members.
Proof.
  induction members as [|m members IH]; [done|].
  simpl. rewrite IH. reflexivity.
Qed.

Lemma region_step_settings1 s es o e :
  region_step new_pass1 (with_extracts s es) o e = region_step new_pass1 s o e.
Proof.
  destruct o as [n|w|r]; [reflexivity | |].
  - unfold region_step. simpl. unfold pass1_eway. reflexivity.
  - unfold region_step. simpl. unfold pass1_erelation.
    by rewrite erelation_scan_settings.
Qed.

Lemma region_step_settings2 s es o e :
  region_step new_pass2 (with_extracts s es) o e = region_step new_pass2 s o e.
Proof. by destruct o. Qed.

Lemma region_step_settings3 s es o e :
  region_step new_pass3 (with_extracts s es) o e = region_step new_pass3 s o e.
Proof. by destruct o. Qed.

Lemma region_step_settings4 s es o e :
  region_step new_pass4 (with_extracts s es) o e = region_step new_pass4 s o e.
Proof. by destruct o. Qed.

Lemma run_pass1_regions objects s (p : Pass1) p' s' :
  run_impl s p objects = (None, p', s') →
  s' = with_extracts s (region_pass new_pass1 s objects <$> m_extracts s).
Proof.
  apply (run_impl_regions new_pass1); try done.
  apply region_step_settings1.
Qed.

Lemma run_impl_pass1_stash_foldl objects s (p : Pass1) p' s' :
  run_impl s p objects = (None, p', s') →
  m_relations_map_stash p'
  = foldl (λ st o,
             match o with
             | ORelation r =>
                 if is_part_of_relevant_relation_system s r
                 then stash_add_members st r else st
             | _ => st
             end) (m_relations_map_stash p) objects.
Proof.
  revert s p. induction objects as [|o objects IH]; intros s p Hrun.
  - simpl in Hrun. by simplify_eq.
  - simpl in Hrun. destruct (dispatch s p o) as [[p1 s1]|] eqn:Hd; [|done].
    rewrite (IH s1 p1 Hrun).
    destruct (dispatch_filters _ _ _ _ _ Hd) as [es ->]. simpl.
    assert (m_relations_map_stash p1
            = match o with
              | ORelation r =>
                  if is_part_of_relevant_relation_system s r
                  then stash_add_members (m_relations_map_stash p) r
                  else m_relations_map_stash p
              | _ => m_relations_map_stash p
              end) as ->; [|done].
    destruct o as [n|w|r].
    + apply dispatch_node in Hd as (Hp & _). simpl in Hp.
      unfold pass1_node in Hp. destruct (check_node _ _); [|done].
      simpl in Hp. by simplify_eq.
    + apply dispatch_way in Hd as (Hp & _). simpl in Hp.
      unfold pass1_way in Hp. destruct (check_way _ _); [|done].
      simpl in Hp. by simplify_eq.
    + apply dispatch_relation in Hd as (Hp & _). simpl in Hp.
      unfold pass1_relation in Hp. destruct (check_relation _ _); [|done].
      simpl in Hp. by simplify_eq.
Qed.

Lemma add_relation_networks_regions indices s :
  add_relation_networks indices s
  = Ok (with_extracts s
          ((λ e, default e (add_relation_network indices e)) <$> m_extracts s)).
Proof.
  unfold add_relation_networks.
  rewrite (for_each_total _ (λ e, default e (add_relation_network indices e)));
    [done|].
  intros e. by destruct (add_relation_network_is_Some indices e) as [e' ->].
Qed.

Lemma skip_pass2 s objects :
  (if any_extract (λ e, negb (IdSet.empty (extra_relation_ids e))) s
   then run_pass s new_pass2 objects else (None, s))
  = run_pass s new_pass2 objects.
Proof.
  destruct (any_extract _ s) eqn:Hany; [done|].
  rewrite run_pass2_regions. f_equal. symmetry.
  apply fmap_same_extracts.
  eapply Forall_impl; [apply any_extract_false, Hany|].
  intros e He. simpl in He. apply negb_false_iff in He.
  apply bool_decide_eq_true in He.
  rewrite region_pass2_with_extras, pulled_relations_none by done.
  apply extract_data_eq; simpl; try done; set_solver.
Qed.

Lemma skip_pass3 s objects :
  (if any_extract (λ e, negb (IdSet.empty (extra_way_ids e))) s
   then run_pass s new_pass3 objects else (None, s))
  = run_pass s new_pass3 objects.
Proof.
  destruct (any_extract _ s) eqn:Hany; [done|].
  rewrite run_pass3_regions. f_equal. symmetry.
  apply fmap_same_extracts.
  eapply Forall_impl; [apply any_extract_false, Hany|].
  intros e He. simpl in He. apply negb_false_iff in He.
  apply bool_decide_eq_true in He.
  rewrite region_pass3_with_extras, pulled_ways_none by done.
  apply extract_data_eq; simpl; try done; set_solver.
Qed.

(** After pass 1 every region goes its own way. *)
Lemma run_after_pass1_regions s1 p1 input_file :
  run_after_pass1 s1 p1 input_file
  = (None,
     with_extracts s1
       ((λ e1,
           let e2 :=
             default e1
               (add_relation_network (build_indexes (m_relations_map_stash p1)) e1) in
           let e3 := region_pass new_pass2 s1 (reader input_file bits_relation) e2 in
           let e4 := region_pass new_pass3 s1 (reader input_file bits_way) e3 in
           region_pass new_pass4 s1 (reader input_file bits_all) e4)
          <$> m_extracts s1)).
Proof.
  unfold run_after_pass1.
  rewrite add_relation_networks_regions, skip_pass2, run_pass2_regions.
  rewrite skip_pass3, run_pass3_regions, run_pass4_regions.
  simpl. f_equal. f_equal.
  rewrite <- !list_fmap_compose.
  apply list_fmap_ext. intros i e _. simpl.
  rewrite (region_pass_settings new_pass2 region_step_settings2).
  rewrite (region_pass_settings new_pass3 region_step_settings3).
  rewrite (region_pass_settings new_pass4 region_step_settings4).
  done.
Qed.

(** A run that does not fail has treated every region on its own. *)
Lemma run_regions s input_file s' :
  run s input_file = (None, s') →
  s' = with_extracts s (region_run s input_file <$> m_extracts s).
Proof.
  unfold run. destruct (bool_decide _); [done|].
  destruct (run_impl s new_pass1 (reader input_file bits_all))
    as [[f1 p1] s1] eqn:Hrun1.
  destruct f1 as [f|]; [done|].
  rewrite run_after_pass1_regions. intros Hrun. simplify_eq.
  pose proof (run_impl_pass1_stash_foldl _ _ _ _ _ Hrun1) as Hstash.
  apply run_pass1_regions in Hrun1. subst s1. simpl.
  f_equal. rewrite <- list_fmap_compose.
  apply list_fmap_ext. intros i e _. simpl. unfold region_run.
  rewrite (region_pass_settings new_pass2 region_step_settings2).
  rewrite (region_pass_settings new_pass3 region_step_settings3).
  rewrite (region_pass_settings new_pass4 region_step_settings4).
  by rewrite Hstash.
Qed.

(** ** The order of the objects *)

Lemma run_impl_pass1_ordered objects s (p : Pass1) p' s' :
  run_impl s p objects = (None, p', s') →
  (is_Some (m_max_relation_id (m_check_order p)) →
   ∃ rs, objects = ORelation <$> rs)
  ∧ (is_Some (m_max_way_id (m_check_order p)) →
     ∃ ws rs, objects = (OWay <$> ws) ++ (ORelation <$> rs))
  ∧ type_ordered objects.
Proof.
  revert s p. induction objects as [|o objects IH]; intros s p Hrun.
  - split; [by exists []|]. split; [by exists [], []|]. by exists [], [], [].
  - simpl in Hrun. destruct (dispatch s p o) as [[p1 s1]|] eqn:Hd; [|done].
    destruct (IH s1 p1 Hrun) as (Hrel & Hway & Hord).
    destruct o as [n|w|r].
    + apply dispatch_node in Hd as (Hp & _). simpl in Hp.
      unfold pass1_node in Hp.
      destruct (check_node _ _) as [c|] eqn:Hc; [|done].
      simpl in Hp. simplify_eq.
      apply check_node_Ok in Hc as (Hw & Hr & _).
      split; [rewrite Hr; by intros [? ?]|].
      split; [rewrite Hw; by intros [? ?]|].
      destruct Hord as (ns & ws & rs & ->).
      by exists (n :: ns), ws, rs.
    + apply dispatch_way in Hd as (Hp & _). simpl in Hp.
      unfold pass1_way in Hp.
      destruct (check_way _ _) as [c|] eqn:Hc; [|done].
      simpl in Hp. simplify_eq.
      apply check_way_Ok in Hc as (Hr & _ & Hw').
      destruct (Hway Hw') as (ws' & rs' & ->).
      split; [rewrite Hr; by intros [? ?]|].
      split; [by exists (w :: ws'), rs'|].
      by exists [], (w :: ws'), rs'.
    + apply dispatch_relation in Hd as (Hp & _). simpl in Hp.
      unfold pass1_relation in Hp.
      destruct (check_relation _ _) as [c|] eqn:Hc; [|done].
      simpl in Hp. simplify_eq.
      apply check_relation_Ok in Hc.
      destruct (Hrel Hc) as (rs' & ->).
      split; [by exists (r :: rs')|].
      split; [by exists [], (r :: rs')|].
      by exists [], [], (r :: rs').
Qed.

(** ** Pass 1, phase by phase *)

Lemma region_step1_node s n e :
  region_step new_pass1 s (ONode n) e
  = if decide (node_taken e n) then set_node_ids (node_positive_id n) e else e.
Proof.
  unfold region_step. simpl. unfold pass1_enode.
  destruct (decide (node_taken e n)) as [Hn|Hn]; unfold node_taken in Hn.
  - by rewrite Hn.
  - apply not_true_is_false in Hn. by rewrite Hn.
Qed.

Lemma region_step1_way s w e :
  region_step new_pass1 s (OWay w) e
  = if decide (way_taken s e w) then include_way e w else e.
Proof.
  unfold region_step. simpl. unfold pass1_eway.
  destruct (decide (way_taken s e w)) as [Hw|Hw];
    unfold way_taken, primary_ref in Hw;
    destruct (m_by_first_node s).
  - destruct (head (way_nodes w)) as [first_node|]; [|done].
    assert (IdSet.get (node_ids e) (nr_positive_ref first_node)
            && negb (has_conflicting_tags (m_extract e) (way_tags w))
            || has_matching_tags (m_extract e) (way_tags w) = true) as ->.
    { destruct Hw as [[Hf Hc]|Hm].
      - apply IdSet_get_true in Hf. by rewrite Hf, Hc.
      - rewrite Hm. apply orb_true_r. }
    apply add_way_nodes_include_way.
  - by apply eway_scan_primary.
  - destruct (head (way_nodes w)) as [first_node|]; [|done].
    assert (IdSet.get (node_ids e) (nr_positive_ref first_node)
            && negb (has_conflicting_tags (m_extract e) (way_tags w))
            || has_matching_tags (m_extract e) (way_tags w) = false) as ->; [|done].
    apply not_true_is_false. intros Hc. apply Hw.
    apply orb_true_iff in Hc as [Hc|Hc]; [left | by right].
    apply andb_true_iff in Hc as [H1 H2].
    split; [by apply IdSet_get_true | by apply negb_true_iff].
  - by apply eway_scan_no_primary.
Qed.

Lemma region_step1_relation s r e :
  region_step new_pass1 s (ORelation r) e
  = if decide (relation_taken e r)
    then include_relation
           (is_relevant_relation s r || is_part_of_relevant_relation_system s r) e r
    else e.
Proof.
  unfold region_step. simpl. unfold pass1_erelation.
  destruct (decide (relation_taken e r)) as [Hr|Hr]; unfold relation_taken in Hr.
  - rewrite erelation_scan_primary by done. apply accept_relation_include.
  - by apply erelation_scan_no_primary.
Qed.

Lemma region_pass1_nodes s ns e :
  region_pass new_pass1 s (ONode <$> ns) e
  = with_primaries e
      (list_to_set (node_positive_id <$> filter (node_taken e) ns)) ∅ ∅.
Proof.
  revert e. induction ns as [|n ns IH]; intros e.
  - apply extract_data_eq; simpl; try done; set_solver.
  - rewrite fmap_cons, region_pass_cons, IH, region_step1_node, filter_cons.
    destruct (decide (node_taken e n)) as [Hn|Hn].
    + rewrite (list_filter_iff _ (node_taken e)) by done.
      apply extract_data_eq; simpl; try done; unfold IdSet.set; set_solver.
    + apply extract_data_eq; simpl; try done; set_solver.
Qed.

Lemma region_pass1_ways s ws e :
  region_pass new_pass1 s (OWay <$> ws) e
  = with_extras
      (with_primaries e ∅
         (list_to_set (way_positive_id <$> filter (way_taken s e) ws)) ∅)
      (⋃ (way_refs <$> filter (way_taken s e) ws) ∖ node_ids e) ∅.
Proof.
  revert e. induction ws as [|w ws IH]; intros e.
  - apply extract_data_eq; simpl; try done; set_solver.
  - rewrite fmap_cons, region_pass_cons, IH, region_step1_way, filter_cons.
    destruct (decide (way_taken s e w)) as [Hw|Hw].
    + rewrite (list_filter_iff _ (way_taken s e)) by done.
      apply extract_data_eq; simpl; try done; unfold IdSet.set; set_solver.
    + apply extract_data_eq; simpl; try done; set_solver.
Qed.

Lemma relation_taken_include pull e r r' :
  relation_taken (include_relation pull e r) r' ↔ relation_taken e r'.
Proof. by destruct pull. Qed.

Lemma relation_pulled_include s pull e r r' :
  relation_pulled s (include_relation pull e r) r' ↔ relation_pulled s e r'.
Proof. by destruct pull. Qed.

Lemma region_pass1_relations s rs e :
  region_pass new_pass1 s (ORelation <$> rs) e
  = with_extras
      (with_primaries e ∅ ∅
         (list_to_set (relation_positive_id <$> filter (relation_taken e) rs)))
      (⋃ (member_refs node_t <$> filter (relation_pulled s e) rs) ∖ node_ids e)
      (⋃ (member_refs way_t <$> filter (relation_pulled s e) rs) ∖ way_ids e).
Proof.
  revert e. induction rs as [|r rs IH]; intros e.
  - apply extract_data_eq; simpl; try done; set_solver.
  - rewrite fmap_cons, region_pass_cons, IH, region_step1_relation, !filter_cons.
    destruct (decide (relation_taken e r)) as [Hr|Hr].
    + rewrite (list_filter_iff _ (relation_taken e))
        by (intros; apply relation_taken_include).
      rewrite !(list_filter_iff (relation_pulled s _) (relation_pulled s e))
        by (intros; apply relation_pulled_include).
      destruct (decide (relation_pulled s e r)) as [Hp|Hp].
      * destruct Hp as [_ Hp]. rewrite Hp. unfold include_relation.
        apply extract_data_eq; simpl; try done; unfold IdSet.set; set_solver.
      * assert (is_relevant_relation s r || is_part_of_relevant_relation_system s r
                = false) as ->
          by (apply not_true_is_false; intros Hpull; apply Hp; by split).
        unfold include_relation.
        apply extract_data_eq; simpl; try done; unfold IdSet.set; set_solver.
    + rewrite !decide_False by (intros [? _]; done).
      apply extract_data_eq; simpl; try done; set_solver.
Qed.

(** ** The stages of a run in one region *)

Lemma region_pass_app `{Pass P} (p : P) s objects1 objects2 e :
  region_pass p s (objects1 ++ objects2) e
  = region_pass p s objects2 (region_pass p s objects1 e).
Proof. unfold region_pass. apply foldl_app. Qed.

Lemma region_pass4_write s objects e :
  region_pass new_pass4 s objects e = write_selected objects e.
Proof.
  revert e. induction objects as [|o objects IH]; intros e.
  - by rewrite write_selected_nil.
  - rewrite region_pass_cons, IH, <- write_selected_cons. f_equal.
    unfold region_step. destruct o as [n|w|r]; simpl.
    + by rewrite pass4_enode_write.
    + by rewrite pass4_eway_write.
    + by rewrite pass4_erelation_write.
Qed.

Lemma region_run_stages s input_file e :
  ∃ e1 e2 e3 e4,
    e1 = region_pass new_pass1 s (contents input_file) e
    ∧ add_relation_network
        (build_indexes (pass1_stash s (contents input_file))) e1 = Some e2
    ∧ e2 = with_extra_relations e1 (extra_relation_ids e2)
    ∧ e3 = with_extras e2
             (⋃ (member_refs node_t
                   <$> pulled_relations s e2 (reader input_file bits_relation))
                ∖ node_ids e2)
             (⋃ (member_refs way_t
                   <$> pulled_relations s e2 (reader input_file bits_relation))
                ∖ way_ids e2)
    ∧ e4 = with_extras e3
             (⋃ (way_refs <$> pulled_ways e3 (reader input_file bits_way))
                ∖ node_ids e3) ∅
    ∧ region_run s input_file e = write_selected (contents input_file) e4.
Proof.
  unfold region_run. rewrite reader_all.
  set (e1 := region_pass new_pass1 s (contents input_file) e).
  destruct (add_relation_network_is_Some
              (build_indexes (pass1_stash s (contents input_file))) e1)
    as [e2 Hrun].
  exists e1, e2. eexists. eexists.
  split; [done|]. split; [done|].
  split; [apply (network_loop_inv _ _ _ _ Hrun)|].
  split; [reflexivity|]. split; [reflexivity|].
  rewrite Hrun. simpl.
  by rewrite region_pass4_write, region_pass3_with_extras, region_pass2_with_extras.
Qed.

(** Pass 1 leaves the region, the extra relations and the output alone. *)
Lemma region_step1_keeps s o e :
  m_extract (region_step new_pass1 s o e) = m_extract e
  ∧ extra_relation_ids (region_step new_pass1 s o e) = extra_relation_ids e
  ∧ written (region_step new_pass1 s o e) = written e.
Proof.
  destruct o as [n|w|r].
  - rewrite region_step1_node. by destruct (decide _).
  - rewrite region_step1_way. by destruct (decide _).
  - rewrite region_step1_relation. destruct (decide _); [|done].
    unfold include_relation. by destruct (_ || _).
Qed.

Lemma region_pass1_keeps s objects e :
  m_extract (region_pass new_pass1 s objects e) = m_extract e
  ∧ extra_relation_ids (region_pass new_pass1 s objects e) = extra_relation_ids e
  ∧ written (region_pass new_pass1 s objects e) = written e.
Proof.
  revert e. induction objects as [|o objects IH]; intros e; [done|].
  rewrite region_pass_cons.
  destruct (IH (region_step new_pass1 s o e)) as (-> & -> & ->).
  apply region_step1_keeps.
Qed.

Lemma elem_of_pass1_stash s objects a b :
  (a, b) ∈ pass1_stash s objects ↔ system_edge s objects a b.
Proof.
  unfold pass1_stash.
  assert (∀ st,
            (a, b) ∈ foldl (λ st o,
                             match o with
                             | ORelation r =>
                                 if is_part_of_relevant_relation_system s r
                                 then stash_add_members st r else st
                             | _ => st
                             end) st objects
            ↔ (a, b) ∈ st ∨ system_edge s objects a b) as Hgen.
  { induction objects as [|o objects IH]; intros st.
    - simpl. split; [by left|].
      intros [H|(r & m & Hr & _)]; [done|]. by apply elem_of_nil in Hr.
    - simpl. rewrite IH, system_edge_cons. clear IH.
      assert ((a, b) ∈ match o with
                       | ORelation r =>
                           if is_part_of_relevant_relation_system s r
                           then stash_add_members st r else st
                       | _ => st
                       end
              ↔ (a, b) ∈ st ∨ system_edge s [o] a b) as ->; [|tauto].
      destruct o as [n|w|r].
      + split; [by left|]. intros [H|(r & m & Hr & _)]; [done|].
        by apply list_elem_of_singleton in Hr.
      + split; [by left|]. intros [H|(r & m & Hr & _)]; [done|].
        by apply list_elem_of_singleton in Hr.
      + destruct (is_part_of_relevant_relation_system s r) eqn:Hsys.
        * rewrite elem_of_stash_add_members. unfold system_edge. split.
          -- intros [H|(Hb & m & Hm & Ht & Ha)]; [by left|].
             right. exists r, m. split; [left|done].
          -- intros [H|(r' & m & Hr & Hs & Hm & Ht & Ha & Hb)]; [by left|].
             apply list_elem_of_singleton in Hr. simplify_eq.
             right. split; [done|]. by exists m.
        * split; [by left|].
          intros [H|(r' & m & Hr & Hs & _)]; [done|].
          apply list_elem_of_singleton in Hr. simplify_eq. congruence. }
  rewrite Hgen. split; [|by right]. intros [H|H]; [|done].
  by apply elem_of_nil in H.
Qed.

Lemma connected_pass1_stash s objects p r :
  connected (pass1_stash s objects) p r ↔ rtc (system_linked s objects) p r.
Proof.
  unfold connected.
  split; intros Hpr; eapply rtc_subrel; try exact Hpr; intros x y;
    unfold linked, system_linked; rewrite !elem_of_pass1_stash; done.
Qed.

(** ** What the sets of a region hold when a run ends *)

Lemma node_taken_ext e e' n :
  m_extract e = m_extract e' → node_taken e n ↔ node_taken e' n.
Proof. unfold node_taken. by intros ->. Qed.

Lemma way_taken_ext s e e' w :
  m_extract e = m_extract e' → node_ids e = node_ids e' →
  way_taken s e w ↔ way_taken s e' w.
Proof. unfold way_taken, primary_ref. by intros -> ->. Qed.

Lemma relation_taken_ext e e' r :
  node_ids e = node_ids e' → way_ids e = way_ids e' →
  relation_taken e r ↔ relation_taken e' r.
Proof. unfold relation_taken, primary_member. by intros -> ->. Qed.

Lemma relation_pulled_ext s e e' r :
  node_ids e = node_ids e' → way_ids e = way_ids e' →
  relation_pulled s e r ↔ relation_pulled s e' r.
Proof.
  intros Hn Hw. unfold relation_pulled.
  by rewrite (relation_taken_ext e e' r Hn Hw).
Qed.

Lemma pulled_relations_ext s e e' objects :
  extra_relation_ids e = extra_relation_ids e' →
  pulled_relations s e objects = pulled_relations s e' objects.
Proof. unfold pulled_relations. by intros ->. Qed.

Lemma pulled_ways_ext e e' objects :
  extra_way_ids e = extra_way_ids e' →
  pulled_ways e objects = pulled_ways e' objects.
Proof. unfold pulled_ways. by intros ->. Qed.

Lemma reader_ordered input_file ns ws rs :
  contents input_file = (ONode <$> ns) ++ (OWay <$> ws) ++ (ORelation <$> rs) →
  reader input_file bits_way = OWay <$> ws
  ∧ reader input_file bits_relation = ORelation <$> rs.
Proof.
  intros Hc. unfold reader. rewrite Hc, !filter_app. clear Hc.
  assert (∀ bits, bits node_t = false →
            filter (λ o, bits (object_type o) = true) (ONode <$> ns) = []) as Hn.
  { intros bits Hb. induction ns as [|n ns' IH]; [done|].
    rewrite fmap_cons, filter_cons_False; [done|]. simpl. by rewrite Hb. }
  assert (∀ bits b, bits way_t = b →
            filter (λ o, bits (object_type o) = true) (OWay <$> ws)
            = if b then OWay <$> ws else []) as Hw.
  { intros bits b Hb. induction ws as [|w ws' IH]; [by destruct b|].
    rewrite fmap_cons. destruct b.
    - rewrite filter_cons_True by done. by rewrite IH.
    - rewrite filter_cons_False; [done|]. simpl. by rewrite Hb. }
  assert (∀ bits b, bits relation_t = b →
            filter (λ o, bits (object_type o) = true) (ORelation <$> rs)
            = if b then ORelation <$> rs else []) as Hr.
  { intros bits b Hb. induction rs as [|r rs' IH]; [by destruct b|].
    rewrite fmap_cons. destruct b.
    - rewrite filter_cons_True by done. by rewrite IH.
    - rewrite filter_cons_False; [done|]. simpl. by rewrite Hb. }
  split.
  - rewrite (Hn bits_way), (Hw bits_way true), (Hr bits_way false) by done.
    by rewrite app_nil_r.
  - by rewrite (Hn bits_relation), (Hw bits_relation false),
      (Hr bits_relation true) by done.
Qed.

(** The sets and the output of a fresh region when a run over objects in
    the order points, ways, relations has gone through. *)
Lemma region_run_fresh s input_file x ns ws rs e' :
  contents input_file = (ONode <$> ns) ++ (OWay <$> ws) ++ (ORelation <$> rs) →
  e' = region_run s input_file (new_extract_data x) →
  m_extract e' = x
  ∧ node_ids e' = list_to_set (node_positive_id <$> filter (node_taken e') ns)
  ∧ way_ids e' = list_to_set (way_positive_id <$> filter (way_taken s e') ws)
  ∧ relation_ids e'
    = list_to_set (relation_positive_id <$> filter (relation_taken e') rs)
  ∧ (∀ r, r ∈ extra_relation_ids e'
          ↔ (r ∉ relation_ids e')
            ∧ ∃ p, p ∈ relation_ids e'
                   ∧ rtc (system_linked s (contents input_file)) p r)
  ∧ extra_way_ids e'
    = (⋃ (member_refs way_t <$> filter (relation_pulled s e') rs)
       ∪ ⋃ (member_refs way_t <$> pulled_relations s e' (ORelation <$> rs)))
      ∖ way_ids e'
  ∧ extra_node_ids e'
    = (⋃ (way_refs <$> filter (way_taken s e') ws)
       ∪ ⋃ (member_refs node_t <$> filter (relation_pulled s e') rs)
       ∪ ⋃ (member_refs node_t <$> pulled_relations s e' (ORelation <$> rs))
       ∪ ⋃ (way_refs <$> pulled_ways e' (OWay <$> ws)))
      ∖ node_ids e'
  ∧ written e' = filter (selected e') (contents input_file).
Proof.
  intros Hc He'.
  destruct (region_run_stages s input_file (new_extract_data x))
    as (e1 & e2 & e3 & e4 & He1 & Hnet & He2 & He3 & He4 & Hrun).
  destruct (reader_ordered _ _ _ _ Hc) as [Hways Hrels].
  rewrite Hways, Hrels in *. clear Hways Hrels.
  rewrite <- He' in Hrun. clear He'.
  rewrite Hc, !region_pass_app, region_pass1_nodes, region_pass1_ways,
    region_pass1_relations in He1.
  remember (new_extract_data x) as e0 eqn:He0.
  remember (with_primaries e0
              (list_to_set (node_positive_id <$> filter (node_taken e0) ns)) ∅ ∅)
    as eN eqn:HeN.
  remember (with_extras
              (with_primaries eN ∅
                 (list_to_set (way_positive_id <$> filter (way_taken s eN) ws)) ∅)
              (⋃ (way_refs <$> filter (way_taken s eN) ws) ∖ node_ids eN) ∅)
    as eW eqn:HeW.
  assert (extra_relation_ids e1 = ∅) as Hempty
    by (by rewrite He1, HeW, HeN, He0).
  destruct (add_relation_network_reachable
              (build_indexes (pass1_stash s (contents input_file))) e1 Hempty)
    as (e2' & Hnet' & _ & Hclosure).
  rewrite Hnet in Hnet'. injection Hnet' as Heq. subst e2'.
  remember (extra_relation_ids e2) as ER eqn:HER.
  assert (m_extract e' = x) as Hx
    by (by rewrite Hrun, He4, He3, He2, He1, HeW, HeN, He0).
  assert (m_extract e0 = m_extract e') as Hx0 by (by rewrite Hx, He0).
  assert (m_extract eN = m_extract e') as HxN by (by rewrite Hx, HeN, He0).
  assert (node_ids eN = node_ids e') as HN.
  { rewrite Hrun, He4, He3, He2, He1, HeW. simpl. apply set_eq; intros id; set_unfold; tauto. }
  assert (node_ids eW = node_ids e') as HNW.
  { rewrite <- HN, HeW. simpl. apply set_eq; intros id; set_unfold; tauto. }
  assert (way_ids eW = way_ids e') as HW.
  { rewrite Hrun, He4, He3, He2, He1. simpl. apply set_eq; intros id; set_unfold; tauto. }
  assert (relation_ids e1 = relation_ids e') as HR
    by (by rewrite Hrun, He4, He3, He2).
  assert (extra_relation_ids e2 = extra_relation_ids e') as HXR.
  { rewrite Hrun, He4, He3. done. }
  assert (extra_way_ids e3 = extra_way_ids e') as HXW.
  { rewrite Hrun, He4. simpl. apply set_eq; intros id; set_unfold; tauto. }
  rewrite (list_filter_iff (node_taken e0) (node_taken e')) in HeN
    by (intros; by apply node_taken_ext).
  rewrite !(list_filter_iff (way_taken s eN) (way_taken s e')) in HeW
    by (intros; by apply way_taken_ext).
  rewrite (list_filter_iff (relation_taken eW) (relation_taken e')) in He1
    by (intros; by apply relation_taken_ext).
  rewrite !(list_filter_iff (relation_pulled s eW) (relation_pulled s e')) in He1
    by (intros; by apply relation_pulled_ext).
  rewrite !(pulled_relations_ext s e2 e') in He3 by done.
  rewrite (pulled_ways_ext e3 e') in He4 by done.
  split; [done|].
  split. { rewrite <- HN, HeN, He0. simpl. apply set_eq; intros id; set_unfold; tauto. }
  split. { rewrite <- HW, HeW, HeN, He0. simpl. apply set_eq; intros id; set_unfold; tauto. }
  split. { rewrite <- HR, He1, HeW, HeN, He0. simpl. apply set_eq; intros id; set_unfold; tauto. }
  split.
  { intros r. rewrite <- HXR, <- HR, <- HER, Hclosure, reachable_connected.
    by setoid_rewrite connected_pass1_stash. }
  split.
  { rewrite <- HXW, <- HW, He3, He2, He1, HeW, HeN, He0. simpl. apply set_eq; intros id; set_unfold; tauto. }
  split.
  { rewrite <- HN. rewrite Hrun at 1. rewrite He4, He3, He2, He1, HeW, HeN, He0.
    simpl. apply set_eq; intros id; set_unfold; tauto. }
  assert (written e4 = []) as Hout
    by (by rewrite He4, He3, He2, He1, HeW, HeN, He0).
  rewrite (list_filter_iff (selected e') (selected e4))
    by (intros o; rewrite Hrun; by destruct o).
  rewrite Hrun at 1. unfold write_selected. simpl. by rewrite Hout.
Qed.

Lemma elem_of_ids_of {A} (f : A → N) (P : A → Prop) `{!∀ a, Decision (P a)}
  (l : list A) id :
  id ∈ (list_to_set (f <$> filter P l) : IdSet.t) ↔ ∃ a, a ∈ l ∧ P a ∧ id = f a.
Proof.
  rewrite elem_of_list_to_set, list_elem_of_fmap. split.
  - intros (a & -> & Ha). apply list_elem_of_filter in Ha as [HP Ha]. by exists a.
  - intros (a & Ha & HP & ->). exists a. split; [done|].
    by apply list_elem_of_filter.
Qed.

Lemma elem_of_refs_of {A} (g : A → IdSet.t) (l : list A) id :
  id ∈ ⋃ (g <$> l) ↔ ∃ a, a ∈ l ∧ id ∈ g a.
Proof.
  rewrite elem_of_union_list. split.
  - intros (X & HX & Hid). apply list_elem_of_fmap in HX as (a & -> & Ha).
    by exists a.
  - intros (a & Ha & Hid). exists (g a). split; [|done].
    apply list_elem_of_fmap. by exists a.
Qed.

Lemma elem_of_pulled_relations s e objects r :
  r ∈ pulled_relations s e objects
  ↔ ORelation r ∈ objects
    ∧ relation_positive_id r ∈ extra_relation_ids e
    ∧ is_part_of_relevant_relation_system s r = true.
Proof.
  unfold pulled_relations. rewrite list_elem_of_omap. split.
  - intros ([n|w|r'] & Ho & Hr); try done.
    destruct (IdSet.get _ _ && _) eqn:Hc; [|done]. simplify_eq.
    apply andb_true_iff in Hc as [Hc1 Hc2]. apply IdSet_get_true in Hc1. done.
  - intros (Ho & Hid & Hsys). exists (ORelation r). split; [done|].
    apply IdSet_get_true in Hid. by rewrite Hid, Hsys.
Qed.

Lemma elem_of_pulled_ways e objects w :
  w ∈ pulled_ways e objects
  ↔ OWay w ∈ objects ∧ way_positive_id w ∈ extra_way_ids e.
Proof.
  unfold pulled_ways. rewrite list_elem_of_omap. split.
  - intros ([n|w'|r] & Ho & Hw); try done.
    destruct (IdSet.get _ _) eqn:Hc; [|done]. simplify_eq.
    apply IdSet_get_true in Hc. done.
  - intros (Ho & Hid). exists (OWay w). split; [done|].
    apply IdSet_get_true in Hid. by rewrite Hid.
Qed.

Lemma elem_of_ordered ns ws rs :
  (∀ n, ONode n ∈ (ONode <$> ns) ++ (OWay <$> ws) ++ (ORelation <$> rs) ↔ n ∈ ns)
  ∧ (∀ w, OWay w ∈ (ONode <$> ns) ++ (OWay <$> ws) ++ (ORelation <$> rs) ↔ w ∈ ws)
  ∧ (∀ r, ORelation r ∈ (ONode <$> ns) ++ (OWay <$> ws) ++ (ORelation <$> rs)
          ↔ r ∈ rs)
  ∧ (∀ w, OWay w ∈ OWay <$> ws ↔ w ∈ ws)
  ∧ (∀ r, ORelation r ∈ ORelation <$> rs ↔ r ∈ rs).
Proof.
  repeat split; intros Hin;
    rewrite ?elem_of_app, ?list_elem_of_fmap in *;
    naive_solver.
Qed.

(** A run that goes through has read its objects in the order points, ways,
    relations, and leaves for every region of the constructor the state
    that region reaches on its own. *)
Lemma run_fresh_regions (Q : Extract → extract_data → Prop)
  extracts relations system by_first_node input_file s' :
  (∀ ns ws rs x,
     contents input_file = (ONode <$> ns) ++ (OWay <$> ws) ++ (ORelation <$> rs) →
     Q x (region_run (new_strategy extracts relations system by_first_node)
            input_file (new_extract_data x))) →
  run (new_strategy extracts relations system by_first_node) input_file
  = (None, s') →
  Forall2 Q extracts (m_extracts s').
Proof.
  intros HQ Hrun.
  assert (type_ordered (contents input_file)) as (ns & ws & rs & Hc).
  { unfold run in Hrun. destruct (bool_decide _); [done|].
    destruct (run_impl _ new_pass1 _) as [[f1 p1] s1] eqn:Hrun1.
    destruct f1 as [f|]; [done|]. rewrite reader_all in Hrun1.
    by apply run_impl_pass1_ordered in Hrun1 as (_ & _ & Hord). }
  apply run_regions in Hrun. subst s'. simpl.
  apply Forall2_fmap_r, Forall2_fmap_r, Forall_Forall2_diag, Forall_forall.
  intros x _. by eapply HQ.
Qed.

Lemma Forall2_right {A B} (Q : B → Prop) (l : list A) (k : list B) :
  Forall2 (λ _ y, Q y) l k → Forall Q k.
Proof. induction 1; by constructor. Qed.

Lemma run_fresh_each (Q : extract_data → Prop)
  extracts relations system by_first_node input_file s' :
  (∀ ns ws rs x,
     contents input_file = (ONode <$> ns) ++ (OWay <$> ws) ++ (ORelation <$> rs) →
     Q (region_run (new_strategy extracts relations system by_first_node)
          input_file (new_extract_data x))) →
  run (new_strategy extracts relations system by_first_node) input_file
  = (None, s') →
  Forall Q (m_extracts s').
Proof.
  intros HQ Hrun.
  apply (run_fresh_regions (λ _ e', Q e')) in Hrun; [|done].
  by apply Forall2_right in Hrun.
Qed.

Lemma route_run_goes_through :
  run (new_strategy [sample_extract] no_rules route_rules false) route_file
  = (None, (run route_strategy route_file).2).
Proof. vm_compute. reflexivity. Qed.


(** The same, id by id and object by object. *)
Lemma region_run_members s input_file x ns ws rs e' :
  contents input_file = (ONode <$> ns) ++ (OWay <$> ws) ++ (ORelation <$> rs) →
  e' = region_run s input_file (new_extract_data x) →
  m_extract e' = x
  ∧ (∀ id, id ∈ node_ids e'
           ↔ ∃ n, ONode n ∈ contents input_file
                  ∧ contains x (node_location n) = true
                  ∧ id = node_positive_id n)
  ∧ (∀ id, id ∈ way_ids e'
           ↔ ∃ w, OWay w ∈ contents input_file
                  ∧ way_taken s e' w
                  ∧ id = way_positive_id w)
  ∧ (∀ id, id ∈ relation_ids e'
           ↔ ∃ r, ORelation r ∈ contents input_file
                  ∧ relation_taken e' r
                  ∧ id = relation_positive_id r)
  ∧ (∀ id, id ∈ extra_relation_ids e'
           ↔ (id ∉ relation_ids e')
             ∧ ∃ p, p ∈ relation_ids e'
                    ∧ rtc (system_linked s (contents input_file)) p id)
  ∧ (∀ id, id ∈ extra_way_ids e'
           ↔ (id ∉ way_ids e')
             ∧ ∃ r, ORelation r ∈ contents input_file
                    ∧ members_pulled s e' r
                    ∧ id ∈ member_refs way_t r)
  ∧ (∀ id, id ∈ extra_node_ids e'
           ↔ (id ∉ node_ids e')
             ∧ ((∃ w, OWay w ∈ contents input_file
                      ∧ (way_taken s e' w ∨ way_positive_id w ∈ extra_way_ids e')
                      ∧ id ∈ way_refs w)
                ∨ (∃ r, ORelation r ∈ contents input_file
                        ∧ members_pulled s e' r
                        ∧ id ∈ member_refs node_t r)))
  ∧ written e' = filter (selected e') (contents input_file).
Proof.
  intros Hc He'.
  destruct (region_run_fresh s input_file x ns ws rs e' Hc He')
    as (Hx & Hn & Hw & Hr & Hxr & Hxw & Hxn & Hout).
  destruct (elem_of_ordered ns ws rs) as (Hns & Hws & Hrs & Hws' & Hrs').
  split; [done|].
  split; [|split; [|split; [|split; [|split; [|split]]]]]; try done.
  - intros id. rewrite Hn, elem_of_ids_of. unfold node_taken. rewrite Hx, Hc.
    by setoid_rewrite Hns.
  - intros id. rewrite Hw, elem_of_ids_of, Hc. by setoid_rewrite Hws.
  - intros id. rewrite Hr, elem_of_ids_of, Hc. by setoid_rewrite Hrs.
  - intros id. rewrite Hxw, Hc, elem_of_difference, elem_of_union.
    rewrite !elem_of_refs_of. unfold members_pulled.
    setoid_rewrite list_elem_of_filter.
    setoid_rewrite elem_of_pulled_relations.
    setoid_rewrite Hrs. setoid_rewrite Hrs'.
    naive_solver.
  - intros id. rewrite Hxn, Hc, elem_of_difference, !elem_of_union.
    rewrite !elem_of_refs_of. unfold members_pulled.
    setoid_rewrite list_elem_of_filter.
    setoid_rewrite elem_of_pulled_relations.
    setoid_rewrite elem_of_pulled_ways.
    setoid_rewrite Hrs. setoid_rewrite Hrs'.
    setoid_rewrite Hws. setoid_rewrite Hws'.
    naive_solver.
Qed.

(** X4: after a run that went through, the primary points of every region
    are the ids of the points of the input that lie inside the region. *)
Theorem run_primary_points extracts relations system by_first_node input_file s' :
  run (new_strategy extracts relations system by_first_node) input_file
  = (None, s') →
  Forall2
    (λ x e',
       m_extract e' = x
       ∧ ∀ id, id ∈ node_ids e'
               ↔ ∃ n, ONode n ∈ contents input_file
                      ∧ contains x (node_location n) = true
                      ∧ id = node_positive_id n)
    extracts (m_extracts s').
Proof.
  apply run_fresh_regions. intros ns ws rs x Hc.
  destruct (region_run_members
              (new_strategy extracts relations system by_first_node)
              input_file x ns ws rs _ Hc eq_refl)
    as (Hx & Hn & Hw & Hr & Hxr & Hxw & Hxn & Hout).
  done.
Qed.

Lemma run_primary_points_witness :
  Forall2
    (λ x e',
       m_extract e' = x
       ∧ ∀ id, id ∈ node_ids e'
               ↔ ∃ n, ONode n ∈ contents route_file
                      ∧ contains x (node_location n) = true
                      ∧ id = node_positive_id n)
    [sample_extract] (m_extracts (run route_strategy route_file).2).
Proof.
  apply (run_primary_points [sample_extract] no_rules route_rules false route_file).
  apply route_run_goes_through.
Defined.

(** X5: after a run that went through, the primary ways of every region
    are the ids of the ways of the input that pass 1 takes: with
    [by_first_node] those whose first point is primary while the tags do
    not conflict, or whose tags match; otherwise those with a primary
    point among their points. *)
Theorem run_primary_ways extracts relations system by_first_node input_file s' :
  run (new_strategy extracts relations system by_first_node) input_file
  = (None, s') →
  Forall
    (λ e',
       ∀ id, id ∈ way_ids e'
             ↔ ∃ w, OWay w ∈ contents input_file
                    ∧ way_taken
                        (new_strategy extracts relations system by_first_node) e' w
                    ∧ id = way_positive_id w)
    (m_extracts s').
Proof.
  apply run_fresh_each. intros ns ws rs x Hc.
  destruct (region_run_members
              (new_strategy extracts relations system by_first_node)
              input_file x ns ws rs _ Hc eq_refl)
    as (Hx & Hn & Hw & Hr & Hxr & Hxw & Hxn & Hout).
  exact Hw.
Qed.

Lemma run_primary_ways_witness :
  Forall
    (λ e',
       ∀ id, id ∈ way_ids e'
             ↔ ∃ w, OWay w ∈ contents route_file
                    ∧ way_taken route_strategy e' w
                    ∧ id = way_positive_id w)
    (m_extracts (run route_strategy route_file).2).
Proof.
  apply (run_primary_ways [sample_extract] no_rules route_rules false route_file).
  apply route_run_goes_through.
Defined.

(** X6: after a run that went through, the primary relations of every
    region are the ids of the relations of the input with a primary point
    or a primary way among their members, whatever their tags. *)
Theorem run_primary_relations extracts relations system by_first_node input_file s' :
  run (new_strategy extracts relations system by_first_node) input_file
  = (None, s') →
  Forall
    (λ e',
       ∀ id, id ∈ relation_ids e'
             ↔ ∃ r, ORelation r ∈ contents input_file
                    ∧ relation_taken e' r
                    ∧ id = relation_positive_id r)
    (m_extracts s').
Proof.
  apply run_fresh_each. intros ns ws rs x Hc.
  destruct (region_run_members
              (new_strategy extracts relations system by_first_node)
              input_file x ns ws rs _ Hc eq_refl)
    as (Hx & Hn & Hw & Hr & Hxr & Hxw & Hxn & Hout).
  exact Hr.
Qed.

Lemma run_primary_relations_witness :
  Forall
    (λ e',
       ∀ id, id ∈ relation_ids e'
             ↔ ∃ r, ORelation r ∈ contents route_file
                    ∧ relation_taken e' r
                    ∧ id = relation_positive_id r)
    (m_extracts (run route_strategy route_file).2).
Proof.
  apply (run_primary_relations [sample_extract] no_rules route_rules false route_file).
  apply route_run_goes_through.
Defined.

(** X7: after a run that went through, the extra relations of every region
    are the ids that are not primary relations and that a chain of system
    links joins to a primary relation, a link joining a relation that is
    part of a relevant relation system with each of its members of type
    relation. *)
Theorem run_extra_relations extracts relations system by_first_node input_file s' :
  run (new_strategy extracts relations system by_first_node) input_file
  = (None, s') →
  Forall
    (λ e',
       ∀ id, id ∈ extra_relation_ids e'
             ↔ (id ∉ relation_ids e')
               ∧ ∃ p, p ∈ relation_ids e'
                      ∧ rtc (system_linked
                               (new_strategy extracts relations system by_first_node)
                               (contents input_file)) p id)
    (m_extracts s').
Proof.
  apply run_fresh_each. intros ns ws rs x Hc.
  destruct (region_run_members
              (new_strategy extracts relations system by_first_node)
              input_file x ns ws rs _ Hc eq_refl)
    as (Hx & Hn & Hw & Hr & Hxr & Hxw & Hxn & Hout).
  exact Hxr.
Qed.

Lemma run_extra_relations_witness :
  Forall
    (λ e',
       ∀ id, id ∈ extra_relation_ids e'
             ↔ (id ∉ relation_ids e')
               ∧ ∃ p, p ∈ relation_ids e'
                      ∧ rtc (system_linked route_strategy (contents route_file))
                          p id)
    (m_extracts (run route_strategy route_file).2).
Proof.
  apply (run_extra_relations [sample_extract] no_rules route_rules false route_file).
  apply route_run_goes_through.
Defined.





(** X10: after a run that went through, the output of every region is the
    input with the objects left out whose id is neither in the primary nor
    in the extra set of their type, the other objects in input order. *)
Theorem run_output extracts relations system by_first_node input_file s' :
  run (new_strategy extracts relations system by_first_node) input_file
  = (None, s') →
  Forall
    (λ e',
       written e' = filter (selected e') (contents input_file))
    (m_extracts s').
Proof.
  apply run_fresh_each. intros ns ws rs x Hc.
  destruct (region_run_members
              (new_strategy extracts relations system by_first_node)
              input_file x ns ws rs _ Hc eq_refl)
    as (Hx & Hn & Hw & Hr & Hxr & Hxw & Hxn & Hout).
  exact Hout.
Qed.

Lemma run_output_witness :
  Forall
    (λ e',
       written e' = filter (selected e') (contents route_file))
    (m_extracts (run route_strategy route_file).2).
Proof.
  apply (run_output [sample_extract] no_rules route_rules false route_file).
  apply route_run_goes_through.
Defined.

(** ** When a run goes through *)

Lemma sorted_input_ordered_after objects :
  sorted_input objects ↔ ordered_after new_check_order objects.
Proof.
  unfold sorted_input, ordered_after. simpl. split.
  - intros (ns & ws & rs & ? & ? & ? & ?). by exists ns, ws, rs.
  - intros (ns & ws & rs & ? & ? & ? & ? & _). by exists ns, ws, rs.
Qed.

Lemma goes_down_false max id :
  goes_down max id = false ↔ match max with Some m => m ≤ id | None => True end.
Proof.
  destruct max as [m|]; simpl; [|done]. case_bool_decide; split; try done; lia.
Qed.

Lemma check_object_failure c o f :
  check_object c o = Err f → f = out_of_order_error.
Proof.
  destruct o as [n|w|r]; simpl;
    unfold check_node, check_way, check_relation;
    repeat case_bool_decide; try congruence;
    destruct (goes_down _ _); congruence.
Qed.

(** The order check accepts a sequence exactly when it accepts its first
    object and what follows can follow that. *)
Lemma ordered_after_cons c o objects :
  ordered_after c (o :: objects)
  ↔ ∃ c', check_object c o = Ok c' ∧ ordered_after c' objects.
Proof.
  split.
  - intros (ns & ws & rs & Ho & Hn & Hw & Hr & Hns & Hws).
    destruct ns as [|n ns].
    + destruct ws as [|w ws].
      * destruct rs as [|r rs]; [done|]. simpl in Ho. simplify_eq.
        simpl in Hr. destruct Hr as [Hr1 Hr2].
        apply goes_down_false in Hr1. simpl. unfold check_relation.
        rewrite Hr1. eexists. split; [done|].
        exists [], [], rs. simpl. done.
      * simpl in Ho. simplify_eq. simpl in Hw. destruct Hw as [Hw1 Hw2].
        apply goes_down_false in Hw1.
        assert (m_max_relation_id c = None) as Hwr by by apply Hws.
        simpl. unfold check_way. rewrite Hw1, Hwr.
        rewrite bool_decide_eq_false_2 by by intros [? ?].
        eexists. split; [done|].
        exists [], ws, rs. simpl. rewrite Hwr in Hr. done.
    + simpl in Ho. simplify_eq. simpl in Hn. destruct Hn as [Hn1 Hn2].
      apply goes_down_false in Hn1.
      assert (m_max_way_id c = None ∧ m_max_relation_id c = None)
        as [Hnw Hnr] by by apply Hns.
      simpl. unfold check_node. rewrite Hn1, Hnw, Hnr.
      rewrite !bool_decide_eq_false_2 by by intros [? ?].
      eexists. split; [done|].
      exists ns, ws, rs. simpl. rewrite Hnw in Hw. rewrite Hnr in Hr. done.
  - intros (c' & Hc & ns & ws & rs & -> & Hn & Hw & Hr & Hns & Hws).
    destruct o as [n|w|r]; simpl in Hc.
    + unfold check_node in Hc. repeat case_bool_decide; try done.
      destruct (goes_down _ _) eqn:Hd; [done|]. simplify_eq. simpl in *.
      apply goes_down_false in Hd.
      rewrite <- eq_None_not_Some in *.
      exists (n :: ns), ws, rs. simpl. done.
    + unfold check_way in Hc. case_bool_decide; try done.
      destruct (goes_down _ _) eqn:Hd; [done|]. simplify_eq. simpl in *.
      apply goes_down_false in Hd.
      rewrite <- eq_None_not_Some in *.
      destruct ns as [|n ns]; [|by destruct Hns].
      exists [], (w :: ws), rs. simpl. done.
    + unfold check_relation in Hc.
      destruct (goes_down _ _) eqn:Hd; [done|]. simplify_eq. simpl in *.
      apply goes_down_false in Hd.
      destruct ns as [|n ns]; [|by destruct Hns].
      destruct ws as [|w ws]; [|by specialize (Hws ltac:(done))].
      exists [], [], (r :: rs). simpl. done.
Qed.

(** One object of pass 1: it goes through when the order check accepts it
    and, with [by_first_node] and a region to offer it to, a way has a
    point; the regions and the settings stay in place. *)
Lemma dispatch_pass1_outcome s (p : Pass1) o :
  match dispatch s p o with
  | Ok (p', s') =>
      check_object (m_check_order p) o = Ok (m_check_order p')
      ∧ m_by_first_node s' = m_by_first_node s
      ∧ (m_extracts s' = [] ↔ m_extracts s = [])
      ∧ (m_by_first_node s = true → m_extracts s ≠ [] →
         ∀ w, o = OWay w → way_nodes w ≠ [])
  | Err f =>
      check_object (m_check_order p) o = Err f
      ∨ (f = undefined_behaviour
         ∧ m_by_first_node s = true
         ∧ m_extracts s ≠ []
         ∧ (∃ c', check_object (m_check_order p) o = Ok c')
         ∧ ∃ w, o = OWay w ∧ way_nodes w = [])
  end.
Proof.
  assert (∀ (g : extract_data → extract_data) (l : list extract_data),
            g <$> l = [] ↔ l = []) as Hnil.
  { intros g l. by destruct l. }
  destruct o as [n|w|r]; unfold dispatch; simpl.
  - unfold pass1_node. destruct (check_node _ _) as [c|f] eqn:Hc; simpl; [|by left].
    rewrite (for_each_total _
               (λ e, if contains (m_extract e) (node_location n)
                     then set_node_ids (node_positive_id n) e else e)).
    2:{ intros e. unfold pass1_enode. by destruct (contains _ _). }
    simpl. by rewrite Hnil.
  - unfold pass1_way. destruct (check_way _ _) as [c|f] eqn:Hc; simpl; [|by left].
    unfold pass1_eway. destruct (m_by_first_node s) eqn:Hb.
    + destruct (head (way_nodes w)) as [first_node|] eqn:Hh.
      * rewrite (for_each_total _
                   (λ e, if (IdSet.get (node_ids e) (nr_positive_ref first_node)
                             && negb (has_conflicting_tags (m_extract e)
                                        (way_tags w)))
                            || has_matching_tags (m_extract e) (way_tags w)
                         then add_way_nodes (set_way_ids (way_positive_id w) e) w
                         else e)).
        2:{ intros e. by destruct (_ || _). }
        simpl. rewrite Hnil. repeat split; try done.
        intros _ _ w' Hw'. simplify_eq. by destruct (way_nodes w').
      * destruct (m_extracts s) as [|e es] eqn:He; simpl.
        -- repeat split; try done.
        -- right. repeat split; try done. { by eexists. }
           exists w. split; [done|]. by destruct (way_nodes w).
    + rewrite (for_each_total _ (λ e, eway_scan e w (way_nodes w))) by done.
      simpl. by rewrite Hnil.
  - unfold pass1_relation.
    destruct (check_relation _ _) as [c|f] eqn:Hc; simpl; [|by left].
    rewrite (for_each_total _ (λ e, erelation_scan s e r (relation_members r)))
      by done.
    simpl. by rewrite Hnil.
Qed.

(** How pass 1 ends: it goes through over objects that can follow what the
    order check has seen and whose ways have points where [by_first_node]
    looks at the first one; it stops with the order failure otherwise, or
    outside defined behaviour on a way without points. *)
Lemma run_impl_pass1_outcome objects s (p : Pass1) :
  match (run_impl s p objects).1.1 with
  | None =>
      ordered_after (m_check_order p) objects
      ∧ (m_by_first_node s = true → m_extracts s ≠ [] → ways_have_nodes objects)
  | Some f =>
      (f = out_of_order_error ∧ ¬ ordered_after (m_check_order p) objects)
      ∨ (f = undefined_behaviour
         ∧ m_by_first_node s = true
         ∧ m_extracts s ≠ []
         ∧ ¬ ways_have_nodes objects)
  end.
Proof.
  revert s p. induction objects as [|o objects IH]; intros s p.
  - simpl. split.
    + exists [], [], []. simpl. done.
    + intros _ _ w Hw. by apply elem_of_nil in Hw.
  - simpl. pose proof (dispatch_pass1_outcome s p o) as Hd.
    destruct (dispatch s p o) as [[p1 s1]|f].
    + destruct Hd as (Hc & Hb & He & Hw). specialize (IH s1 p1).
      destruct ((run_impl s1 p1 objects).1.1) as [f|].
      * destruct IH as [[-> Hno]|(-> & Hb1 & He1 & Hno)].
        -- left. split; [done|]. intros Hord. apply Hno.
           apply ordered_after_cons in Hord as (c' & Hc' & Hord).
           rewrite Hc in Hc'. by simplify_eq.
        -- right. rewrite Hb in Hb1. rewrite He in He1.
           repeat split; try done. intros Hall. apply Hno.
           intros w Hin. apply Hall. by apply elem_of_cons; right.
      * destruct IH as [Hord Hall]. split.
        -- apply ordered_after_cons. by exists (m_check_order p1).
        -- intros Hb1 He1 w Hin. apply elem_of_cons in Hin as [<-|Hin].
           ++ by eapply Hw.
           ++ rewrite Hb in Hall. rewrite He in Hall. by apply Hall.
    + simpl. destruct Hd as [Hc|(-> & Hb & He & _ & w & -> & Hw)].
      * left. split; [by eapply check_object_failure|]. intros Hord.
        apply ordered_after_cons in Hord as (c' & Hc' & _). congruence.
      * right. repeat split; try done. intros Hall.
        by apply (Hall w); [apply elem_of_cons; left|].
Qed.

Lemma run_outcome s input_file :
  match (run s input_file).1 with
  | None =>
      filename input_file ≠ EmptyString
      ∧ sorted_input (contents input_file)
      ∧ (m_by_first_node s = true → m_extracts s ≠ [] →
         ways_have_nodes (contents input_file))
  | Some f =>
      (f = io_error ∧ filename input_file = EmptyString)
      ∨ (f = out_of_order_error
         ∧ filename input_file ≠ EmptyString
         ∧ ¬ sorted_input (contents input_file))
      ∨ (f = undefined_behaviour
         ∧ filename input_file ≠ EmptyString
         ∧ m_by_first_node s = true
         ∧ m_extracts s ≠ []
         ∧ ¬ ways_have_nodes (contents input_file))
  end.
Proof.
  unfold run. case_bool_decide as Hname; simpl; [by left|].
  pose proof (run_impl_pass1_outcome (reader input_file bits_all) s new_pass1)
    as Hout.
  rewrite reader_all in *.
  destruct (run_impl s new_pass1 (contents input_file)) as [[f1 p1] s1].
  change (m_check_order new_pass1) with new_check_order in Hout.
  destruct f1 as [f|]; simpl in *; rewrite <- sorted_input_ordered_after in Hout.
  - right. destruct Hout as [[-> Hno]|(-> & Hb & He & Hno)]; [by left|by right].
  - rewrite run_after_pass1_final. simpl. by destruct Hout.
Qed.

Lemma region_run_settings s es input_file e :
  region_run (with_extracts s es) input_file e = region_run s input_file e.
Proof.
  unfold region_run. simpl.
  rewrite (region_pass_settings new_pass1 region_step_settings1).
  rewrite (region_pass_settings new_pass2 region_step_settings2).
  rewrite (region_pass_settings new_pass3 region_step_settings3).
  rewrite (region_pass_settings new_pass4 region_step_settings4).
  reflexivity.
Qed.

(** X11: a run goes through exactly when the input has a file name, its
    objects come as points, then ways, then relations with the ids of
    each type not going down, and, where [by_first_node] is set and there
    is a region, every way has a point. *)
Theorem run_goes_through_iff s input_file :
  (run s input_file).1 = None
  ↔ filename input_file ≠ EmptyString
    ∧ sorted_input (contents input_file)
    ∧ (m_by_first_node s = true → m_extracts s ≠ [] →
       ways_have_nodes (contents input_file)).
Proof.
  pose proof (run_outcome s input_file) as Hout.
  destruct ((run s input_file).1) as [f|]; [|done].
  split; [done|]. intros (Hname & Hsorted & Hways). exfalso.
  destruct Hout as [[_ Hn]|[(_ & _ & Hno)|(_ & _ & Hb & He & Hno)]]; [done..|].
  by apply Hno, Hways.
Qed.

(** X12: a run that fails fails in one of three ways: with the input
    failure when the input has no file name; with the order failure when
    the objects are not sorted; outside defined behaviour when
    [by_first_node] is set, there is a region and a way has no points.
    The closure never runs out of steps. *)
Theorem run_failure_kinds s input_file f s' :
  run s input_file = (Some f, s') →
  (f = io_error ∧ filename input_file = EmptyString ∧ s' = s)
  ∨ (f = out_of_order_error
     ∧ filename input_file ≠ EmptyString
     ∧ ¬ sorted_input (contents input_file))
  ∨ (f = undefined_behaviour
     ∧ filename input_file ≠ EmptyString
     ∧ m_by_first_node s = true
     ∧ m_extracts s ≠ []
     ∧ ¬ ways_have_nodes (contents input_file)).
Proof.
  intros Hrun. pose proof (run_outcome s input_file) as Hout.
  rewrite Hrun in Hout. simpl in Hout.
  destruct Hout as [[-> Hname]|[?|?]]; [|by right; left|by right; right].
  left. unfold run in Hrun. rewrite bool_decide_eq_true_2 in Hrun by done.
  by simplify_eq.
Qed.

Lemma run_failure_kinds_witness :
  (out_of_order_error = io_error ∧ filename unsorted_file = EmptyString
   ∧ (run (sample_strategy false) unsorted_file).2 = sample_strategy false)
  ∨ (out_of_order_error = out_of_order_error
     ∧ filename unsorted_file ≠ EmptyString
     ∧ ¬ sorted_input (contents unsorted_file))
  ∨ (out_of_order_error = undefined_behaviour
     ∧ filename unsorted_file ≠ EmptyString
     ∧ m_by_first_node (sample_strategy false) = true
     ∧ m_extracts (sample_strategy false) ≠ []
     ∧ ¬ ways_have_nodes (contents unsorted_file)).
Proof.
  apply (run_failure_kinds (sample_strategy false) unsorted_file
           out_of_order_error).
  vm_compute. reflexivity.
Defined.

(** X13: a run that fails has written nothing to the output of any
    region. *)
Theorem failed_run_writes_nothing
  extracts relations system by_first_node input_file f s' :
  run (new_strategy extracts relations system by_first_node) input_file
  = (Some f, s') →
  Forall (λ e', written e' = []) (m_extracts s').
Proof.
  set (s := new_strategy extracts relations system by_first_node).
  assert (Forall (λ e, written e = []) (m_extracts s)) as Hstart.
  { apply Forall_forall. intros e He.
    apply list_elem_of_fmap in He as (x & -> & _). done. }
  unfold run. case_bool_decide; [by intros; simplify_eq|].
  destruct (run_impl_keeps
              (λ (_ : Pass1) s1, Forall (λ e, written e = []) (m_extracts s1)))
    with (objects := reader input_file bits_all) (s := s) (p := new_pass1)
    as [_ Hend]; [|done|].
  { intros s0 p o p' s1 Hs0 Hd.
    apply (dispatch_regions new_pass1) in Hd; try done.
    subst s1. simpl. apply Forall_fmap. eapply Forall_impl; [exact Hs0|].
    intros e He. simpl.
    by destruct (region_step1_keeps s0 o e) as (_ & _ & ->). }
  destruct (run_impl s new_pass1 (reader input_file bits_all)) as [[f1 p1] s1].
  simpl in Hend. destruct f1 as [f1|].
  - by intros; simplify_eq.
  - rewrite run_after_pass1_final. done.
Qed.

Lemma failed_run_writes_nothing_witness :
  Forall (λ e', written e' = [])
    (m_extracts (run (sample_strategy false) unsorted_file).2).
Proof.
  apply (failed_run_writes_nothing [sample_extract] no_rules no_rules false
           unsorted_file out_of_order_error).
  vm_compute. reflexivity.
Defined.

(** X14: the regions do not interact: what a run leaves for a region is
    what a run with that region alone leaves for it, and that run goes
    through as well. *)
Theorem regions_do_not_interact
  extracts relations system by_first_node input_file s' i x :
  run (new_strategy extracts relations system by_first_node) input_file
  = (None, s') →
  extracts !! i = Some x →
  ∃ e' s1,
    run (new_strategy [x] relations system by_first_node) input_file = (None, s1)
    ∧ m_extracts s1 = [e']
    ∧ m_extracts s' !! i = Some e'.
Proof.
  intros Hrun Hx.
  set (s := new_strategy extracts relations system by_first_node) in *.
  set (sx := new_strategy [x] relations system by_first_node).
  pose proof (run_outcome s input_file) as Hout. rewrite Hrun in Hout.
  simpl in Hout. destruct Hout as (Hname & Hsorted & Hways).
  pose proof (run_outcome sx input_file) as Houtx.
  destruct (run sx input_file) as [fx s1] eqn:Hrunx. simpl in Houtx.
  destruct fx as [fx|].
  { exfalso.
    destruct Houtx as [[_ Hn]|[(_ & _ & Hno)|(_ & _ & Hb & He & Hno)]];
      [done..|].
    apply Hno, Hways; [done|]. simpl. by destruct extracts. }
  apply run_regions in Hrun, Hrunx. subst s' s1. simpl.
  exists (region_run sx input_file (new_extract_data x)).
  eexists. split; [reflexivity|]. split; [reflexivity|].
  rewrite !list_lookup_fmap, Hx. simpl. f_equal.
  symmetry. apply (region_run_settings s).
Qed.

Lemma regions_do_not_interact_witness :
  ∃ e' s1,
    run (new_strategy [sample_extract] no_rules route_rules false) route_file
    = (None, s1)
    ∧ m_extracts s1 = [e']
    ∧ m_extracts (run route_strategy route_file).2 !! 0%nat = Some e'.
Proof.
  apply (regions_do_not_interact [sample_extract] no_rules route_rules false
           route_file _ 0%nat sample_extract).
  - apply route_run_goes_through.
  - reflexivity.
Defined.

(** ** The constructor and its options *)

Lemma substring_all s : String.substring 0 (String.length s) s = s.
Proof. induction s as [|a s IH]; [done|]. simpl. by rewrite IH. Qed.

Lemma append_cons a s1 s2 : String a s1 +:+ s2 = String a (s1 +:+ s2).
Proof. reflexivity. Qed.

Lemma append_nil s : EmptyString +:+ s = s.
Proof. reflexivity. Qed.

Lemma find_split c s pos :
  find c s = Some pos →
  substr s 0 (Some pos) +:+ String c (substr s (pos + 1) None) = s
  ∧ find c (substr s 0 (Some pos)) = None.
Proof.
  revert pos. induction s as [|a s IH]; intros pos Hf; [done|].
  simpl in Hf. destruct (decide (a = c)) as [->|Hac].
  - simplify_eq. unfold substr. simpl.
    by rewrite append_nil, Nat.sub_0_r, substring_all.
  - destruct (find c s) as [p|] eqn:Hp; [|done]. simpl in Hf. simplify_eq.
    destruct (IH p eq_refl) as [IH1 IH2]. unfold substr in *. simpl.
    rewrite append_cons, IH1. split; [done|].
    destruct (decide (a = c)); [done|]. by rewrite IH2.
Qed.

Lemma find_append_None c key v :
  find c key = None → find c (key +:+ String c v) = Some (String.length key).
Proof.
  induction key as [|a key IH]; simpl.
  - intros _. rewrite ?append_nil. simpl. by destruct (decide (c = c)).
  - rewrite ?append_cons. simpl. destruct (decide (a = c)); [done|].
    destruct (find c key); [done|]. intros _. by rewrite IH.
Qed.

Lemma substring_append_l key rest :
  String.substring 0 (String.length key) (key +:+ rest) = key.
Proof.
  induction key as [|a key IH]; simpl.
  - rewrite ?append_nil. by destruct rest.
  - by rewrite ?append_cons, IH.
Qed.

Lemma substring_append_r key c v :
  String.substring (String.length key + 1)
    (String.length (key +:+ String c v) - (String.length key + 1))
    (key +:+ String c v) = v.
Proof.
  induction key as [|a key IH]; simpl.
  - rewrite ?append_nil. simpl. by rewrite Nat.sub_0_r, substring_all.
  - rewrite ?append_cons. exact IH.
Qed.

(** X15: a rule of an option value is read without loss: the key, or the
    key, a colon and the value, give back the text of the rule; the key
    is the text before the first colon, so no key holds a colon, and the
    rule has a value exactly when its text holds a colon. *)
Theorem tag_rule_keeps_text (tag : string) :
  rule_text (tag_rule tag) = tag
  ∧ find colon (tm_key (tag_rule tag)) = None
  ∧ (tm_value (tag_rule tag) = None ↔ find colon tag = None).
Proof.
  unfold tag_rule, rule_text. destruct (find colon tag) as [pos|] eqn:Hf; simpl.
  - destruct (find_split colon tag pos Hf) as [Hs Hk].
    split; [exact Hs|]. split; [exact Hk|]. done.
  - done.
Qed.

(** X16: reading a rule undoes writing it: a key without a colon, alone
    or followed by a colon and any value, is read as that key and that
    value. *)
Theorem tag_rule_of_rule_text (m : TagMatcher) :
  find colon (tm_key m) = None → tag_rule (rule_text m) = m.
Proof.
  intros Hk. destruct m as [key [v|]]; unfold rule_text, tag_rule; simpl in *.
  - change (key +:+ ":" +:+ v) with (key +:+ String colon v).
    rewrite (find_append_None colon key v Hk). unfold substr.
    by rewrite substring_append_l, substring_append_r.
  - by rewrite Hk.
Qed.

Lemma tag_rule_of_rule_text_witness :
  tag_rule (rule_text {| tm_key := "type"; tm_value := Some "route:bus" |})
  = {| tm_key := "type"; tm_value := Some "route:bus" |}.
Proof.
  apply (tag_rule_of_rule_text {| tm_key := "type"; tm_value := Some "route:bus" |}).
  reflexivity.
Defined.

Lemma add_filter_rules_rules split_string f v :
  m_rules (add_filter_rules split_string f v)
  = m_rules f ++ ((λ tag, (true, tag_rule tag)) <$> split_string v comma true)
  ∧ m_default_result (add_filter_rules split_string f v) = false.
Proof.
  unfold add_filter_rules.
  assert (∀ tags g,
            m_rules (foldl (λ f tag, add_rule f true (tag_rule tag)) g tags)
            = m_rules g ++ ((λ tag, (true, tag_rule tag)) <$> tags)
            ∧ m_default_result
                (foldl (λ f tag, add_rule f true (tag_rule tag)) g tags)
              = m_default_result g) as Hfold.
  { induction tags as [|tag tags IH]; intros g; simpl.
    - by rewrite app_nil_r.
    - destruct (IH (add_rule g true (tag_rule tag))) as [-> ->]. simpl.
      by rewrite <- app_assoc. }
  destruct (Hfold (split_string v comma true) (set_default_result f false))
    as [-> ->].
  done.
Qed.

Lemma filter_rules_positive rules t :
  Forall (λ r : bool * TagMatcher, r.1 = true) rules →
  filter_rules rules false t = existsb (λ r, tag_matches r.2 t) rules.
Proof.
  induction 1 as [|[b m] rules Hb _ IH]; [done|]. simpl in *. subst b.
  rewrite IH. by destruct (tag_matches m t).
Qed.

(** A filter without a rule that rejects, and that rejects by default,
    accepts the tag lists with a tag that one of its rules matches. *)
Lemma match_any_of_positive tags f :
  m_default_result f = false →
  Forall (λ r : bool * TagMatcher, r.1 = true) (m_rules f) →
  match_any_of tags f = true
  ↔ ∃ m tag, m ∈ (m_rules f).*2 ∧ tag ∈ tags ∧ tag_matches m tag = true.
Proof.
  intros Hd Hpos. unfold match_any_of, filter_tag. rewrite Hd.
  rewrite existsb_exists. split.
  - intros (tag & Htag & Hm). rewrite (filter_rules_positive _ _ Hpos) in Hm.
    apply existsb_exists in Hm as ([b m] & Hr & Hm).
    exists m, tag. rewrite <- !list_elem_of_In in *. split; [|done].
    apply list_elem_of_fmap. by exists (b, m).
  - intros (m & tag & Hin & Htag & Hm). exists tag.
    rewrite <- list_elem_of_In. split; [done|].
    rewrite (filter_rules_positive _ _ Hpos). apply existsb_exists.
    apply list_elem_of_fmap in Hin as ([b m'] & -> & Hin).
    exists (b, m'). by rewrite <- list_elem_of_In.
Qed.

Lemma option_rules_cons split_string key option options :
  option_rules split_string key (option :: options)
  = (if decide (option.1 = key) then split_string option.2 comma true else [])
    ++ option_rules split_string key options.
Proof.
  unfold option_rules. destruct (decide (option.1 = key)) as [Hk|Hk].
  - by rewrite filter_cons_True.
  - by rewrite filter_cons_False.
Qed.

Lemma last_cons_default {A} (a : A) l : last (a :: l) = Some (default a (last l)).
Proof.
  revert a. induction l as [|b l IH]; intros a; [done|].
  change (last (a :: b :: l)) with (last (b :: l)). rewrite IH.
  by destruct l.
Qed.

(** What the constructor holds after a sequence of options, from any
    state it may be in. *)
Lemma read_options_state split_string options s w :
  let r := foldl (read_option split_string) (s, w) options in
  m_extracts r.1 = m_extracts s
  ∧ m_rules (m_relation_filter r.1)
    = m_rules (m_relation_filter s)
      ++ ((λ tag, (true, tag_rule tag))
            <$> option_rules split_string "relations" options)
  ∧ (m_default_result (m_relation_filter s) = false →
     m_default_result (m_relation_filter r.1) = false)
  ∧ m_rules (m_relation_system_filter r.1)
    = m_rules (m_relation_system_filter s)
      ++ ((λ tag, (true, tag_rule tag))
            <$> option_rules split_string "relation-system" options)
  ∧ (m_default_result (m_relation_system_filter s) = false →
     m_default_result (m_relation_system_filter r.1) = false)
  ∧ m_by_first_node r.1
    = match last (filter (λ o, o.1 = "by-first-node") options) with
      | Some o =>
          bool_decide (o.2 = EmptyString) || bool_decide (o.2 = "true")
          || bool_decide (o.2 = "yes")
      | None => m_by_first_node s
      end
  ∧ r.2 = w ++ (filter (λ o, ¬ known_option o) options).*1.
Proof.
  revert s w. induction options as [|[key value] options IH]; intros s w.
  { simpl. by rewrite !app_nil_r. }
  cbv zeta.
  change (foldl (read_option split_string) (s, w) ((key, value) :: options))
    with (foldl (read_option split_string)
            (read_option split_string (s, w) (key, value)) options).
  destruct (read_option split_string (s, w) (key, value)) as [s1 w1] eqn:Hstep.
  destruct (IH s1 w1) as (He & Hr & Hrd & Hs & Hsd & Hb & Hw).
  rewrite He, Hr, Hs, Hb, Hw. rewrite !option_rules_cons. simpl.
  unfold read_option in Hstep. simpl in Hstep.
  destruct (decide (key = "relations")) as [->|Hk1].
  { simplify_eq. simpl.
    destruct (add_filter_rules_rules split_string (m_relation_filter s) value)
      as [-> Hdef].
    rewrite fmap_app, <- app_assoc.
    rewrite filter_cons_False by done.
    rewrite (filter_cons_False (λ o, ¬ known_option o)).
    2:{ intros Hn. apply Hn. by left. }
    repeat split; try done. intros _. by apply Hrd. }
  destruct (decide (key = "relation-system")) as [->|Hk2].
  { simplify_eq. simpl.
    destruct (add_filter_rules_rules split_string (m_relation_system_filter s)
                value) as [-> Hdef].
    rewrite fmap_app, <- app_assoc.
    rewrite filter_cons_False by done.
    rewrite (filter_cons_False (λ o, ¬ known_option o)).
    2:{ intros Hn. apply Hn. by right; left. }
    repeat split; try done. intros _. by apply Hsd. }
  destruct (decide (key = "by-first-node")) as [->|Hk3].
  { simplify_eq. simpl.
    rewrite filter_cons_True by done.
    rewrite (filter_cons_False (λ o, ¬ known_option o)).
    2:{ intros Hn. apply Hn. by right; right. }
    rewrite last_cons_default.
    repeat split; try done.
    by destruct (last (filter _ options)). }
  simplify_eq.
  rewrite filter_cons_False by done.
  rewrite (filter_cons_True (λ o, ¬ known_option o)).
  2:{ intros [?|[?|?]]; done. }
  simpl. rewrite <- app_assoc. done.
Qed.

Lemma read_options_known split_string options s w w' :
  (foldl (read_option split_string) (s, w) options).1
  = (foldl (read_option split_string) (s, w') (filter known_option options)).1.
Proof.
  revert s w w'. induction options as [|[key value] options IH]; intros s w w';
    [done|].
  destruct (decide (known_option (key, value))) as [Hk|Hk].
  - rewrite filter_cons_True by done.
    change (foldl ?f ?a (?x :: ?l)) with (foldl f (f a x) l).
    destruct (read_option split_string (s, w) (key, value)) as [s1 w1] eqn:H1.
    destruct (read_option split_string (s, w') (key, value)) as [s2 w2] eqn:H2.
    assert (s1 = s2) as ->; [|apply IH].
    unfold read_option in H1, H2. simpl in *.
    repeat case_decide; by simplify_eq.
  - rewrite filter_cons_False by done.
    change (foldl ?f ?a (?x :: ?l)) with (foldl f (f a x) l).
    assert (read_option split_string (s, w) (key, value) = (s, w ++ [key]))
      as ->; [|apply IH].
    unfold read_option. simpl. unfold known_option in Hk. simpl in Hk.
    repeat case_decide; try done; exfalso; apply Hk; auto.
Qed.

Lemma filter_key_absent (options : Options) key :
  key ∉ options.*1 → filter (λ o, o.1 = key) options = [].
Proof.
  induction options as [|[k v] options IH]; intros Hk; [done|].
  rewrite fmap_cons, not_elem_of_cons in Hk. destruct Hk as [Hk1 Hk2].
  simpl in Hk1. rewrite filter_cons_False; [by apply IH|].
  simpl. by intros ->.
Qed.

Lemma filter_key_NoDup (options : Options) key value :
  NoDup options.*1 →
  (key, value) ∈ options →
  filter (λ o, o.1 = key) options = [(key, value)].
Proof.
  induction options as [|[k v] options IH]; intros Hnd Hin.
  - by apply elem_of_nil in Hin.
  - rewrite fmap_cons in Hnd. apply NoDup_cons in Hnd as [Hk Hnd].
    apply elem_of_cons in Hin as [Heq|Hin].
    + simplify_eq. rewrite filter_cons_True by done.
      by rewrite filter_key_absent.
    + rewrite filter_cons_False; [by apply IH|].
      simpl. intros ->. apply Hk. apply list_elem_of_fmap. by exists (key, value).
Qed.

Lemma filter_none {A} (P : A → Prop) `{!∀ a, Decision (P a)} (l : list A) :
  (∀ a, a ∈ l → ¬ P a) → filter P l = [].
Proof.
  induction l as [|a l IH]; intros Hno; [done|].
  rewrite filter_cons_False by (apply Hno, elem_of_cons; by left).
  apply IH. intros b Hb. apply Hno, elem_of_cons. by right.
Qed.

Lemma positive_rules (rules : list string) :
  Forall (λ r : bool * TagMatcher, r.1 = true)
    ((λ tag, (true, tag_rule tag)) <$> rules).
Proof. apply Forall_fmap, Forall_forall. by intros tag _. Qed.

Lemma elem_of_rules_matchers (rules : list string) m :
  m ∈ ((λ tag, (true, tag_rule tag)) <$> rules).*2
  ↔ ∃ rule, rule ∈ rules ∧ m = tag_rule rule.
Proof.
  rewrite <- list_fmap_compose, list_elem_of_fmap. naive_solver.
Qed.

(** X17: the strategy the constructor builds takes a relation for relevant
    exactly when one of its tags is matched by one of the rules of a
    [relations] option, and for part of a relevant relation system exactly
    when one of its tags is matched by one of the rules of a
    [relation-system] option; without such an option no relation is. *)
Theorem options_set_the_filters split_string extracts options r :
  (is_relevant_relation
     (new_strategy_of_options split_string extracts options).1 r = true
   ↔ ∃ rule tag,
       rule ∈ option_rules split_string "relations" options
       ∧ tag ∈ relation_tags r
       ∧ tag_matches (tag_rule rule) tag = true)
  ∧ (is_part_of_relevant_relation_system
       (new_strategy_of_options split_string extracts options).1 r = true
     ↔ ∃ rule tag,
         rule ∈ option_rules split_string "relation-system" options
         ∧ tag ∈ relation_tags r
         ∧ tag_matches (tag_rule rule) tag = true).
Proof.
  unfold new_strategy_of_options, is_relevant_relation,
    is_part_of_relevant_relation_system.
  destruct (read_options_state split_string options
              (new_strategy extracts no_rules no_rules false) [])
    as (_ & Hr & Hrd & Hs & Hsd & _).
  simpl in Hr, Hs. split.
  - rewrite match_any_of_positive; [|by apply Hrd|rewrite Hr; apply positive_rules].
    rewrite Hr. setoid_rewrite elem_of_rules_matchers. naive_solver.
  - rewrite match_any_of_positive; [|by apply Hsd|rewrite Hs; apply positive_rules].
    rewrite Hs. setoid_rewrite elem_of_rules_matchers. naive_solver.
Qed.

(** X18: when no option key comes twice, the strategy the constructor
    builds has [by_first_node] exactly when there is an option
    [by-first-node] whose value is empty, [true] or [yes]. *)
Theorem options_by_first_node split_string extracts options :
  NoDup options.*1 →
  m_by_first_node (new_strategy_of_options split_string extracts options).1 = true
  ↔ ∃ value,
      ("by-first-node", value) ∈ options
      ∧ (value = EmptyString ∨ value = "true" ∨ value = "yes").
Proof.
  intros Hnd. unfold new_strategy_of_options.
  destruct (read_options_state split_string options
              (new_strategy extracts no_rules no_rules false) [])
    as (_ & _ & _ & _ & _ & Hb & _).
  rewrite Hb. clear Hb. split.
  - destruct (last _) as [[key value]|] eqn:Hlast; [|done]. simpl.
    apply last_Some_elem_of, list_elem_of_filter in Hlast as [Hkey Hin].
    simpl in Hkey. subst key. intros Hv. exists value. split; [done|].
    apply orb_true_iff in Hv as [Hv|Hv]; [apply orb_true_iff in Hv as [Hv|Hv]|];
      apply bool_decide_eq_true in Hv; auto.
  - intros (value & Hin & Hv).
    rewrite (filter_key_NoDup _ _ _ Hnd Hin). simpl.
    destruct Hv as [-> | [-> | ->]]; done.
Qed.

Lemma options_by_first_node_witness :
  m_by_first_node
    (new_strategy_of_options (λ _ _ _, []) [sample_extract]
       [("by-first-node", "yes")]).1 = true
  ↔ ∃ value,
      ("by-first-node", value) ∈ [("by-first-node", "yes")]
      ∧ (value = EmptyString ∨ value = "true" ∨ value = "yes").
Proof.
  apply (options_by_first_node (λ _ _ _, []) [sample_extract]
           [("by-first-node", "yes")]).
  simpl. apply NoDup_singleton.
Defined.

(** X19: an option with a key the constructor does not know changes
    nothing but the warnings: the strategy is the one the known options
    give alone, with one fresh state for every region, in order, and the
    constructor has warned once about every unknown key, in order. *)
Theorem unknown_options_are_ignored split_string extracts options :
  (new_strategy_of_options split_string extracts options).1
  = (new_strategy_of_options split_string extracts
       (filter known_option options)).1
  ∧ m_extracts (new_strategy_of_options split_string extracts options).1
    = new_extract_data <$> extracts
  ∧ (new_strategy_of_options split_string extracts options).2
    = (filter (λ o, ¬ known_option o) options).*1
  ∧ (new_strategy_of_options split_string extracts
       (filter known_option options)).2 = [].
Proof.
  unfold new_strategy_of_options. split; [apply read_options_known|].
  destruct (read_options_state split_string options
              (new_strategy extracts no_rules no_rules false) [])
    as (He & _ & _ & _ & _ & _ & Hw).
  destruct (read_options_state split_string (filter known_option options)
              (new_strategy extracts no_rules no_rules false) [])
    as (_ & _ & _ & _ & _ & _ & Hw').
  split; [exact He|]. split; [exact Hw|].
  rewrite Hw'. simpl.
  rewrite filter_none; [done|].
  intros o Ho Hno. by apply list_elem_of_filter in Ho as [Hk _].
Qed.

(** ** What the output is sure to hold *)

(** X20: after a run that went through, the output of every region holds
    every point of the input that lies inside the region, every way of the
    input that pass 1 takes and every relation of the input with a primary
    point or a primary way among its members. *)
Theorem run_writes_what_lies_inside
  extracts relations system by_first_node input_file s' :
  run (new_strategy extracts relations system by_first_node) input_file
  = (None, s') →
  Forall2
    (λ x e',
       (∀ n, ONode n ∈ contents input_file →
             contains x (node_location n) = true →
             ONode n ∈ written e')
       ∧ (∀ w, OWay w ∈ contents input_file →
               way_taken (new_strategy extracts relations system by_first_node)
                 e' w →
               OWay w ∈ written e')
       ∧ (∀ r, ORelation r ∈ contents input_file →
               relation_taken e' r →
               ORelation r ∈ written e'))
    extracts (m_extracts s').
Proof.
  apply run_fresh_regions. intros ns ws rs x Hc.
  destruct (region_run_members
              (new_strategy extracts relations system by_first_node)
              input_file x ns ws rs _ Hc eq_refl)
    as (Hx & Hn & Hw & Hr & Hxr & Hxw & Hxn & Hout).
  rewrite Hout. repeat split.
  - intros n Hin Hcont. apply list_elem_of_filter. split; [|done].
    simpl. apply elem_of_union. left. apply Hn. by exists n.
  - intros w Hin Htaken. apply list_elem_of_filter. split; [|done].
    simpl. apply elem_of_union. left. apply Hw. by exists w.
  - intros r Hin Htaken. apply list_elem_of_filter. split; [|done].
    simpl. apply elem_of_union. left. apply Hr. by exists r.
Qed.

Lemma run_writes_what_lies_inside_witness :
  Forall2
    (λ x e',
       (∀ n, ONode n ∈ contents route_file →
             contains x (node_location n) = true →
             ONode n ∈ written e')
       ∧ (∀ w, OWay w ∈ contents route_file →
               way_taken route_strategy e' w →
               OWay w ∈ written e')
       ∧ (∀ r, ORelation r ∈ contents route_file →
               relation_taken e' r →
               ORelation r ∈ written e'))
    [sample_extract] (m_extracts (run route_strategy route_file).2).
Proof.
  apply (run_writes_what_lies_inside [sample_extract] no_rules route_rules false
           route_file).
  apply route_run_goes_through.
Defined.

(** X21: after a run that went through, a way in the output of a region
    has the ids of all its points among the primary and the extra points
    of the region, when no other way of the input has the same id up to
    sign. *)
Theorem written_ways_have_their_points
  extracts relations system by_first_node input_file s' :
  run (new_strategy extracts relations system by_first_node) input_file
  = (None, s') →
  Forall
    (λ e',
       ∀ w, OWay w ∈ written e' →
            (∀ w', OWay w' ∈ contents input_file →
                   way_positive_id w' = way_positive_id w → w' = w) →
            ∀ nr, nr ∈ way_nodes w →
                  nr_positive_ref nr ∈ node_ids e' ∪ extra_node_ids e')
    (m_extracts s').
Proof.
  apply run_fresh_each. intros ns ws rs x Hc.
  destruct (region_run_members
              (new_strategy extracts relations system by_first_node)
              input_file x ns ws rs _ Hc eq_refl)
    as (Hx & Hn & Hw & Hr & Hxr & Hxw & Hxn & Hout).
  intros w Hwritten Hone nr Hnr. rewrite Hout in Hwritten.
  apply list_elem_of_filter in Hwritten as [Hsel Hin]. simpl in Hsel.
  apply elem_of_union.
  destruct (decide (nr_positive_ref nr ∈ node_ids
                      (region_run
                         (new_strategy extracts relations system by_first_node)
                         input_file (new_extract_data x)))) as [Hp|Hp];
    [by left|right].
  apply Hxn. split; [done|]. left. exists w. split; [done|]. split.
  - apply elem_of_union in Hsel as [Hsel|Hsel]; [left|by right].
    apply Hw in Hsel as (w' & Hin' & Htaken & Hid).
    by rewrite <- (Hone w' Hin' (eq_sym Hid)).
  - unfold way_refs. apply elem_of_list_to_set, list_elem_of_fmap. by exists nr.
Qed.

Lemma written_ways_have_their_points_witness :
  Forall
    (λ e',
       ∀ w, OWay w ∈ written e' →
            (∀ w', OWay w' ∈ contents route_file →
                   way_positive_id w' = way_positive_id w → w' = w) →
            ∀ nr, nr ∈ way_nodes w →
                  nr_positive_ref nr ∈ node_ids e' ∪ extra_node_ids e')
    (m_extracts (run route_strategy route_file).2).
Proof.
  apply (written_ways_have_their_points [sample_extract] no_rules route_rules
           false route_file).
  apply route_run_goes_through.
Defined.

(** X22: after a run that went through, a relation in the output of a
    region that is part of a relevant relation system has the ids of all
    its members, points, ways and relations, among the primary and the
    extra ids of their type of the region, when no other relation of the
    input has the same id up to sign. *)
Theorem written_system_relations_have_their_members
  extracts relations system by_first_node input_file s' :
  run (new_strategy extracts relations system by_first_node) input_file
  = (None, s') →
  Forall
    (λ e',
       ∀ r, ORelation r ∈ written e' →
            is_part_of_relevant_relation_system
              (new_strategy extracts relations system by_first_node) r = true →
            (∀ r', ORelation r' ∈ contents input_file →
                   relation_positive_id r' = relation_positive_id r → r' = r) →
            ∀ m, m ∈ relation_members r →
                 match member_type m with
                 | node_t =>
                     member_positive_ref m ∈ node_ids e' ∪ extra_node_ids e'
                 | way_t =>
                     member_positive_ref m ∈ way_ids e' ∪ extra_way_ids e'
                 | relation_t =>
                     member_positive_ref m
                     ∈ relation_ids e' ∪ extra_relation_ids e'
                 end)
    (m_extracts s').
Proof.
  apply run_fresh_each. intros ns ws rs x Hc.
  set (s := new_strategy extracts relations system by_first_node).
  set (e' := region_run s input_file (new_extract_data x)).
  destruct (region_run_members s input_file x ns ws rs e' Hc eq_refl)
    as (Hx & Hn & Hw & Hr & Hxr & Hxw & Hxn & Hout).
  intros r Hwritten Hsys Hone m Hm. rewrite Hout in Hwritten.
  apply list_elem_of_filter in Hwritten as [Hsel Hin]. simpl in Hsel.
  assert (members_pulled s e' r) as Hpulled.
  { apply elem_of_union in Hsel as [Hsel|Hsel]; [left|by right].
    apply Hr in Hsel as (r' & Hin' & Htaken & Hid).
    rewrite <- (Hone r' Hin' (eq_sym Hid)). split; [done|].
    rewrite (Hone r' Hin' (eq_sym Hid)). by rewrite Hsys, orb_true_r. }
  assert (∀ t, member_type m = t → member_positive_ref m ∈ member_refs t r)
    as Hrefs.
  { intros t Ht. unfold member_refs.
    apply elem_of_list_to_set, list_elem_of_fmap. exists m. split; [done|].
    by apply list_elem_of_filter. }
  destruct (member_type m) eqn:Ht; apply elem_of_union.
  - destruct (decide (member_positive_ref m ∈ node_ids e')); [by left|right].
    apply Hxn. split; [done|]. right. exists r. auto.
  - destruct (decide (member_positive_ref m ∈ way_ids e')); [by left|right].
    apply Hxw. split; [done|]. exists r. auto.
  - destruct (decide (member_positive_ref m ∈ relation_ids e')); [by left|right].
    apply Hxr. split; [done|].
    assert (system_linked s (contents input_file) (relation_positive_id r)
              (member_positive_ref m)) as Hlink.
    { right. exists r, m. by repeat split. }
    apply elem_of_union in Hsel as [Hsel|Hsel].
    + exists (relation_positive_id r). split; [done|]. by apply rtc_once.
    + apply Hxr in Hsel as (_ & p & Hp & Hchain). exists p. split; [done|].
      by eapply rtc_r.
Qed.

Lemma written_system_relations_have_their_members_witness :
  Forall
    (λ e',
       ∀ r, ORelation r ∈ written e' →
            is_part_of_relevant_relation_system route_strategy r = true →
            (∀ r', ORelation r' ∈ contents route_file →
                   relation_positive_id r' = relation_positive_id r → r' = r) →
            ∀ m, m ∈ relation_members r →
                 match member_type m with
                 | node_t =>
                     member_positive_ref m ∈ node_ids e' ∪ extra_node_ids e'
                 | way_t =>
                     member_positive_ref m ∈ way_ids e' ∪ extra_way_ids e'
                 | relation_t =>
                     member_positive_ref m
                     ∈ relation_ids e' ∪ extra_relation_ids e'
                 end)
    (m_extracts (run route_strategy route_file).2).
Proof.
  apply (written_system_relations_have_their_members [sample_extract] no_rules
           route_rules false route_file).
  apply route_run_goes_through.
Defined.



(** ** The two variants of [erelation] of pass 1 *)

Lemma set_relation_ids_twice id e :
  set_relation_ids id (set_relation_ids id e) = set_relation_ids id e.
Proof. apply extract_data_eq; simpl; try done. unfold IdSet.set. set_solver. Qed.

Lemma erelation_scan_first_settled check id e r members :
  check r = false →
  id = relation_positive_id r →
  erelation_scan_first check (set_relation_ids id e) r members
  = set_relation_ids id e.
Proof.
  intros Hcheck ->. induction members as [|m members IH]; [done|].
  simpl. rewrite Hcheck, set_relation_ids_twice, IH.
  destruct (member_type m); [| |done].
  - by destruct (IdSet.get _ _).
  - by destruct (IdSet.get _ _).
Qed.

(** X24: the two variants of [erelation] of pass 1 in the source file do
    the same to a region, the check of the first variant standing where
    the second asks whether the relation is relevant or part of a relevant
    relation system: going on through the members after a primary one, as
    the first variant does for a relation that fails the check, changes
    nothing any more. *)
Theorem erelation_variants_agree (s : Strategy) (e : extract_data) (r : Relation)
  (members : list RelationMember) :
  erelation_scan_first
    (λ r, is_relevant_relation s r || is_part_of_relevant_relation_system s r)
    e r members
  = erelation_scan s e r members.
Proof.
  induction members as [|m members IH]; [done|].
  simpl. rewrite IH. unfold accept_relation.
  destruct (member_type m); [| |done].
  - destruct (IdSet.get _ _); [|done].
    destruct (_ || _) eqn:Hcheck; [done|].
    by apply (erelation_scan_first_settled
                (λ r, is_relevant_relation s r
                      || is_part_of_relevant_relation_system s r)).
  - destruct (IdSet.get _ _); [|done].
    destruct (_ || _) eqn:Hcheck; [done|].
    by apply (erelation_scan_first_settled
                (λ r, is_relevant_relation s r
                      || is_part_of_relevant_relation_system s r)).
Qed.

(** ** What a run never takes back *)

Lemma grows_refl e : grows e e.
Proof. by repeat split. Qed.

Lemma grows_with_extras e nodes ways : grows e (with_extras e nodes ways).
Proof. repeat split; simpl; try done; set_solver. Qed.

Lemma grows_trans e1 e2 e3 : grows e1 e2 → grows e2 e3 → grows e1 e3.
Proof.
  intros (? & ? & ? & ? & ? & ? & ? & ?) (? & ? & ? & ? & ? & ? & ? & ?).
  repeat split; try (etrans; done); congruence.
Qed.

Lemma chain_app {A} (R : A → A → Prop) a l1 l2 :
  chain R a (l1 ++ l2) ↔ chain R a l1 ∧ chain R (default a (last l1)) l2.
Proof.
  revert a. induction l1 as [|b l1 IH]; intros a; simpl; [tauto|].
  rewrite IH, last_cons_default. simpl.
  destruct (last l1); simpl; tauto.
Qed.

Section chain_pass.
Context `{Pass P}.
Variable R : Strategy → Strategy → Prop.
Hypothesis step : ∀ s (p : P) o p' s', dispatch s p o = Ok (p', s') → R s s'.

Lemma run_impl_states_chain objects s (p : P) :
  chain R s (run_impl_states s p objects).
Proof.
  revert s p. induction objects as [|o objects IH]; intros s p; [done|].
  simpl. destruct (dispatch s p o) as [[p' s']|f] eqn:Hd; [|done].
  simpl. split; [by eapply step|apply IH].
Qed.

End chain_pass.

Lemma grows_regions (f : extract_data → extract_data) s :
  (∀ e, grows e (f e)) →
  Forall2 grows (m_extracts s) (m_extracts (with_extracts s (f <$> m_extracts s))).
Proof.
  intros Hf. simpl. apply Forall2_fmap_r, Forall_Forall2_diag, Forall_forall.
  intros e _. apply Hf.
Qed.

Lemma region_step1_grows s o e : grows e (region_step new_pass1 s o e).
Proof.
  destruct o as [n|w|r].
  - rewrite region_step1_node. destruct (decide _); [|apply grows_refl].
    repeat split; simpl; try done. unfold IdSet.set. set_solver.
  - rewrite region_step1_way. destruct (decide _); [|apply grows_refl].
    unfold include_way.
    repeat split; simpl; try done; unfold IdSet.set; set_solver.
  - rewrite region_step1_relation. destruct (decide _); [|apply grows_refl].
    unfold include_relation. destruct (_ || _).
    + repeat split; simpl; try done; unfold IdSet.set; set_solver.
    + repeat split; simpl; try done; unfold IdSet.set; set_solver.
Qed.

Lemma region_step2_grows s o e : grows e (region_step new_pass2 s o e).
Proof.
  change (region_step new_pass2 s o e) with (region_pass new_pass2 s [o] e).
  rewrite region_pass2_with_extras. apply grows_with_extras.
Qed.

Lemma region_step3_grows s o e : grows e (region_step new_pass3 s o e).
Proof.
  change (region_step new_pass3 s o e) with (region_pass new_pass3 s [o] e).
  rewrite region_pass3_with_extras. apply grows_with_extras.
Qed.

Lemma region_step4_grows s o e : grows e (region_step new_pass4 s o e).
Proof.
  change (region_step new_pass4 s o e) with (region_pass new_pass4 s [o] e).
  rewrite region_pass4_write. unfold write_selected.
  repeat split; simpl; try done. by apply prefix_app_r.
Qed.

Lemma add_relation_network_grows indices e :
  grows e (default e (add_relation_network indices e)).
Proof.
  destruct (add_relation_network indices e) as [e'|] eqn:Hrun;
    [|apply grows_refl].
  simpl. apply network_loop_inv in Hrun as (Hframe & Hsub & _).
  rewrite Hframe. repeat split; simpl; done.
Qed.

(** X25: a run takes nothing back.  In the history of a run, from the
    strategy it starts with to the one it returns, every region of every
    strategy holds what it held in the strategy before: the same boundary
    and tag predicates, every id of each of its six sets, and its output
    with, at most, further objects after it. *)
Theorem run_takes_nothing_back (s : Strategy) (input_file : File) :
  chain (λ a b, Forall2 grows (m_extracts a) (m_extracts b)) s
    (run_states s input_file)
  ∧ (run s input_file).2 = default s (last (run_states s input_file)).
Proof.
  split; [|apply run_final].
  set (R := λ a b : Strategy, Forall2 grows (m_extracts a) (m_extracts b)).
  assert (∀ objects s0 (p : Pass1), chain R s0 (run_impl_states s0 p objects))
    as Hpass1.
  { intros objects s0 p. apply run_impl_states_chain.
    intros s1 p1 o p' s' Hd.
    apply (dispatch_regions new_pass1) in Hd; try done. subst s'.
    apply grows_regions, region_step1_grows. }
  assert (∀ objects s0 (p : Pass2), chain R s0 (run_impl_states s0 p objects))
    as Hpass2.
  { intros objects s0 p. apply run_impl_states_chain.
    intros s1 p1 o p' s' Hd.
    apply (dispatch_regions new_pass2) in Hd; try done. subst s'.
    apply grows_regions, region_step2_grows. }
  assert (∀ objects s0 (p : Pass3), chain R s0 (run_impl_states s0 p objects))
    as Hpass3.
  { intros objects s0 p. apply run_impl_states_chain.
    intros s1 p1 o p' s' Hd.
    apply (dispatch_regions new_pass3) in Hd; try done. subst s'.
    apply grows_regions, region_step3_grows. }
  assert (∀ objects s0 (p : Pass4), chain R s0 (run_impl_states s0 p objects))
    as Hpass4.
  { intros objects s0 p. apply run_impl_states_chain.
    intros s1 p1 o p' s' Hd.
    apply (dispatch_regions new_pass4) in Hd; try done. subst s'.
    apply grows_regions, region_step4_grows. }
  unfold run_states. destruct (bool_decide _); [done|].
  pose proof (run_impl_last (reader input_file bits_all) s new_pass1) as Hlast.
  destruct (run_impl s new_pass1 (reader input_file bits_all))
    as [[f1 p1] s1] eqn:Hrun1.
  simpl in Hlast. destruct f1 as [f|]; [apply Hpass1|].
  apply chain_app. split; [apply Hpass1|]. rewrite <- Hlast.
  unfold run_after_pass1_states. rewrite add_relation_networks_regions.
  simpl. split.
  { apply grows_regions. intros e. apply add_relation_network_grows. }
  assert (∀ (b : bool) objects s0 (p : Pass2),
            chain R s0 (if b then run_impl_states s0 p objects else []))
    as Hskip2.
  { intros [] objects s0 p; [apply Hpass2|done]. }
  assert (∀ (b : bool) objects s0 (p : Pass3),
            chain R s0 (if b then run_impl_states s0 p objects else []))
    as Hskip3.
  { intros [] objects s0 p; [apply Hpass3|done]. }
  apply chain_app. split; [apply Hskip2|].
  apply chain_app. split; [apply Hskip3|].
  apply Hpass4.
Qed.
